(** * PyBaMM expression tree: a heap model of [Symbol] and its checked properties

    The development embeds

    - [src/pybamm/expression_tree/symbol.py] (class [Symbol]), together with
      the two library protocols it is written against: [anytree.NodeMixin]
      (parent / children bookkeeping, [PreOrderIter]) and [copy.copy]
      (shallow copy of an instance dictionary);
    - [src/pybamm/meshes/two_dimensional_meshes/chebyshev_scikit_fem_submesh.py]
      (the constructor of [ScikitChebyshev2DSubMesh]).

    Python objects are mutable and shared by reference, so the model is an
    explicit store: objects and list objects live in a [heap], every method
    is a computation in a state-and-exception monad, and a raised exception
    keeps the mutations made before it.

    The parent setter of [anytree.NodeMixin] changed in release 2.10, and
    the source names no version: the setter is modelled before and since
    that release, and what depends on the version says which one it is
    about. *)

From Stdlib Require Import ZArith.
From stdpp Require Import base option list strings gmap pretty.

(** ** Store *)

(** Concrete node classes.  [CSymbol] is the base class of the source file;
    the four operator classes are the ones its arithmetic methods
    instantiate. *)
Inductive Class := CSymbol | CAddition | CSubtraction | CMultiplication | CDivision.

Global Instance Class_eq_dec : EqDecision Class.
Proof. solve_decision. Defined.

(** Object references and list references are positions in the store. *)
Abbreviation addr := nat (only parsing).
Abbreviation lref := nat (only parsing).

(** The instance dictionary of a node: [_name], and the two name-mangled
    attributes of [NodeMixin].  [o_parent = None] stands for both "attribute
    unset" and "set to None" (the [parent] getter maps the first to the
    second).  [o_children = None] is "attribute unset"; otherwise it is a
    reference to a list object, which a shallow copy shares. *)
Record obj := Obj {
  o_class : Class;
  o_name : string;
  o_parent : option addr;
  o_children : option lref
}.

Record heap := Heap {
  objs : list obj;
  lists : list (list addr)
}.

Inductive exn :=
| NotImplementedError (msg : string)
| AssertionError (msg : string)
| LoopError
| InvalidRef      (* a reference that names no object: not reachable from Python *)
| Diverges.       (* the modelled loop or recursion does not finish *)

Inductive res (A : Type) :=
| Ok (a : A)
| Raise (e : exn).
Arguments Ok {A} a.
Arguments Raise {A} e.

Definition M (A : Type) : Type := heap → res A * heap.

Definition ret {A} (a : A) : M A := λ h, (Ok a, h).
Definition raise {A} (e : exn) : M A := λ h, (Raise e, h).
Definition bind {A B} (m : M A) (k : A → M B) : M B :=
  λ h, match m h with
       | (Ok a, h') => k a h'
       | (Raise e, h') => (Raise e, h')
       end.

Notation "'do' x <- m ; k" := (bind m (λ x, k))
  (at level 10, x name, m at level 100, k at level 200,
   format "'[v' 'do'  x  <-  m ; '/' k ']'").
Notation "m ;; k" := (bind m (λ _, k))
  (at level 100, k at level 200, right associativity).

Fixpoint forM {A B} (f : A → M B) (l : list A) : M (list B) :=
  match l with
  | [] => ret []
  | a :: l' => do b <- f a; do bs <- forM f l'; ret (b :: bs)
  end.

Definition get_obj (x : addr) : M obj :=
  λ h, match objs h !! x with
       | Some o => (Ok o, h)
       | None => (Raise InvalidRef, h)
       end.

Definition set_obj (x : addr) (o : obj) : M unit :=
  λ h, (Ok (), Heap (<[x:=o]> (objs h)) (lists h)).

Definition alloc_obj (o : obj) : M addr :=
  λ h, (Ok (length (objs h)), Heap (objs h ++ [o]) (lists h)).

Definition get_list (L : lref) : M (list addr) :=
  λ h, match lists h !! L with
       | Some l => (Ok l, h)
       | None => (Raise InvalidRef, h)
       end.

Definition set_list (L : lref) (l : list addr) : M unit :=
  λ h, (Ok (), Heap (objs h) (<[L:=l]> (lists h))).

Definition alloc_list (l : list addr) : M lref :=
  λ h, (Ok (length (lists h)), Heap (objs h) (lists h ++ [l])).

(** ** [anytree.NodeMixin] *)

(** The source imports [anytree] without naming a version, and the private
    methods [__detach] and [__attach] of [NodeMixin] changed in release
    2.10.  Before it, both check the parent's list with an unconditional
    [assert] and [__detach] removes the node from that list in place.  Since
    it, the checks run only when the module constant [ASSERTIONS] is set
    (from the environment variable [ANYTREE_ASSERTIONS], off by default) and
    [__detach] gives the parent a new list without the node.  The setter is
    modelled for both; the version is a parameter of every definition that
    reaches it. *)
Inductive Anytree := Before_2_10 | Since_2_10 (ASSERTIONS : bool).
Existing Class Anytree.

(** Statements that do not name a version are about anytree before 2.10,
    the library the source was written against. *)
Global Instance anytree_before_2_10 : Anytree := Before_2_10.

(** anytree since 2.10 in its default setting, [ASSERTIONS] off. *)
Definition anytree_since_2_10 : Anytree := Since_2_10 false.

Module NodeMixin.

(** [parent] getter. *)
Definition parent (self : addr) : M (option addr) :=
  do o <- get_obj self; ret (o_parent o).

Definition set_parent_attr (self : addr) (p : option addr) : M unit :=
  do o <- get_obj self;
  set_obj self (Obj (o_class o) (o_name o) p (o_children o)).

(** The private list of children; reading it creates the attribute when it
    is missing. *)
Definition children_ (self : addr) : M lref :=
  do o <- get_obj self;
  match o_children o with
  | Some L => ret L
  | None =>
      do L <- alloc_list [];
      set_obj self (Obj (o_class o) (o_name o) (o_parent o) (Some L));;
      ret L
  end.

(** [children]: a tuple (a snapshot) of the private list. *)
Definition children (self : addr) : M (list addr) :=
  do L <- children_ self; get_list L.

(** [path]: [while node: path.insert(0, node); node = node.parent].  A chain
    of parents without repetition is no longer than the number of objects,
    so running out of this fuel means the Python loop does not end. *)
Fixpoint path_loop (fuel : nat) (node : option addr) (acc : list addr)
  : M (list addr) :=
  match node with
  | None => ret acc
  | Some n =>
      match fuel with
      | 0 => raise Diverges
      | S fuel' => do p <- parent n; path_loop fuel' p (n :: acc)
      end
  end.

Definition path (self : addr) : M (list addr) :=
  λ h, path_loop (S (length (objs h))) (Some self) [] h.

Definition is_in (x : addr) (l : list addr) : bool :=
  existsb (Nat.eqb x) l.

(** [list.remove(x)]: drop the first occurrence. *)
Fixpoint list_remove (x : addr) (l : list addr) : list addr :=
  match l with
  | [] => []
  | y :: l' => if Nat.eqb x y then l' else y :: list_remove x l'
  end.

Definition check_loop (self : addr) (node : option addr) : M unit :=
  match node with
  | None => ret ()
  | Some n =>
      if Nat.eqb n self then raise LoopError
      else do p <- path n;
           if is_in self p then raise LoopError else ret ()
  end.

(** The text of the failed [assert]. *)
Definition corrupt {anytree : Anytree} : string :=
  match anytree with
  | Before_2_10 => "Tree internal data is corrupt."
  | Since_2_10 _ => "Tree is corrupt."
  end.

Definition set_children_attr (self : addr) (L : lref) : M unit :=
  do o <- get_obj self;
  set_obj self (Obj (o_class o) (o_name o) (o_parent o) (Some L)).

(** [__detach].  Before 2.10:
    [assert any(child is self ...); parentchildren.remove(self)].
    Since 2.10: the [assert] under [if ASSERTIONS], then
    [parent.__children = [child for child in parentchildren if child is not self]],
    a new list object. *)
Definition detach {anytree : Anytree} (self : addr) (parent : option addr)
  : M unit :=
  match parent with
  | None => ret ()
  | Some p =>
      do L <- children_ p;
      do parentchildren <- get_list L;
      match anytree with
      | Before_2_10 =>
          if is_in self parentchildren then
            set_list L (list_remove self parentchildren);;
            set_parent_attr self None
          else raise (AssertionError corrupt)
      | Since_2_10 ASSERTIONS =>
          if ASSERTIONS && negb (is_in self parentchildren) then
            raise (AssertionError corrupt)
          else
            (do L' <- alloc_list
                        (List.filter (λ child, negb (Nat.eqb child self))
                           parentchildren);
             set_children_attr p L');;
            set_parent_attr self None
      end
  end.

(** [__attach].  Before 2.10:
    [assert not any(child is self ...); parentchildren.append(self)].
    Since 2.10 the same with the [assert] under [if ASSERTIONS]. *)
Definition attach {anytree : Anytree} (self : addr) (parent : option addr)
  : M unit :=
  match parent with
  | None => ret ()
  | Some p =>
      do L <- children_ p;
      do parentchildren <- get_list L;
      match anytree with
      | Before_2_10 =>
          if is_in self parentchildren then raise (AssertionError corrupt)
          else
            set_list L (parentchildren ++ [self]);;
            set_parent_attr self (Some p)
      | Since_2_10 ASSERTIONS =>
          if ASSERTIONS && is_in self parentchildren then
            raise (AssertionError corrupt)
          else
            set_list L (parentchildren ++ [self]);;
            set_parent_attr self (Some p)
      end
  end.

(** [parent] setter.  Every object of the store is a [NodeMixin], so the
    [TreeError] guard of the setter never fires. *)
Definition set_parent {anytree : Anytree} (self : addr) (value : option addr)
  : M unit :=
  do old <- parent self;
  if decide (old = value) then ret ()
  else check_loop self value;; detach self old;; attach self value.

(** [PreOrderIter._iter]: yield a child, then the pre-order of its
    children, for each child in turn.  The iterator is consumed to the
    end and the yielded nodes are collected. *)
Fixpoint PreOrderIter_iter (fuel : nat) (cs : list addr) : M (list addr) :=
  match fuel with
  | 0 => raise Diverges
  | S fuel' =>
      do parts <- forM (λ child,
                    do ccs <- children child;
                    do ds <- PreOrderIter_iter fuel' ccs;
                    ret (child :: ds)) cs;
      ret (concat parts)
  end.

Definition PreOrderIter (fuel : nat) (node : addr) : M (list addr) :=
  PreOrderIter_iter fuel [node].

End NodeMixin.

(** [copy.copy]: a new object of the same class whose dictionary has the
    same entries (the same parent, the same list object). *)
Definition copy_copy (x : addr) : M addr :=
  do o <- get_obj x; alloc_obj o.

(** ** [Symbol] *)

(** Python values that can reach an arithmetic method as [other]. *)
Inductive value :=
| VSym (a : addr)
| VInt (n : Z)
| VStr (s : string)
| VNone.

(** The list object created once for the default [children=[]]. *)
Definition default_children : lref := 0.
Definition heap0 : heap := Heap [] [[]].

Section Symbol.

(** [hash] on the tuple [(class, name, id_1, ..., id_n)]. *)
Variable py_hash : Class → string → list Z → Z.
(** [str(type(self))]. *)
Variable type_str : Class → string.
(** Time, state vector and result of [evaluate]. *)
Context {T Y R : Type}.
(** The installed anytree. *)
Context {anytree : Anytree}.

(** [cls(name, children)]: allocation of [self], [self._name = name], then
    the loop of [__init__] over the elements of the list object [children].
    The rounds of the loop append only to the children list of [self], which
    is created during the first round, so the elements of [children] are
    the same at every round and are read once. *)
Definition Symbol__init__ (cls : Class) (name : string) (children : lref)
  : M addr :=
  do self <- alloc_obj (Obj cls name None None);
  do cs <- get_list children;
  forM (λ child,
          do c <- copy_copy child;
          NodeMixin.set_parent c (Some self)) cs;;
  ret self.

Definition Symbol_name (self : addr) : M string :=
  do o <- get_obj self; ret (o_name o).

(** [self.__class__], [type(self)]. *)
Definition Symbol_class (self : addr) : M Class :=
  do o <- get_obj self; ret (o_class o).

(** [id]: recomputed at every call; [fuel] bounds the depth of the
    recursion. *)
Fixpoint Symbol_id (fuel : nat) (self : addr) : M Z :=
  match fuel with
  | 0 => raise Diverges
  | S fuel' =>
      do c <- Symbol_class self;
      do n <- Symbol_name self;
      do cs <- NodeMixin.children self;
      do ids <- forM (Symbol_id fuel') cs;
      ret (py_hash c n ids)
  end.

Definition Symbol_pre_order (fuel : nat) (self : addr) : M (list addr) :=
  NodeMixin.PreOrderIter fuel self.

Definition Symbol__str__ (self : addr) : M string := Symbol_name self.

(** Modelled from the spec: the operator classes [Addition], [Subtraction],
    [Multiplication] and [Division] are not in the source files; by
    section 4.2 each builds "a new composite node whose two children are
    clones of self and other (in that order), named by the operator's
    canonical symbol", that is [Symbol.__init__(self, op, [left, right])]. *)
Definition BinaryOperator (cls : Class) (name : string) (left right : addr)
  : M addr :=
  do L <- alloc_list [left; right];
  Symbol__init__ cls name L.

Definition Addition := BinaryOperator CAddition "+".
Definition Subtraction := BinaryOperator CSubtraction "-".
Definition Multiplication := BinaryOperator CMultiplication "*".
Definition Division := BinaryOperator CDivision "/".

Definition Symbol__add__ (self : addr) (other : value) : M addr :=
  match other with
  | VSym b => Addition self b
  | _ => raise (NotImplementedError "")
  end.

Definition Symbol__sub__ (self : addr) (other : value) : M addr :=
  match other with
  | VSym b => Subtraction self b
  | _ => raise (NotImplementedError "")
  end.

Definition Symbol__mul__ (self : addr) (other : value) : M addr :=
  match other with
  | VSym b => Multiplication self b
  | _ => raise (NotImplementedError "")
  end.

Definition Symbol__truediv__ (self : addr) (other : value) : M addr :=
  match other with
  | VSym b => Division self b
  | _ => raise (NotImplementedError "")
  end.

Definition newline : string := String (Ascii.ascii_of_nat 10) "".

Definition evaluate_msg (name : string) (ty : string) : string :=
  "method self.evaluate() not implemented" +:+ newline +:+
  "               for symbol " +:+ name +:+ " of type " +:+ ty.

Definition Symbol_evaluate (self : addr) (t : option T) (y : option Y)
  : M R :=
  do s <- Symbol__str__ self;
  do c <- Symbol_class self;
  raise (NotImplementedError (evaluate_msg s (type_str c))).

End Symbol.

(** ** Views of the store *)

(** The list a node's [children] attribute denotes: nothing recorded yet is
    the empty list; a reference must name a list object. *)
Definition children_view (h : heap) (o : obj) : option (list addr) :=
  match o_children o with
  | None => Some []
  | Some L => lists h !! L
  end.

Definition children_of (h : heap) (x : addr) : list addr :=
  match objs h !! x with
  | Some o => default [] (children_view h o)
  | None => []
  end.

Definition parent_of (h : heap) (x : addr) : option addr :=
  match objs h !! x with
  | Some o => o_parent o
  | None => None
  end.

(** Expression trees as values: the node's address, class and name, and the
    trees of its children in stored order. *)
#[warnings="-register-all"]
Inductive tree := Node (a : addr) (c : Class) (n : string) (ts : list tree).

Definition root (t : tree) : addr := match t with Node a _ _ _ => a end.
Definition subtrees (t : tree) : list tree := match t with Node _ _ _ ts => ts end.

Fixpoint height (t : tree) : nat :=
  match t with
  | Node _ _ _ ts => S (list_max (map height ts))
  end.

Lemma tree_rect' (P : tree → Prop) :
  (∀ a c n ts, Forall P ts → P (Node a c n ts)) → ∀ t, P t.
Proof.
  intros H. fix IH 1. intros [a c n ts]. apply H.
  induction ts as [| t ts IHts]; constructor; [apply IH | apply IHts].
Qed.

(** [repr h x t]: the node at [x] is the root of the finite tree [t]. *)
#[warnings="-register-all"]
Inductive repr (h : heap) : addr → tree → Prop :=
| repr_node x o cs ts :
    objs h !! x = Some o →
    children_view h o = Some cs →
    Forall2 (repr h) cs ts →
    repr h x (Node x (o_class o) (o_name o) ts).

(** Pre-order listing of a tree. *)
Fixpoint preorder (t : tree) : list addr :=
  match t with
  | Node a _ _ ts => a :: concat (map preorder ts)
  end.

(** A tree without its addresses: what "structurally identical" compares. *)
#[warnings="-register-all"]
Inductive shape := Shape (c : Class) (n : string) (ss : list shape).

Fixpoint shape_of (t : tree) : shape :=
  match t with
  | Node _ c n ts => Shape c n (map shape_of ts)
  end.

(** Reads create missing [children] attributes and nothing else. *)
Record lazy_ext (h h' : heap) : Prop := {
  le_len : length (objs h') = length (objs h);
  le_obj : ∀ x o, objs h !! x = Some o →
    ∃ o', objs h' !! x = Some o' ∧
          o_class o' = o_class o ∧ o_name o' = o_name o ∧
          o_parent o' = o_parent o ∧
          (o_children o' = o_children o ∨
           (o_children o = None ∧
            ∃ L, o_children o' = Some L ∧ length (lists h) ≤ L ∧
                 lists h' !! L = Some []));
  le_lists : ∃ k, lists h' = lists h ++ replicate k []
}.

Lemma lazy_ext_refl h : lazy_ext h h.
Proof.
  split; [done | | by exists 0; rewrite app_nil_r].
  intros x o Hx. exists o. tauto.
Qed.

Lemma lazy_ext_lookup_list h h' L l :
  lazy_ext h h' → lists h !! L = Some l → lists h' !! L = Some l.
Proof.
  intros [_ _ [k ->]] HL. by apply lookup_app_l_Some.
Qed.

Lemma lazy_ext_lists_len h h' :
  lazy_ext h h' → length (lists h) ≤ length (lists h').
Proof. intros [_ _ [k ->]]. rewrite length_app. lia. Qed.

Lemma lazy_ext_trans h1 h2 h3 :
  lazy_ext h1 h2 → lazy_ext h2 h3 → lazy_ext h1 h3.
Proof.
  intros H12 H23. split.
  - rewrite (le_len _ _ H23). apply (le_len _ _ H12).
  - intros x o Hx.
    destruct (le_obj _ _ H12 x o Hx) as (o2 & Hx2 & Hc & Hn & Hp & Hch).
    destruct (le_obj _ _ H23 x o2 Hx2) as (o3 & Hx3 & Hc3 & Hn3 & Hp3 & Hch3).
    exists o3. repeat split; try congruence.
    destruct Hch as [Hch | (Hnone & L & HL & Hge & Hnil)].
    + destruct Hch3 as [Hch3 | (Hnone3 & L & HL & Hge & Hnil)].
      * left. congruence.
      * right. split; [congruence |]. exists L. repeat split; try done.
        pose proof (lazy_ext_lists_len _ _ H12). lia.
    + right. split; [done |]. exists L.
      destruct Hch3 as [Hch3 | (Hnone3 & _)]; [| congruence].
      repeat split; [congruence | done |].
      eapply lazy_ext_lookup_list; eauto.
  - destruct (le_lists _ _ H12) as [k Hk], (le_lists _ _ H23) as [k' Hk'].
    exists (k + k'). by rewrite Hk', Hk, replicate_add, app_assoc.
Qed.

Lemma lazy_ext_children_view h h' x o o' cs :
  lazy_ext h h' → objs h !! x = Some o → objs h' !! x = Some o' →
  children_view h o = Some cs → children_view h' o' = Some cs.
Proof.
  intros Hle Hx Hx' Hv.
  destruct (le_obj _ _ Hle x o Hx) as (o2 & Hx2 & _ & _ & _ & Hch).
  assert (o2 = o') by congruence. subst o2.
  unfold children_view in *.
  destruct Hch as [-> | (Hnone & L & -> & _ & Hnil)].
  - destruct (o_children o); [| done]. eapply lazy_ext_lookup_list; eauto.
  - rewrite Hnone in Hv. congruence.
Qed.

Lemma lazy_ext_repr h h' x t :
  lazy_ext h h' → repr h x t → repr h' x t.
Proof.
  intros Hle. revert x.
  induction t as [a c n ts IH] using tree_rect'.
  intros x Hr. inversion Hr as [x' o cs ts' Hx Hv Hcs]; subst.
  destruct (le_obj _ _ Hle _ o Hx) as (o' & Hx' & Hc & Hn & _ & _).
  rewrite <- Hc, <- Hn. econstructor; [done | by eapply lazy_ext_children_view |].
  clear Hv Hr. induction Hcs as [| c t cs ts Hct Hcs IHcs]; constructor.
  - by apply (Forall_inv IH).
  - apply IHcs, (Forall_inv_tail IH).
Qed.

(** ** Reading computations *)

(** [reads m]: whatever [m] returns or raises, it only creates missing
    [children] attributes. *)
Definition reads {A} (m : M A) : Prop :=
  ∀ h r h', m h = (r, h') → lazy_ext h h'.

Lemma reads_ret {A} (a : A) : reads (ret a).
Proof. intros h r h' [= <- <-]. apply lazy_ext_refl. Qed.

Lemma reads_raise {A} e : reads (@raise A e).
Proof. intros h r h' [= <- <-]. apply lazy_ext_refl. Qed.

Lemma reads_bind {A B} (m : M A) (k : A → M B) :
  reads m → (∀ a, reads (k a)) → reads (bind m k).
Proof.
  intros Hm Hk h r h'. unfold bind.
  destruct (m h) as [[a | e] h1] eqn:E; intros Hr.
  - eapply lazy_ext_trans; [by eapply Hm | by eapply Hk].
  - injection Hr as <- <-. by eapply Hm.
Qed.

Lemma reads_forM {A B} (f : A → M B) l :
  (∀ a, reads (f a)) → reads (forM f l).
Proof.
  intros Hf. induction l as [| a l IH]; simpl.
  - apply reads_ret.
  - apply reads_bind; [done |]. intros b.
    apply reads_bind; [done |]. intros bs. apply reads_ret.
Qed.

Lemma bind_ok {A B} (m : M A) (k : A → M B) h a h1 :
  m h = (Ok a, h1) → bind m k h = k a h1.
Proof. unfold bind. by intros ->. Qed.

Lemma bind_raise {A B} (m : M A) (k : A → M B) h e h1 :
  m h = (Raise e, h1) → bind m k h = (Raise e, h1).
Proof. unfold bind. by intros ->. Qed.

Lemma get_obj_ok h x o : objs h !! x = Some o → get_obj x h = (Ok o, h).
Proof. unfold get_obj. by intros ->. Qed.

Lemma get_list_ok h L l : lists h !! L = Some l → get_list L h = (Ok l, h).
Proof. unfold get_list. by intros ->. Qed.

Lemma Symbol_class_ok h x o :
  objs h !! x = Some o → Symbol_class x h = (Ok (o_class o), h).
Proof. intros Hx. unfold Symbol_class. by rewrite (bind_ok _ _ _ _ _ (get_obj_ok _ _ _ Hx)). Qed.

Lemma Symbol_name_ok h x o :
  objs h !! x = Some o → Symbol_name x h = (Ok (o_name o), h).
Proof. intros Hx. unfold Symbol_name. by rewrite (bind_ok _ _ _ _ _ (get_obj_ok _ _ _ Hx)). Qed.

Lemma parent_ok h x o :
  objs h !! x = Some o → NodeMixin.parent x h = (Ok (o_parent o), h).
Proof. intros Hx. unfold NodeMixin.parent. by rewrite (bind_ok _ _ _ _ _ (get_obj_ok _ _ _ Hx)). Qed.

(** Run the next statement of a computation with a known outcome. *)
Ltac mstep H := rewrite (bind_ok _ _ _ _ _ H).
Ltac mfail H := rewrite (bind_raise _ _ _ _ _ H).

Lemma reads_get_obj x : reads (get_obj x).
Proof.
  intros h r h'. unfold get_obj.
  destruct (objs h !! x); intros [= <- <-]; apply lazy_ext_refl.
Qed.

Lemma reads_get_list L : reads (get_list L).
Proof.
  intros h r h'. unfold get_list.
  destruct (lists h !! L); intros [= <- <-]; apply lazy_ext_refl.
Qed.

Lemma lazy_ext_create h x o :
  objs h !! x = Some o → o_children o = None →
  lazy_ext h
    (Heap (<[x:=Obj (o_class o) (o_name o) (o_parent o)
                    (Some (length (lists h)))]> (objs h))
          (lists h ++ [[]])).
Proof.
  intros Hx Hnone. split; simpl.
  - apply length_insert.
  - intros y oy Hy. destruct (decide (x = y)) as [<- | Hne].
    + assert (oy = o) by congruence. subst oy.
      eexists. split; [apply list_lookup_insert_eq; by eapply lookup_lt_Some |].
      simpl. repeat split. right. split; [done |].
      eexists. split; [done |]. split; [done |].
      by rewrite lookup_app_r, Nat.sub_diag.
    + exists oy. rewrite list_lookup_insert_ne by done. tauto.
  - by exists 1.
Qed.

Lemma reads_children_ x : reads (NodeMixin.children_ x).
Proof.
  intros h r h'. unfold NodeMixin.children_, bind, get_obj.
  destruct (objs h !! x) as [o |] eqn:Hx; [| intros [= <- <-]; apply lazy_ext_refl].
  destruct (o_children o) as [L |] eqn:Hc; [intros [= <- <-]; apply lazy_ext_refl |].
  simpl. intros [= <- <-]. by apply lazy_ext_create.
Qed.

Lemma reads_children x : reads (NodeMixin.children x).
Proof.
  apply reads_bind; [apply reads_children_ | intros L; apply reads_get_list].
Qed.

Lemma children_ok h x o cs :
  objs h !! x = Some o → children_view h o = Some cs →
  ∃ h', NodeMixin.children x h = (Ok cs, h') ∧ lazy_ext h h'.
Proof.
  intros Hx Hv.
  assert (∃ h', NodeMixin.children x h = (Ok cs, h')) as [h' Hrun].
  { unfold NodeMixin.children, NodeMixin.children_, bind, get_obj, children_view in *.
    rewrite Hx. destruct (o_children o) as [L |] eqn:Hc; simpl.
    - unfold get_list. rewrite Hv. eauto.
    - injection Hv as <-. unfold get_list. simpl.
      rewrite lookup_app_r, Nat.sub_diag by done. simpl. eauto. }
  exists h'. split; [done |]. by eapply reads_children.
Qed.

(** A loop over the children of a node whose body only reads: if the body
    computes [g t] on every child with tree [t], in any later store, the loop
    computes [map g] of the trees. *)
Lemma forM_lazy {A B C} (f : A → M B) (g : C → B) h0 cs ts :
  Forall2 (λ c t, ∀ h, lazy_ext h0 h →
             ∃ h', f c h = (Ok (g t), h') ∧ lazy_ext h h') cs ts →
  ∀ h, lazy_ext h0 h →
    ∃ h', forM f cs h = (Ok (map g ts), h') ∧ lazy_ext h h'.
Proof.
  induction 1 as [| c t cs ts Hc _ IH]; intros h Hle; simpl.
  - exists h. split; [done | apply lazy_ext_refl].
  - destruct (Hc h Hle) as (h1 & Hrun & Hle1).
    destruct (IH h1) as (h2 & Hrun2 & Hle2); [by eapply lazy_ext_trans |].
    exists h2. unfold bind. rewrite Hrun, Hrun2.
    split; [done | by eapply lazy_ext_trans].
Qed.

Section Fingerprint.

Variable py_hash : Class → string → list Z → Z.

(** The fingerprint of a tree: the combinator applied bottom-up. *)
Fixpoint fingerprint (t : tree) : Z :=
  match t with
  | Node _ c n ts => py_hash c n (map fingerprint ts)
  end.

Fixpoint shape_hash (s : shape) : Z :=
  match s with
  | Shape c n ss => py_hash c n (map shape_hash ss)
  end.

Lemma fingerprint_shape t : fingerprint t = shape_hash (shape_of t).
Proof.
  induction t as [a c n ts IH] using tree_rect'. simpl. f_equal.
  rewrite map_map. apply map_ext_Forall, IH.
Qed.

Lemma reads_Symbol_id fuel x : reads (Symbol_id py_hash fuel x).
Proof.
  revert x. induction fuel as [| fuel IH]; intros x; simpl.
  - apply reads_raise.
  - apply reads_bind; [apply reads_bind; [apply reads_get_obj | intros; apply reads_ret] |].
    intros c. apply reads_bind;
      [apply reads_bind; [apply reads_get_obj | intros; apply reads_ret] |].
    intros n. apply reads_bind; [apply reads_children |].
    intros cs. apply reads_bind; [by apply reads_forM |].
    intros ids. apply reads_ret.
Qed.

Lemma Symbol_id_ok fuel : ∀ h x t,
  repr h x t → height t ≤ fuel →
  ∃ h', Symbol_id py_hash fuel x h = (Ok (fingerprint t), h') ∧ lazy_ext h h'.
Proof.
  induction fuel as [| fuel IH]; intros h x t Hr Hh.
  { destruct t; simpl in Hh; lia. }
  inversion Hr as [x' o cs ts Hx Hv Hcs]; subst. simpl in Hh.
  destruct (children_ok h x o cs Hx Hv) as (h1 & Hch & Hle1).
  destruct (forM_lazy (Symbol_id py_hash fuel) fingerprint h1 cs ts) with (h := h1)
    as (h2 & Hmap & Hle2); [| apply lazy_ext_refl |].
  { assert (Forall (λ t, height t ≤ fuel) ts) as Hts.
    { apply Forall_forall. intros t Ht.
      assert (height t ≤ list_max (map height ts)); [| lia].
      apply list_elem_of_In in Ht.
      pose proof (proj1 (list_max_le (map height ts) _) (le_n _)) as Hall.
      rewrite List.Forall_forall in Hall. apply Hall, in_map, Ht. }
    clear Hv Hch Hr Hh. induction Hcs as [| c t cs ts Hct _ IHcs]; constructor.
    - intros h' Hle'. apply IH; [| by apply (Forall_inv Hts)].
      eapply lazy_ext_repr; [| done]. by eapply lazy_ext_trans.
    - apply IHcs, (Forall_inv_tail Hts). }
  exists h2. split; [| by eapply lazy_ext_trans].
  cbn [Symbol_id fingerprint].
  mstep (Symbol_class_ok _ _ _ Hx). mstep (Symbol_name_ok _ _ _ Hx).
  mstep Hch. by mstep Hmap.
Qed.

End Fingerprint.

Lemma height_le_list_max (ts : list tree) t :
  t ∈ ts → height t ≤ list_max (map height ts).
Proof.
  intros Ht. apply list_elem_of_In in Ht.
  pose proof (proj1 (list_max_le (map height ts) _) (le_n _)) as Hall.
  rewrite List.Forall_forall in Hall. apply Hall, in_map, Ht.
Qed.

Lemma reads_PreOrderIter_iter fuel cs : reads (NodeMixin.PreOrderIter_iter fuel cs).
Proof.
  revert cs. induction fuel as [| fuel IH]; intros cs; simpl.
  - apply reads_raise.
  - apply reads_bind; [| intros; apply reads_ret].
    apply reads_forM. intros c.
    apply reads_bind; [apply reads_children |]. intros ccs.
    apply reads_bind; [apply IH | intros; apply reads_ret].
Qed.

Lemma PreOrderIter_iter_ok fuel : ∀ h cs ts,
  Forall2 (repr h) cs ts → list_max (map height ts) < fuel →
  ∃ h', NodeMixin.PreOrderIter_iter fuel cs h = (Ok (concat (map preorder ts)), h')
        ∧ lazy_ext h h'.
Proof.
  induction fuel as [| fuel IH]; intros h cs ts Hcs Hh; [lia |].
  cbn [NodeMixin.PreOrderIter_iter].
  match goal with |- context [forM ?f cs] =>
    destruct (forM_lazy f preorder h cs ts) with (h := h) as (h1 & Hmap & Hle1)
  end; [| apply lazy_ext_refl |].
  - assert (Forall (λ t, height t ≤ fuel) ts) as Hts.
    { apply Forall_forall. intros t Ht. apply height_le_list_max in Ht. lia. }
    clear Hh. induction Hcs as [| c t cs ts Hct _ IHcs]; constructor;
      [| apply IHcs, (Forall_inv_tail Hts)].
    intros h' Hle'. apply Forall_inv in Hts.
    apply (lazy_ext_repr _ _ _ _ Hle') in Hct.
    inversion Hct as [x' o ccs tts Hx Hv Hccs]; subst. simpl in Hts.
    destruct (children_ok h' c o ccs Hx Hv) as (h1 & Hch & Hle1).
    destruct (IH h1 ccs tts) as (h2 & Hit & Hle2); [| lia |].
    { eapply Forall2_impl; [done |]. intros ???. by eapply lazy_ext_repr. }
    exists h2. mstep Hch. mstep Hit. split; [done | by eapply lazy_ext_trans].
  - exists h1. by mstep Hmap.
Qed.

Lemma Symbol_pre_order_ok fuel h x t :
  repr h x t → height t < fuel →
  ∃ h', Symbol_pre_order fuel x h = (Ok (preorder t), h') ∧ lazy_ext h h'.
Proof.
  intros Hr Hh.
  destruct (PreOrderIter_iter_ok fuel h [x] [t]) as (h' & Hrun & Hle).
  { by repeat constructor. }
  { simpl. lia. }
  exists h'. split; [| done].
  unfold Symbol_pre_order, NodeMixin.PreOrderIter. rewrite Hrun.
  simpl. by rewrite app_nil_r.
Qed.

(** ** Well-formed stores *)

(** What every store built through the interface satisfies: a recorded
    parent is an object that has a children list, and references name
    something. *)
Record heap_wf (h : heap) : Prop := {
  wf_parent : ∀ x o p, objs h !! x = Some o → o_parent o = Some p →
    ∃ op L, objs h !! p = Some op ∧ o_children op = Some L;
  wf_children : ∀ x o L, objs h !! x = Some o → o_children o = Some L →
    L < length (lists h);
  wf_lists : ∀ L l e, lists h !! L = Some l → e ∈ l → e < length (objs h)
}.

Definition obj_wfb (h : heap) (o : obj) : bool :=
  match o_parent o with
  | None => true
  | Some p =>
      match objs h !! p with
      | Some op => bool_decide (is_Some (o_children op))
      | None => false
      end
  end &&
  match o_children o with
  | None => true
  | Some L => bool_decide (L < length (lists h))
  end.

Definition heap_wfb (h : heap) : bool :=
  forallb (obj_wfb h) (objs h) &&
  forallb (forallb (λ e, bool_decide (e < length (objs h)))) (lists h).

Lemma heap_wfb_sound h : heap_wfb h = true → heap_wf h.
Proof.
  unfold heap_wfb. rewrite andb_true_iff, !forallb_forall.
  intros [Hobjs Hlists]. split.
  - intros x o p Hx Hp.
    specialize (Hobjs o (proj1 (list_elem_of_In _ _) (list_elem_of_lookup_2 _ _ _ Hx))).
    unfold obj_wfb in Hobjs. rewrite Hp in Hobjs.
    apply andb_true_iff in Hobjs as [Hobjs _].
    destruct (objs h !! p) as [op |]; [| done].
    apply bool_decide_eq_true in Hobjs as [L HL]. eauto.
  - intros x o L Hx HL.
    specialize (Hobjs o (proj1 (list_elem_of_In _ _) (list_elem_of_lookup_2 _ _ _ Hx))).
    unfold obj_wfb in Hobjs. rewrite HL in Hobjs.
    apply andb_true_iff in Hobjs as [_ Hobjs].
    by apply bool_decide_eq_true in Hobjs.
  - intros L l e HL He.
    specialize (Hlists l (proj1 (list_elem_of_In _ _) (list_elem_of_lookup_2 _ _ _ HL))).
    rewrite forallb_forall in Hlists.
    specialize (Hlists e (proj1 (list_elem_of_In _ _) He)).
    by apply bool_decide_eq_true in Hlists.
Qed.

Lemma heap0_wf : heap_wf heap0.
Proof. by apply heap_wfb_sound. Qed.

Lemma is_in_false x l : x ∉ l → NodeMixin.is_in x l = false.
Proof.
  intros Hx. unfold NodeMixin.is_in. apply not_true_is_false. intros Hex.
  apply existsb_exists in Hex as (y & Hy & Heq).
  apply Nat.eqb_eq in Heq as <-. by apply Hx, list_elem_of_In.
Qed.

Lemma is_in_true x l : x ∈ l → NodeMixin.is_in x l = true.
Proof.
  intros Hx. unfold NodeMixin.is_in. apply existsb_exists.
  exists x. split; [by apply list_elem_of_In | apply Nat.eqb_refl].
Qed.

(** ** Construction, step by step *)

Definition copy_into (self : addr) (o : obj) : obj :=
  Obj (o_class o) (o_name o) (Some self) (o_children o).

(** The store while [__init__] runs on a fresh node of class [cls] named
    [name], after the children whose objects are [done] have been copied and
    attached. *)
Definition built (h : heap) (cls : Class) (name : string) (done : list obj)
  : heap :=
  let self := length (objs h) in
  match done with
  | [] => Heap (objs h ++ [Obj cls name None None]) (lists h)
  | _ :: _ =>
      Heap (objs h ++ Obj cls name None (Some (length (lists h)))
                   :: map (copy_into self) done)
           (lists h ++ [seq (S self) (length done)])
  end.

Lemma built_objs_length h cls name done :
  length (objs (built h cls name done)) = S (length (objs h) + length done).
Proof.
  destruct done; simpl; rewrite length_app; simpl; [lia |].
  rewrite length_map. lia.
Qed.

Lemma built_lookup_old h cls name done x o :
  objs h !! x = Some o → objs (built h cls name done) !! x = Some o.
Proof. intros Hx. destruct done; simpl; by apply lookup_app_l_Some. Qed.

Lemma built_lookup_list_old h cls name done L l :
  lists h !! L = Some l → lists (built h cls name done) !! L = Some l.
Proof. intros HL. destruct done; simpl; [done | by apply lookup_app_l_Some]. Qed.

Lemma built_lookup_self h cls name done :
  ∃ sc, objs (built h cls name done) !! length (objs h) = Some (Obj cls name None sc).
Proof.
  destruct done; simpl; eexists; rewrite lookup_app_r, Nat.sub_diag by done; done.
Qed.

Lemma path_root h x o :
  objs h !! x = Some o → o_parent o = None →
  NodeMixin.path x h = (Ok [x], h).
Proof.
  intros Hx Hp. unfold NodeMixin.path. cbn [NodeMixin.path_loop].
  mstep (parent_ok _ _ _ Hx). rewrite Hp. by destruct (length (objs h)).
Qed.

Lemma children__some h x o L :
  objs h !! x = Some o → o_children o = Some L →
  NodeMixin.children_ x h = (Ok L, h).
Proof.
  intros Hx HL. unfold NodeMixin.children_.
  mstep (get_obj_ok _ _ _ Hx). by rewrite HL.
Qed.

Definition with_children (o : obj) (L : lref) : obj :=
  Obj (o_class o) (o_name o) (o_parent o) (Some L).

Definition with_parent (o : obj) (p : option addr) : obj :=
  Obj (o_class o) (o_name o) p (o_children o).

Lemma children__none h x o :
  objs h !! x = Some o → o_children o = None →
  NodeMixin.children_ x h
  = (Ok (length (lists h)),
     Heap (<[x:=with_children o (length (lists h))]> (objs h)) (lists h ++ [[]])).
Proof.
  intros Hx HL. unfold NodeMixin.children_.
  mstep (get_obj_ok _ _ _ Hx). by rewrite HL.
Qed.

Lemma set_parent_attr_ok h x o p :
  objs h !! x = Some o →
  NodeMixin.set_parent_attr x p h
  = (Ok (), Heap (<[x:=with_parent o p]> (objs h)) (lists h)).
Proof.
  intros Hx. unfold NodeMixin.set_parent_attr. by mstep (get_obj_ok _ _ _ Hx).
Qed.

(** Attaching to a parent that already has a children list. *)
Lemma attach_some {anytree : Anytree} h self o p op L l :
  objs h !! self = Some o → objs h !! p = Some op →
  o_children op = Some L → lists h !! L = Some l → self ∉ l →
  NodeMixin.attach self (Some p) h
  = (Ok (), Heap (<[self:=with_parent o (Some p)]> (objs h))
                 (<[L:=l ++ [self]]> (lists h))).
Proof.
  intros Hself Hp HL Hl Hnin. unfold NodeMixin.attach.
  mstep (children__some _ _ _ _ Hp HL). mstep (get_list_ok _ _ _ Hl).
  rewrite (is_in_false _ _ Hnin).
  assert (Hgo : (set_list L (l ++ [self]);;
                 NodeMixin.set_parent_attr self (Some p)) h
                = (Ok (), Heap (<[self:=with_parent o (Some p)]> (objs h))
                               (<[L:=l ++ [self]]> (lists h)))).
  { unfold bind at 1. unfold set_list at 1.
    by rewrite set_parent_attr_ok with (o := o). }
  destruct anytree as [|a]; [done|]. by rewrite andb_false_r.
Qed.

(** Attaching to a parent whose children list does not exist yet. *)
Lemma attach_none {anytree : Anytree} h self o p op :
  objs h !! self = Some o → objs h !! p = Some op →
  o_children op = None → self ≠ p →
  NodeMixin.attach self (Some p) h
  = (Ok (), Heap (<[self:=with_parent o (Some p)]>
                    (<[p:=with_children op (length (lists h))]> (objs h)))
                 (lists h ++ [[self]])).
Proof.
  intros Hself Hp HL Hne. unfold NodeMixin.attach.
  mstep (children__none _ _ _ Hp HL).
  erewrite (bind_ok (get_list _)); cycle 1.
  { apply get_list_ok. simpl. by rewrite lookup_app_r, Nat.sub_diag. }
  assert (Hgo : ∀ H1, H1 = Heap (<[p:=with_children op (length (lists h))]> (objs h))
                                (lists h ++ [[]]) →
                (set_list (length (lists h)) ([] ++ [self]);;
                 NodeMixin.set_parent_attr self (Some p)) H1
                = (Ok (), Heap (<[self:=with_parent o (Some p)]>
                                  (<[p:=with_children op (length (lists h))]> (objs h)))
                               (lists h ++ [[self]]))).
  { intros H1 ->. simpl. unfold bind at 1. unfold set_list at 1. simpl.
    rewrite set_parent_attr_ok with (o := o); simpl.
    - do 2 f_equal. rewrite insert_app_r_alt, Nat.sub_diag by done. done.
    - by rewrite list_lookup_insert_ne. }
  destruct anytree as [|a]; simpl; [by apply Hgo|].
  rewrite andb_false_r. by apply Hgo.
Qed.

(** One round of the loop of [__init__] on a child that has no parent. *)
Lemma attach_copy_ok {anytree : Anytree} h cls name done c oc :
  objs h !! c = Some oc → o_parent oc = None →
  (do c' <- copy_copy c; NodeMixin.set_parent c' (Some (length (objs h))))
    (built h cls name done)
  = (Ok (), built h cls name (done ++ [oc])).
Proof.
  intros Hc Hp.
  pose proof (built_objs_length h cls name done) as Hlen.
  destruct (built_lookup_self h cls name done) as [sc Hself].
  remember (length (objs h)) as self eqn:Eself.
  remember (built h cls name done) as H eqn:EH.
  remember (length (objs H)) as c' eqn:Ec'.
  remember (Heap (objs H ++ [oc]) (lists H)) as H1 eqn:EH1.
  assert (Hcopy : copy_copy c H = (Ok c', H1)).
  { unfold copy_copy. subst H.
    mstep (get_obj_ok _ _ _ (built_lookup_old h cls name done _ _ Hc)).
    by subst. }
  mstep Hcopy.
  assert (Hoc : objs H1 !! c' = Some oc).
  { subst H1 c'. simpl. by rewrite lookup_app_r, Nat.sub_diag. }
  assert (Hself1 : objs H1 !! self = Some (Obj cls name None sc)).
  { subst H1. simpl. by apply lookup_app_l_Some. }
  unfold NodeMixin.set_parent.
  mstep (parent_ok _ _ _ Hoc). rewrite Hp.
  case_decide; [done |].
  assert (Hchk : NodeMixin.check_loop c' (Some self) H1 = (Ok (), H1)).
  { unfold NodeMixin.check_loop.
    destruct (Nat.eqb_spec self c') as [? | _]; [lia |].
    mstep (path_root _ _ _ Hself1 eq_refl).
    rewrite is_in_false; [done |]. rewrite list_elem_of_singleton. lia. }
  mstep Hchk. cbn [NodeMixin.detach]. unfold ret at 1. cbn [bind].
  clear Hchk Hcopy.
  destruct done as [| d done].
  - rewrite attach_none with (o := oc) (op := Obj cls name None sc);
      [| done | done | | lia].
    2:{ subst H H1. simpl in *. rewrite lookup_app_r, Eself, Nat.sub_diag in Hself by lia.
        by injection Hself as <-. }
    subst. simpl in *. f_equal. f_equal.
    + rewrite <- app_assoc. simpl.
      rewrite !insert_app_r_alt by lia.
      rewrite Nat.sub_diag. replace (length (objs h ++ [_]) - length (objs h)) with 1
        by (rewrite length_app; simpl; lia).
      done.
    + do 3 f_equal. rewrite length_app. simpl. lia.
  - assert (sc = Some (length (lists h))) as ->.
    { subst H H1. simpl in *. rewrite lookup_app_r, Eself, Nat.sub_diag in Hself by lia.
      by injection Hself. }
    rewrite attach_some with (o := oc) (op := Obj cls name None (Some (length (lists h))))
      (L := length (lists h)) (l := seq (S self) (length (d :: done)));
      [| done | done | done | |].
    + subst. simpl in *. f_equal. f_equal.
      * rewrite <- app_assoc. simpl.
        rewrite insert_app_r_alt by (rewrite length_app; simpl; lia).
        f_equal. rewrite length_app. simpl.
        replace (length (objs h) + S (S (length (map (copy_into (length (objs h))) done)))
                 - length (objs h)) with (S (S (length (map (copy_into (length (objs h))) done))))
          by lia.
        simpl. do 2 f_equal. rewrite map_app. simpl.
        by rewrite insert_app_r_alt, length_map, Nat.sub_diag by (by rewrite length_map).
      * rewrite insert_app_r_alt, Nat.sub_diag by done. simpl.
        do 3 f_equal. rewrite !length_app. simpl.
        rewrite Nat.add_1_r, seq_S, length_map. do 2 f_equal. lia.
    + subst. simpl. by rewrite lookup_app_r, Nat.sub_diag.
    + rewrite list_elem_of_In, in_seq. simpl in *. lia.
Qed.

(** The store after [__init__] has failed on a child whose object is [oc]:
    the copy of that child stays behind, unattached to the new node. *)
Definition failed (h : heap) (cls : Class) (name : string) (done : list obj)
    (oc : obj) : heap :=
  Heap (objs (built h cls name done) ++ [oc]) (lists (built h cls name done)).

(** One round of the loop on a child that has a parent: the copy keeps that
    parent, is not among the parent's children, and [detach] gives up. *)
Lemma attach_copy_fail h cls name done c oc p :
  heap_wf h → objs h !! c = Some oc → o_parent oc = Some p →
  (do c' <- copy_copy c; NodeMixin.set_parent c' (Some (length (objs h))))
    (built h cls name done)
  = (Raise (AssertionError NodeMixin.corrupt), failed h cls name done oc).
Proof.
  intros Hwf Hc Hp.
  pose proof (built_objs_length h cls name done) as Hlen.
  destruct (built_lookup_self h cls name done) as [sc Hself].
  destruct (wf_parent _ Hwf _ _ _ Hc Hp) as (op & L & Hop & HL).
  pose proof (wf_children _ Hwf _ _ _ Hop HL) as HLlt.
  destruct (lookup_lt_is_Some_2 _ _ HLlt) as [l Hl].
  pose proof (lookup_lt_Some _ _ _ Hop) as Hplt.
  unfold failed.
  remember (length (objs h)) as self eqn:Eself.
  remember (built h cls name done) as H eqn:EH.
  remember (length (objs H)) as c' eqn:Ec'.
  remember (Heap (objs H ++ [oc]) (lists H)) as H1 eqn:EH1.
  assert (Hcopy : copy_copy c H = (Ok c', H1)).
  { unfold copy_copy. subst H.
    mstep (get_obj_ok _ _ _ (built_lookup_old h cls name done _ _ Hc)).
    by subst. }
  mstep Hcopy.
  assert (Hoc : objs H1 !! c' = Some oc).
  { subst H1 c'. simpl. by rewrite lookup_app_r, Nat.sub_diag. }
  assert (Hself1 : objs H1 !! self = Some (Obj cls name None sc)).
  { subst H1. simpl. by apply lookup_app_l_Some. }
  assert (Hop1 : objs H1 !! p = Some op).
  { subst H1 H. simpl. by apply lookup_app_l_Some, built_lookup_old. }
  assert (Hl1 : lists H1 !! L = Some l).
  { subst H1 H. simpl. by apply built_lookup_list_old. }
  unfold NodeMixin.set_parent.
  mstep (parent_ok _ _ _ Hoc). rewrite Hp.
  case_decide as Heq; [injection Heq as ->; lia |].
  assert (Hchk : NodeMixin.check_loop c' (Some self) H1 = (Ok (), H1)).
  { unfold NodeMixin.check_loop.
    destruct (Nat.eqb_spec self c') as [? | _]; [lia |].
    mstep (path_root _ _ _ Hself1 eq_refl).
    rewrite is_in_false; [done |]. rewrite list_elem_of_singleton. lia. }
  mstep Hchk. unfold NodeMixin.detach.
  rewrite (bind_raise _ _ _ (AssertionError NodeMixin.corrupt) H1); [done |].
  mstep (children__some _ _ _ _ Hop1 HL). mstep (get_list_ok _ _ _ Hl1).
  rewrite is_in_false; [done |].
  intros Hin. apply (wf_lists _ Hwf _ _ _ Hl) in Hin. lia.
Qed.

Definition unit_list {A} (l : list A) : list unit := map (λ _, ()) l.

Lemma init_loop_ok {anytree : Anytree} h cls name cs ocs : ∀ done,
  Forall2 (λ c oc, objs h !! c = Some oc ∧ o_parent oc = None) cs ocs →
  forM (λ child, do c' <- copy_copy child;
                 NodeMixin.set_parent c' (Some (length (objs h)))) cs
       (built h cls name done)
  = (Ok (unit_list cs), built h cls name (done ++ ocs)).
Proof.
  intros done Hcs. revert done.
  induction Hcs as [| c oc cs ocs [Hc Hp] _ IH]; intros done; simpl.
  - by rewrite app_nil_r.
  - mstep (attach_copy_ok h cls name done c oc Hc Hp).
    mstep (IH (done ++ [oc])). by rewrite <- app_assoc.
Qed.

Lemma init_loop_fail h cls name pre ocs c oc p post : ∀ done,
  heap_wf h →
  Forall2 (λ c oc, objs h !! c = Some oc ∧ o_parent oc = None) pre ocs →
  objs h !! c = Some oc → o_parent oc = Some p →
  forM (λ child, do c' <- copy_copy child;
                 NodeMixin.set_parent c' (Some (length (objs h))))
       (pre ++ c :: post) (built h cls name done)
  = (Raise (AssertionError NodeMixin.corrupt),
     failed h cls name (done ++ ocs) oc).
Proof.
  intros done Hwf Hpre Hc Hp. revert done.
  induction Hpre as [| c0 oc0 pre ocs [Hc0 Hp0] _ IH]; intros done; simpl.
  - rewrite app_nil_r.
    by mfail (attach_copy_fail h cls name done c oc p Hwf Hc Hp).
  - mstep (attach_copy_ok h cls name done c0 oc0 Hc0 Hp0).
    mfail (IH (done ++ [oc0])). by rewrite <- app_assoc.
Qed.

(** The two outcomes of [cls(name, children)]. *)
Lemma Symbol_init_ok {anytree : Anytree} h cls name L cs ocs :
  lists h !! L = Some cs →
  Forall2 (λ c oc, objs h !! c = Some oc ∧ o_parent oc = None) cs ocs →
  Symbol__init__ cls name L h = (Ok (length (objs h)), built h cls name ocs).
Proof.
  intros HL Hcs. unfold Symbol__init__.
  rewrite (bind_ok _ _ _ (length (objs h)) (built h cls name [])) by done.
  mstep (get_list_ok (built h cls name []) _ _ HL).
  by mstep (init_loop_ok h cls name cs ocs [] Hcs).
Qed.

Lemma Symbol_init_fail h cls name L pre ocs c oc p post :
  heap_wf h →
  lists h !! L = Some (pre ++ c :: post) →
  Forall2 (λ c oc, objs h !! c = Some oc ∧ o_parent oc = None) pre ocs →
  objs h !! c = Some oc → o_parent oc = Some p →
  Symbol__init__ cls name L h
  = (Raise (AssertionError NodeMixin.corrupt), failed h cls name ocs oc).
Proof.
  intros Hwf HL Hpre Hc Hp. unfold Symbol__init__.
  rewrite (bind_ok _ _ _ (length (objs h)) (built h cls name [])) by done.
  mstep (get_list_ok (built h cls name []) _ _ HL).
  by mfail (init_loop_fail h cls name pre ocs c oc p post [] Hwf Hpre Hc Hp).
Qed.

(** *** What the store looks like after construction *)

Definition new_obj (h : heap) (cls : Class) (name : string) (done : list obj)
  : obj :=
  Obj cls name None
      (match done with [] => None | _ :: _ => Some (length (lists h)) end).

Lemma built_objs h cls name done :
  objs (built h cls name done)
  = objs h ++ new_obj h cls name done :: map (copy_into (length (objs h))) done.
Proof. by destruct done. Qed.

Lemma built_lists h cls name done :
  lists (built h cls name done)
  = lists h ++ match done with
               | [] => []
               | _ :: _ => [seq (S (length (objs h))) (length done)]
               end.
Proof. destruct done; simpl; [by rewrite app_nil_r | done]. Qed.

Lemma built_lookup_inv h cls name done x o :
  objs (built h cls name done) !! x = Some o →
  objs h !! x = Some o
  ∨ (x = length (objs h) ∧ o = new_obj h cls name done)
  ∨ (∃ i oc, x = S (length (objs h) + i) ∧ done !! i = Some oc
             ∧ o = copy_into (length (objs h)) oc).
Proof.
  rewrite built_objs. intros [? | [Hge Hx]]%lookup_app_Some; [by left | right].
  destruct (x - length (objs h)) as [| i] eqn:Ei; simpl in Hx.
  - left. split; [lia | congruence].
  - right. rewrite list_lookup_fmap in Hx.
    destruct (done !! i) as [oc |] eqn:Hi; [| done].
    exists i, oc. split; [lia |]. split; [done |]. simpl in Hx. congruence.
Qed.

Lemma built_lookup_new h cls name done :
  objs (built h cls name done) !! length (objs h) = Some (new_obj h cls name done).
Proof. by rewrite built_objs, lookup_app_r, Nat.sub_diag. Qed.

Lemma built_lookup_copy h cls name done i oc :
  done !! i = Some oc →
  objs (built h cls name done) !! S (length (objs h) + i)
  = Some (copy_into (length (objs h)) oc).
Proof.
  intros Hi. rewrite built_objs, lookup_app_r by lia.
  replace (S (length (objs h) + i) - length (objs h)) with (S i) by lia.
  simpl. by rewrite list_lookup_fmap, Hi.
Qed.

Lemma built_lists_inv h cls name done L l :
  lists (built h cls name done) !! L = Some l →
  lists h !! L = Some l
  ∨ (done ≠ [] ∧ L = length (lists h)
     ∧ l = seq (S (length (objs h))) (length done)).
Proof.
  rewrite built_lists. intros [? | [Hge HL]]%lookup_app_Some; [by left | right].
  destruct done as [| d done]; [done |].
  apply list_lookup_singleton_Some in HL as [HL0 <-].
  split; [done |]. split; [lia | done].
Qed.

Lemma built_children_new h cls name done :
  children_of (built h cls name done) (length (objs h))
  = seq (S (length (objs h))) (length done).
Proof.
  unfold children_of. rewrite built_lookup_new.
  unfold children_view. destruct done as [| d done]; [done |].
  cbn [new_obj o_children]. by rewrite built_lists, lookup_app_r, Nat.sub_diag.
Qed.

Lemma built_wf h cls name done :
  heap_wf h → Forall (λ oc, oc ∈ objs h) done →
  heap_wf (built h cls name done).
Proof.
  intros Hwf Hdone. split.
  - intros x o p Hx Hp.
    apply built_lookup_inv in Hx as [Hx | [[_ ->] | (i & oc & -> & Hi & ->)]].
    + destruct (wf_parent _ Hwf _ _ _ Hx Hp) as (op & L & Hop & HL).
      exists op, L. split; [by apply built_lookup_old | done].
    + done.
    + injection Hp as <-. rewrite built_lookup_new.
      destruct done; [done |]. simpl. eauto.
  - intros x o L Hx HL. rewrite built_lists, length_app.
    apply built_lookup_inv in Hx as [Hx | [[_ ->] | (i & oc & -> & Hi & ->)]].
    + pose proof (wf_children _ Hwf _ _ _ Hx HL). lia.
    + destruct done; [done |]. injection HL as <-. simpl. lia.
    + rewrite Forall_forall in Hdone.
      destruct (proj1 (list_elem_of_lookup _ _) (Hdone oc (list_elem_of_lookup_2 _ _ _ Hi)))
        as [c Hc].
      pose proof (wf_children _ Hwf _ _ _ Hc HL). lia.
  - intros L l e HL He. rewrite built_objs_length.
    apply built_lists_inv in HL as [HL | (_ & _ & ->)].
    + pose proof (wf_lists _ Hwf _ _ _ HL He). lia.
    + apply list_elem_of_In, in_seq in He. lia.
Qed.

Lemma failed_wf h cls name done oc :
  heap_wf h → Forall (λ oc, oc ∈ objs h) done → oc ∈ objs h →
  heap_wf (failed h cls name done oc).
Proof.
  intros Hwf Hdone Hoc. pose proof (built_wf h cls name done Hwf Hdone) as HwfB.
  apply list_elem_of_lookup in Hoc as [c Hc].
  apply (built_lookup_old h cls name done) in Hc.
  unfold failed. split; simpl.
  - intros x o p [Hx | [_ Hx]]%lookup_app_Some Hp.
    + destruct (wf_parent _ HwfB _ _ _ Hx Hp) as (op & L & Hop & HL).
      exists op, L. split; [by apply lookup_app_l_Some | done].
    + destruct (x - _); simpl in Hx; [| done]. injection Hx as <-.
      destruct (wf_parent _ HwfB _ _ _ Hc Hp) as (op & L & Hop & HL).
      exists op, L. split; [by apply lookup_app_l_Some | done].
  - intros x o L [Hx | [_ Hx]]%lookup_app_Some HL.
    + by eapply wf_children.
    + destruct (x - _); simpl in Hx; [| done]. injection Hx as <-.
      by eapply wf_children.
  - intros L l e HL He. rewrite length_app.
    pose proof (wf_lists _ HwfB _ _ _ HL He). lia.
Qed.

(** *** Stores that only grow *)

Definition heap_ext (h h' : heap) : Prop :=
  objs h `prefix_of` objs h' ∧ lists h `prefix_of` lists h'.

Lemma heap_ext_refl h : heap_ext h h.
Proof. by split. Qed.

Lemma heap_ext_trans h1 h2 h3 : heap_ext h1 h2 → heap_ext h2 h3 → heap_ext h1 h3.
Proof. intros [??] [??]. split; by etrans. Qed.

Lemma heap_ext_obj h h' x o :
  heap_ext h h' → objs h !! x = Some o → objs h' !! x = Some o.
Proof. intros [[k ->] _] Hx. by apply lookup_app_l_Some. Qed.

Lemma heap_ext_list h h' L l :
  heap_ext h h' → lists h !! L = Some l → lists h' !! L = Some l.
Proof. intros [_ [k ->]] Hx. by apply lookup_app_l_Some. Qed.

Lemma heap_ext_built h cls name done : heap_ext h (built h cls name done).
Proof.
  split; [rewrite built_objs | rewrite built_lists]; by apply prefix_app_r.
Qed.

Lemma heap_ext_failed h cls name done oc : heap_ext h (failed h cls name done oc).
Proof.
  eapply heap_ext_trans; [apply (heap_ext_built h cls name done) |].
  split; simpl; [by apply prefix_app_r | done].
Qed.

Lemma heap_ext_alloc_list h l : heap_ext h (Heap (objs h) (lists h ++ [l])).
Proof. split; simpl; [done | by apply prefix_app_r]. Qed.

Lemma heap_ext_children_view h h' o cs :
  heap_ext h h' → children_view h o = Some cs → children_view h' o = Some cs.
Proof.
  unfold children_view. intros Hext. destruct (o_children o); [| done].
  by apply heap_ext_list.
Qed.

Lemma heap_ext_repr h h' x t : heap_ext h h' → repr h x t → repr h' x t.
Proof.
  intros Hext. revert x.
  induction t as [a c n ts IH] using tree_rect'.
  intros x Hr. inversion Hr as [x' o cs ts' Hx Hv Hcs]; subst.
  econstructor; [by eapply heap_ext_obj | by eapply heap_ext_children_view |].
  clear Hv Hr. induction Hcs as [| c t cs ts Hct Hcs IHcs]; constructor.
  - by apply (Forall_inv IH).
  - apply IHcs, (Forall_inv_tail IH).
Qed.

Lemma heap_ext_children_of h h' x :
  heap_ext h h' → heap_wf h → x < length (objs h) →
  children_of h' x = children_of h x.
Proof.
  intros Hext Hwf Hx. unfold children_of.
  destruct (lookup_lt_is_Some_2 _ _ Hx) as [o Ho].
  rewrite Ho, (heap_ext_obj _ _ _ _ Hext Ho). unfold children_view.
  destruct (o_children o) as [L |] eqn:HL; [| done].
  destruct (lookup_lt_is_Some_2 _ _ (wf_children _ Hwf _ _ _ Ho HL)) as [l Hl].
  by rewrite Hl, (heap_ext_list _ _ _ _ Hext Hl).
Qed.

(** The tree of a shallow copy placed at [a]: the same class, name and
    subtrees (the very same nodes) under a new root. *)
Definition recopy (a : addr) (t : tree) : tree :=
  match t with Node _ c n ts => Node a c n ts end.

Lemma shape_of_recopy a t : shape_of (recopy a t) = shape_of t.
Proof. by destruct t. Qed.

Lemma repr_recopy h x t a ox oa :
  repr h x t → objs h !! x = Some ox → objs h !! a = Some oa →
  o_class oa = o_class ox → o_name oa = o_name ox →
  o_children oa = o_children ox →
  repr h a (recopy a t).
Proof.
  intros Hr Hx Ha Hc Hn Hch.
  inversion Hr as [x' o cs ts Hx' Hv Hcs]; subst.
  assert (o = ox) by congruence. subst o. simpl.
  rewrite <- Hc, <- Hn. econstructor; [done | | done].
  unfold children_view in *. by rewrite Hch.
Qed.

(** The tree of a freshly constructed node: the copies of its children, in
    order, each a re-rooted tree of the child it was copied from. *)
Definition new_tree (self : addr) (cls : Class) (name : string)
    (ts : list tree) : tree :=
  Node self cls name (imap (λ i t, recopy (S (self + i)) t) ts).

Lemma built_repr_new h cls name cs ocs ts :
  Forall2 (λ c oc, objs h !! c = Some oc) cs ocs →
  Forall2 (repr h) cs ts →
  repr (built h cls name ocs) (length (objs h))
       (new_tree (length (objs h)) cls name ts).
Proof.
  intros Hocs Hts.
  pose proof (heap_ext_built h cls name ocs) as Hext.
  unfold new_tree.
  change cls with (o_class (new_obj h cls name ocs)) at 2.
  change name with (o_name (new_obj h cls name ocs)) at 2.
  econstructor; [apply built_lookup_new | |].
  { instantiate (1 := seq (S (length (objs h))) (length ocs)).
    unfold children_view. destruct ocs as [| d ocs]; [done |].
    cbn [new_obj o_children]. by rewrite built_lists, lookup_app_r, Nat.sub_diag. }
  pose proof (Forall2_length _ _ _ Hocs) as Hlen1.
  pose proof (Forall2_length _ _ _ Hts) as Hlen2.
  apply Forall2_same_length_lookup_2.
  { rewrite length_seq, length_imap. lia. }
  intros i a t' Ha Ht'.
  apply lookup_seq in Ha as [-> Hi].
  rewrite list_lookup_imap in Ht'.
  destruct (ts !! i) as [t |] eqn:Hti; [| done]. injection Ht' as <-.
  destruct (lookup_lt_is_Some_2 ocs i Hi) as [oc Hoci].
  destruct (lookup_lt_is_Some_2 cs i ltac:(lia)) as [c Hci].
  pose proof (Forall2_lookup_lr _ _ _ _ _ _ Hocs Hci Hoci) as Hc.
  pose proof (Forall2_lookup_lr _ _ _ _ _ _ Hts Hci Hti) as Hr.
  eapply (repr_recopy _ c t _ oc).
  - by eapply heap_ext_repr.
  - by eapply heap_ext_obj.
  - simpl. by apply built_lookup_copy.
  - done.
  - done.
  - done.
Qed.

Lemma lazy_ext_wf h h' : lazy_ext h h' → heap_wf h → heap_wf h'.
Proof.
  intros Hle Hwf.
  assert (Hback : ∀ x o', objs h' !! x = Some o' → ∃ o, objs h !! x = Some o).
  { intros x o' Hx. apply lookup_lt_is_Some_2.
    rewrite <- (le_len _ _ Hle). by eapply lookup_lt_Some. }
  split.
  - intros x o' p Hx' Hp.
    destruct (Hback _ _ Hx') as [o Hx].
    destruct (le_obj _ _ Hle _ _ Hx) as (o2 & Hx2 & _ & _ & Hp2 & _).
    assert (o2 = o') by congruence. subst o2.
    destruct (wf_parent _ Hwf x o p Hx ltac:(congruence)) as (op & L & Hop & HL).
    destruct (le_obj _ _ Hle _ _ Hop) as (op' & Hop' & _ & _ & _ & Hch).
    exists op'. destruct Hch as [Hch | [Hnone _]]; [| congruence].
    exists L. split; [done | congruence].
  - intros x o' L Hx' HL.
    destruct (Hback _ _ Hx') as [o Hx].
    destruct (le_obj _ _ Hle _ _ Hx) as (o2 & Hx2 & _ & _ & _ & Hch).
    assert (o2 = o') by congruence. subst o2.
    destruct Hch as [Hch | (_ & L' & HL' & _ & Hnil)].
    + pose proof (wf_children _ Hwf x o L Hx ltac:(congruence)).
      pose proof (lazy_ext_lists_len _ _ Hle). lia.
    + assert (L' = L) by congruence. subst L'. by eapply lookup_lt_Some.
  - intros L l e HL He. rewrite (le_len _ _ Hle).
    destruct (le_lists _ _ Hle) as [k Hk]. rewrite Hk in HL.
    apply lookup_app_Some in HL as [HL | [_ HL]].
    + by eapply wf_lists.
    + apply lookup_replicate in HL as [-> _]. by apply not_elem_of_nil in He.
Qed.

(** ** The tree of a node, computed *)

Fixpoint tree_of (fuel : nat) (h : heap) (x : addr) : option tree :=
  match fuel with
  | 0 => None
  | S fuel' =>
      o ← objs h !! x;
      cs ← children_view h o;
      ts ← mapM (tree_of fuel' h) cs;
      Some (Node x (o_class o) (o_name o) ts)
  end.

Lemma tree_of_sound fuel : ∀ h x t, tree_of fuel h x = Some t → repr h x t.
Proof.
  induction fuel as [| fuel IH]; intros h x t Ht; [done |].
  cbn [tree_of] in Ht.
  destruct (objs h !! x) as [o |] eqn:Hx; [| done]. cbn in Ht.
  destruct (children_view h o) as [cs |] eqn:Hv; [| done]. cbn in Ht.
  destruct (mapM (tree_of fuel h) cs) as [ts |] eqn:Hts; [| done].
  injection Ht as <-. econstructor; [done | done |].
  apply mapM_Some in Hts. eapply Forall2_impl; [done |]. intros c t. apply IH.
Qed.

(** *** The two outcomes, for any list of children *)

Definition unattached (h : heap) (c : addr) (oc : obj) : Prop :=
  objs h !! c = Some oc ∧ o_parent oc = None.

Lemma scan_children h cs :
  Forall (λ c, c < length (objs h)) cs →
  (∃ ocs, Forall2 (unattached h) cs ocs)
  ∨ (∃ pre ocs c oc p post,
       cs = pre ++ c :: post ∧ Forall2 (unattached h) pre ocs ∧
       objs h !! c = Some oc ∧ o_parent oc = Some p).
Proof.
  induction 1 as [| c cs Hc _ IH].
  - left. exists []. constructor.
  - destruct (lookup_lt_is_Some_2 _ _ Hc) as [oc Hoc].
    destruct (o_parent oc) as [p |] eqn:Hp.
    + right. exists [], [], c, oc, p, cs. repeat split; [constructor | done | done].
    + destruct IH as [[ocs Hocs] | (pre & ocs & c1 & oc1 & p & post & -> & Hpre & Hc1 & Hp1)].
      * left. exists (oc :: ocs). by constructor.
      * right. exists (c :: pre), (oc :: ocs), c1, oc1, p, post.
        repeat split; [by constructor | done | done].
Qed.

Lemma unattached_objs h cs ocs :
  Forall2 (unattached h) cs ocs → Forall (λ oc, oc ∈ objs h) ocs.
Proof.
  induction 1 as [| c oc cs ocs [Hc _] _ IH]; constructor; [| done].
  by eapply list_elem_of_lookup_2.
Qed.

Lemma unattached_lookup h cs ocs :
  Forall2 (unattached h) cs ocs → Forall2 (λ c oc, objs h !! c = Some oc) cs ocs.
Proof. intros H. eapply Forall2_impl; [done |]. by intros c oc [? _]. Qed.

Inductive init_outcome (h : heap) (cls : Class) (name : string)
    (cs : list addr) : res addr → heap → Prop :=
| init_built ocs :
    Forall2 (unattached h) cs ocs →
    init_outcome h cls name cs (Ok (length (objs h))) (built h cls name ocs)
| init_failed pre ocs c oc p post :
    cs = pre ++ c :: post →
    Forall2 (unattached h) pre ocs →
    objs h !! c = Some oc → o_parent oc = Some p →
    init_outcome h cls name cs (Raise (AssertionError NodeMixin.corrupt))
                 (failed h cls name ocs oc).

Lemma Symbol_init_outcome h cls name L cs :
  heap_wf h → lists h !! L = Some cs →
  init_outcome h cls name cs (Symbol__init__ cls name L h).1 (Symbol__init__ cls name L h).2.
Proof.
  intros Hwf HL.
  assert (Forall (λ c, c < length (objs h)) cs) as Hvalid.
  { apply Forall_forall. intros c Hc. by eapply wf_lists. }
  destruct (scan_children h cs Hvalid)
    as [[ocs Hocs] | (pre & ocs & c & oc & p & post & -> & Hpre & Hc & Hp)].
  - rewrite (Symbol_init_ok h cls name L cs ocs HL Hocs). by constructor.
  - rewrite (Symbol_init_fail h cls name L pre ocs c oc p post Hwf HL Hpre Hc Hp).
    by econstructor.
Qed.

Lemma init_outcome_ext h cls name cs r h' :
  init_outcome h cls name cs r h' → heap_ext h h'.
Proof. destruct 1; [apply heap_ext_built | apply heap_ext_failed]. Qed.

Lemma init_outcome_wf h cls name cs r h' :
  heap_wf h → init_outcome h cls name cs r h' → heap_wf h'.
Proof.
  intros Hwf [ocs Hocs | pre ocs c oc p post _ Hpre Hc Hp].
  - apply built_wf; [done | by eapply unattached_objs].
  - apply failed_wf; [done | by eapply unattached_objs |].
    by eapply list_elem_of_lookup_2.
Qed.

Lemma alloc_list_wf h l :
  heap_wf h → Forall (λ c, c < length (objs h)) l →
  heap_wf (Heap (objs h) (lists h ++ [l])).
Proof.
  intros Hwf Hl. split; simpl.
  - apply (wf_parent _ Hwf).
  - intros x o L Hx HL. rewrite length_app.
    pose proof (wf_children _ Hwf _ _ _ Hx HL). lia.
  - intros L l' e [HL | [_ HL]]%lookup_app_Some He.
    + by eapply wf_lists.
    + apply list_lookup_singleton_Some in HL as [_ <-].
      rewrite Forall_forall in Hl. by apply Hl.
Qed.

Lemma BinaryOperator_unfold {anytree : Anytree} cls name l r h :
  BinaryOperator cls name l r h
  = Symbol__init__ cls name (length (lists h)) (Heap (objs h) (lists h ++ [[l; r]])).
Proof. done. Qed.

Lemma BinaryOperator_outcome h cls name l r :
  heap_wf h → l < length (objs h) → r < length (objs h) →
  init_outcome (Heap (objs h) (lists h ++ [[l; r]])) cls name [l; r]
    (BinaryOperator cls name l r h).1 (BinaryOperator cls name l r h).2.
Proof.
  intros Hwf Hl Hr. rewrite BinaryOperator_unfold.
  apply Symbol_init_outcome.
  - apply alloc_list_wf; [done |]. by repeat constructor.
  - simpl. by rewrite lookup_app_r, Nat.sub_diag.
Qed.

(** ** Finite trees everywhere *)

Definition all_repr (h : heap) : Prop :=
  ∀ x, x < length (objs h) → ∃ t, repr h x t.

Lemma all_repr_list h cs :
  all_repr h → Forall (λ c, c < length (objs h)) cs →
  ∃ ts, Forall2 (repr h) cs ts.
Proof.
  intros Hall. induction 1 as [| c cs Hc _ [ts IH]].
  - exists []. constructor.
  - destruct (Hall c Hc) as [t Ht]. exists (t :: ts). by constructor.
Qed.

Lemma built_all_repr h cls name cs ocs :
  all_repr h → Forall2 (λ c oc, objs h !! c = Some oc) cs ocs →
  all_repr (built h cls name ocs).
Proof.
  intros Hall Hocs x Hx.
  pose proof (heap_ext_built h cls name ocs) as Hext.
  destruct (lookup_lt_is_Some_2 _ _ Hx) as [o Ho].
  apply built_lookup_inv in Ho as [Ho | [[-> _] | (i & oc & -> & Hi & _)]].
  - destruct (Hall x (lookup_lt_Some _ _ _ Ho)) as [t Ht].
    exists t. by eapply heap_ext_repr.
  - destruct (all_repr_list h cs Hall) as [ts Hts].
    { apply Forall_forall. intros c Hc.
      apply list_elem_of_lookup in Hc as [j Hj].
      destruct (Forall2_lookup_l _ _ _ _ _ Hocs Hj) as (oc & _ & Hc).
      by eapply lookup_lt_Some. }
    eexists. by eapply built_repr_new.
  - destruct (Forall2_lookup_r _ _ _ _ _ Hocs Hi) as (c & _ & Hc).
    destruct (Hall c (lookup_lt_Some _ _ _ Hc)) as [t Ht].
    exists (recopy (S (length (objs h) + i)) t).
    eapply (repr_recopy _ c t _ oc (copy_into (length (objs h)) oc)); try done.
    + by eapply heap_ext_repr.
    + by eapply heap_ext_obj.
    + by apply built_lookup_copy.
Qed.

Lemma failed_all_repr h cls name cs ocs c oc :
  all_repr h → Forall2 (λ c oc, objs h !! c = Some oc) cs ocs →
  objs h !! c = Some oc →
  all_repr (failed h cls name ocs oc).
Proof.
  intros Hall Hocs Hc x Hx.
  pose proof (built_all_repr h cls name cs ocs Hall Hocs) as HallB.
  assert (heap_ext (built h cls name ocs) (failed h cls name ocs oc)) as Hext.
  { split; simpl; [by apply prefix_app_r | done]. }
  unfold failed in Hx. simpl in Hx. rewrite length_app in Hx. simpl in Hx.
  destruct (decide (x < length (objs (built h cls name ocs)))) as [Hlt | Hge].
  - destruct (HallB x Hlt) as [t Ht]. exists t. by eapply heap_ext_repr.
  - assert (x = length (objs (built h cls name ocs))) as -> by lia.
    apply (built_lookup_old h cls name ocs) in Hc.
    destruct (HallB c (lookup_lt_Some _ _ _ Hc)) as [t Ht].
    exists (recopy (length (objs (built h cls name ocs))) t).
    eapply (repr_recopy _ c t _ oc oc); try done.
    + by eapply heap_ext_repr.
    + by eapply heap_ext_obj.
    + unfold failed. simpl. by rewrite lookup_app_r, Nat.sub_diag.
Qed.

Lemma init_outcome_all_repr h cls name cs r h' :
  all_repr h → init_outcome h cls name cs r h' → all_repr h'.
Proof.
  intros Hall [ocs Hocs | pre ocs c oc p post _ Hpre Hc Hp].
  - eapply built_all_repr; [done | by apply unattached_lookup].
  - eapply failed_all_repr; [done | by apply unattached_lookup | done].
Qed.

Lemma lazy_ext_all_repr h h' : lazy_ext h h' → all_repr h → all_repr h'.
Proof.
  intros Hle Hall x Hx. rewrite (le_len _ _ Hle) in Hx.
  destruct (Hall x Hx) as [t Ht]. exists t. by eapply lazy_ext_repr.
Qed.

Lemma heap_ext_all_repr_lists h l :
  all_repr h → all_repr (Heap (objs h) (lists h ++ [l])).
Proof.
  intros Hall x Hx. destruct (Hall x Hx) as [t Ht]. exists t.
  eapply heap_ext_repr; [apply heap_ext_alloc_list | done].
Qed.

(** ** Client programs *)

Inductive binop := OpAdd | OpSub | OpMul | OpDiv.

(** The calls a client of the module can make.  A client can only name
    objects and lists that exist. *)
Inductive call :=
| New (cls : Class) (name : string) (children : option lref)
| MkList (l : list addr)
| Arith (op : binop) (self : addr) (other : value)
| GetChildren (x : addr)
| GetId (fuel : nat) (x : addr)
| PreOrder (fuel : nat) (x : addr).

Definition value_ok (h : heap) (v : value) : bool :=
  match v with
  | VSym b => bool_decide (b < length (objs h))
  | _ => true
  end.

Section Calls.

Variable py_hash : Class → string → list Z → Z.
Context {anytree : Anytree}.

Definition arith (op : binop) : addr → value → M addr :=
  match op with
  | OpAdd => Symbol__add__
  | OpSub => Symbol__sub__
  | OpMul => Symbol__mul__
  | OpDiv => Symbol__truediv__
  end.

Definition exec (c : call) (h : heap) : heap :=
  match c with
  | New cls name None => (Symbol__init__ cls name default_children h).2
  | New cls name (Some L) =>
      if bool_decide (L < length (lists h))
      then (Symbol__init__ cls name L h).2 else h
  | MkList l =>
      if forallb (λ c, bool_decide (c < length (objs h))) l
      then (alloc_list l h).2 else h
  | Arith op a v =>
      if bool_decide (a < length (objs h)) && value_ok h v
      then (arith op a v h).2 else h
  | GetChildren x => (NodeMixin.children x h).2
  | GetId fuel x => (Symbol_id py_hash fuel x h).2
  | PreOrder fuel x => (Symbol_pre_order fuel x h).2
  end.

Definition exec_all (cs : list call) (h : heap) : heap :=
  foldl (λ h c, exec c h) h cs.

(** The stores a Python process can be in: those a sequence of calls
    produces from the initial one. *)
Definition reachable (h : heap) : Prop := ∃ cs, h = exec_all cs heap0.

End Calls.

Definition op_class (op : binop) : Class :=
  match op with
  | OpAdd => CAddition | OpSub => CSubtraction
  | OpMul => CMultiplication | OpDiv => CDivision
  end.

Definition op_name (op : binop) : string :=
  match op with
  | OpAdd => "+" | OpSub => "-" | OpMul => "*" | OpDiv => "/"
  end.

Lemma arith_sym {anytree : Anytree} op a b h :
  arith op a (VSym b) h = BinaryOperator (op_class op) (op_name op) a b h.
Proof. by destruct op. Qed.

Lemma arith_other {anytree : Anytree} op a v h :
  (∀ b, v ≠ VSym b) → arith op a v h = (Raise (NotImplementedError ""), h).
Proof. intros Hv. destruct op, v; try done; by destruct (Hv a0). Qed.

(** The invariant of reachable stores. *)
Record heap_ok (h : heap) : Prop := {
  ok_wf : heap_wf h;
  ok_default : lists h !! default_children = Some [];
  ok_repr : all_repr h
}.

Lemma heap0_ok : heap_ok heap0.
Proof.
  split; [apply heap0_wf | done |]. intros x Hx. simpl in Hx. lia.
Qed.

Lemma init_outcome_ok h cls name cs r h' :
  heap_ok h → init_outcome h cls name cs r h' → heap_ok h'.
Proof.
  intros [Hwf Hdef Hall] Hout. split.
  - by eapply init_outcome_wf.
  - eapply heap_ext_list; [by eapply init_outcome_ext | done].
  - by eapply init_outcome_all_repr.
Qed.

Lemma alloc_list_ok h l :
  heap_ok h → Forall (λ c, c < length (objs h)) l →
  heap_ok (Heap (objs h) (lists h ++ [l])).
Proof.
  intros [Hwf Hdef Hall] Hl. split.
  - by apply alloc_list_wf.
  - simpl. by apply lookup_app_l_Some.
  - by apply heap_ext_all_repr_lists.
Qed.

Lemma lazy_ext_ok h h' : lazy_ext h h' → heap_ok h → heap_ok h'.
Proof.
  intros Hle [Hwf Hdef Hall]. split.
  - by eapply lazy_ext_wf.
  - by eapply lazy_ext_lookup_list.
  - by eapply lazy_ext_all_repr.
Qed.

Lemma reads_snd {A} (m : M A) h : reads m → lazy_ext h (m h).2.
Proof. intros Hm. destruct (m h) as [r h'] eqn:E. by eapply Hm. Qed.

(** How a call changes the store: it grows it, or it only creates missing
    [children] attributes. *)
Lemma exec_step py_hash c h :
  heap_ok h →
  heap_ok (exec py_hash c h) ∧
  (heap_ext h (exec py_hash c h) ∨ lazy_ext h (exec py_hash c h)).
Proof.
  intros Hok. pose proof (ok_wf _ Hok) as Hwf.
  destruct c as [cls name [L |] | l | op a v | x | fuel x | fuel x]; simpl.
  - case_bool_decide as HL; [| split; [done | left; apply heap_ext_refl]].
    destruct (lookup_lt_is_Some_2 _ _ HL) as [cs Hcs].
    pose proof (Symbol_init_outcome h cls name L cs Hwf Hcs) as Hout.
    split; [by eapply init_outcome_ok | left; by eapply init_outcome_ext].
  - pose proof (Symbol_init_outcome h cls name _ [] Hwf (ok_default _ Hok)) as Hout.
    split; [by eapply init_outcome_ok | left; by eapply init_outcome_ext].
  - destruct (forallb _ l) eqn:Hl; [| split; [done | left; apply heap_ext_refl]].
    simpl. split; [| left; apply heap_ext_alloc_list].
    apply alloc_list_ok; [done |]. apply Forall_forall. intros c Hc.
    rewrite forallb_forall in Hl.
    specialize (Hl c (proj1 (list_elem_of_In _ _) Hc)).
    by apply bool_decide_eq_true in Hl.
  - destruct (bool_decide (a < length (objs h)) && value_ok h v) eqn:Hg;
      [| split; [done | left; apply heap_ext_refl]].
    apply andb_true_iff in Hg as [Ha Hv]. apply bool_decide_eq_true in Ha.
    destruct v as [b | n | s |];
      try (rewrite arith_other by done; split; [done | left; apply heap_ext_refl]).
    simpl in Hv. apply bool_decide_eq_true in Hv. rewrite arith_sym.
    pose proof (BinaryOperator_outcome h (op_class op) (op_name op) a b Hwf Ha Hv) as Hout.
    assert (heap_ok (Heap (objs h) (lists h ++ [[a; b]]))) as Hok1.
    { apply alloc_list_ok; [done | by repeat constructor]. }
    split; [by eapply init_outcome_ok |]. left.
    eapply heap_ext_trans; [apply (heap_ext_alloc_list h [a; b]) |].
    by eapply init_outcome_ext.
  - pose proof (reads_snd _ h (reads_children x)) as Hle.
    split; [by eapply lazy_ext_ok | by right].
  - pose proof (reads_snd _ h (reads_Symbol_id py_hash fuel x)) as Hle.
    split; [by eapply lazy_ext_ok | by right].
  - pose proof (reads_snd _ h (reads_PreOrderIter_iter fuel [x])) as Hle.
    split; [by eapply lazy_ext_ok | by right].
Qed.

Lemma exec_ok py_hash c h : heap_ok h → heap_ok (exec py_hash c h).
Proof. intros Hok. by apply exec_step. Qed.

Lemma exec_list_kept py_hash c h L l :
  heap_ok h → lists h !! L = Some l → lists (exec py_hash c h) !! L = Some l.
Proof.
  intros Hok HL. destruct (exec_step py_hash c h Hok) as [_ [Hext | Hle]].
  - by eapply heap_ext_list.
  - by eapply lazy_ext_lookup_list.
Qed.

Lemma exec_all_ok py_hash cs : ∀ h, heap_ok h → heap_ok (exec_all py_hash cs h).
Proof.
  induction cs as [| c cs IH]; intros h Hok; [done |].
  simpl. by apply IH, exec_ok.
Qed.

Lemma exec_all_list_kept py_hash cs : ∀ h L l,
  heap_ok h → lists h !! L = Some l → lists (exec_all py_hash cs h) !! L = Some l.
Proof.
  induction cs as [| c cs IH]; intros h L l Hok HL; [done |].
  simpl. apply IH; [by apply exec_ok | by apply exec_list_kept].
Qed.

Lemma reachable_ok py_hash h : reachable py_hash h → heap_ok h.
Proof. intros [cs ->]. apply exec_all_ok, heap0_ok. Qed.

(** In a reachable store every node is the root of a finite tree. *)
Lemma reachable_has_tree py_hash h x :
  reachable py_hash h → x < length (objs h) → ∃ t, repr h x t.
Proof. intros Hr. apply (ok_repr _ (reachable_ok _ _ Hr)). Qed.

(** ** CPython's [hash] on tuples and integers *)

(** The hash that [Symbol.id] calls is the interpreter's.  On a 64-bit
    CPython (3.8 and later) the hash of a tuple folds the hashes of its
    items, and the hash of an integer is its residue modulo [2^61 - 1]; the
    hashes of a class object and of a string depend on the process (object
    address, hash seed) and are parameters [h_cls] and [h_str]. *)
Module CPython.

Local Open Scope Z_scope.

Definition wrap (x : Z) : Z := x mod 2 ^ 64.

Definition XXPRIME_1 : Z := 11400714785074694791.
Definition XXPRIME_2 : Z := 14029467366897019727.
Definition XXPRIME_5 : Z := 2870177450012600261.

Definition XXROTATE (x : Z) : Z :=
  Z.lor (wrap (Z.shiftl x 31)) (Z.shiftr x 33).

Definition lane_step (acc lane : Z) : Z :=
  wrap (XXROTATE (wrap (acc + wrap lane * XXPRIME_2)) * XXPRIME_1).

Definition to_signed (x : Z) : Z :=
  if x <? 2 ^ 63 then x else x - 2 ^ 64.

Definition tuplehash (lanes : list Z) : Z :=
  let acc := fold_left lane_step lanes XXPRIME_5 in
  let acc := wrap (acc + Z.lxor (Z.of_nat (length lanes))
                                (Z.lxor XXPRIME_5 3527539)) in
  if acc =? 2 ^ 64 - 1 then 1546275796 else to_signed acc.

Definition modulus : Z := 2 ^ 61 - 1.

Definition int_hash (n : Z) : Z :=
  let r := Z.sgn n * (Z.abs n mod modulus) in
  if r =? -1 then -2 else r.

Definition hash (h_cls : Class → Z) (h_str : string → Z)
    (c : Class) (n : string) (ids : list Z) : Z :=
  tuplehash (h_cls c :: h_str n :: map int_hash ids).

(** Values the interpreter prints for [hash((1, 2, 3))],
    [hash((2**61 - 1, -1))] and [hash(())]. *)
Example tuplehash_123 :
  tuplehash (map int_hash [1; 2; 3]) = 529344067295497451.
Proof. reflexivity. Qed.

Example tuplehash_modulus :
  tuplehash (map int_hash [2 ^ 61 - 1; -1]) = 8374038142897728572.
Proof. reflexivity. Qed.

Example tuplehash_empty : tuplehash [] = 5740354900026072187.
Proof. reflexivity. Qed.

(** A process: the hash of every class object and of every string.  The
    strings ["a"] and ["b"] hash to the two values below; any other string
    to a polynomial in its bytes. *)
Definition h_cls (c : Class) : Z :=
  match c with
  | CSymbol => 5897200484138
  | CAddition => 5897200484201
  | CSubtraction => 5897200484264
  | CMultiplication => 5897200484327
  | CDivision => 5897200484390
  end.

Fixpoint poly (s : string) (acc : Z) : Z :=
  match s with
  | EmptyString => acc
  | String c s' => poly s' (to_signed (wrap (acc * 1000003 + Z.of_nat (Ascii.nat_of_ascii c))))
  end.

Definition h_str (s : string) : Z :=
  if String.eqb s "a" then -7117929294594964919
  else if String.eqb s "b" then -6589615624988691151
  else poly s 0.

Definition process_hash : Class → string → list Z → Z := hash h_cls h_str.

End CPython.

(** ** Example stores *)

(** [a = Symbol("a"); b = Symbol("b"); c = Symbol("c")]: nodes 0, 1, 2. *)
Definition heap_abc : heap :=
  exec_all CPython.process_hash
    [New CSymbol "a" None; New CSymbol "b" None; New CSymbol "c" None] heap0.

(** [s = a + b]: node 3, with the copies of [a] and [b] at 4 and 5. *)
Definition heap_sum : heap :=
  exec CPython.process_hash (Arith OpAdd 0 (VSym 1)) heap_abc.

(** [m = s * c]: node 6, with the copies of [s] and [c] at 7 and 8. *)
Definition heap_prod : heap :=
  exec CPython.process_hash (Arith OpMul 3 (VSym 2)) heap_sum.

Definition tree_prod : tree :=
  Node 6 CMultiplication "*"
    [Node 7 CAddition "+" [Node 4 CSymbol "a" []; Node 5 CSymbol "b" []];
     Node 8 CSymbol "c" []].

Lemma heap_prod_repr : repr heap_prod 6 tree_prod.
Proof. by apply (tree_of_sound 3). Qed.

(** ** Structural identity *)

Definition class_of (t : tree) : Class := match t with Node _ c _ _ => c end.
Definition name_of (t : tree) : string := match t with Node _ _ n _ => n end.

Fixpoint shape_height (s : shape) : nat :=
  match s with
  | Shape _ _ ss => S (list_max (map shape_height ss))
  end.

Lemma height_shape t : height t = shape_height (shape_of t).
Proof.
  induction t as [a c n ts IH] using tree_rect'. simpl. do 2 f_equal.
  rewrite map_map. apply map_ext_Forall, IH.
Qed.

Lemma repr_children_of h x t :
  repr h x t → Forall2 (repr h) (children_of h x) (subtrees t).
Proof.
  inversion 1 as [x' o cs ts Hx Hv Hcs]; subst. simpl.
  unfold children_of. by rewrite Hx, Hv.
Qed.

(** C1.  The id of a node is the hash of its class, its name and the ids of
    its children in stored order (each child's id being what [id] returns on
    that child); hence two nodes that are roots of trees of the same shape,
    whichever objects they are made of, have the same id. *)
Theorem Symbol_id_fingerprint py_hash h x o t fuel :
  objs h !! x = Some o → repr h x t → height t ≤ fuel →
  (∃ ids h1,
     Symbol_id py_hash fuel x h = (Ok (py_hash (o_class o) (o_name o) ids), h1) ∧
     Forall2 (λ c i, ∃ h2, Symbol_id py_hash fuel c h1 = (Ok i, h2))
             (children_of h x) ids)
  ∧ (∀ y t', repr h y t' → shape_of t' = shape_of t →
       ∃ v h1 h2, Symbol_id py_hash fuel x h = (Ok v, h1) ∧
                  Symbol_id py_hash fuel y h1 = (Ok v, h2)).
Proof.
  intros Hx Hr Hfuel.
  destruct (Symbol_id_ok py_hash fuel h x t Hr Hfuel) as (h1 & Hid & Hle).
  split.
  - exists (map (fingerprint py_hash) (subtrees t)), h1. split.
    + rewrite Hid. inversion Hr; subst. simpl. repeat f_equal; congruence.
    + pose proof (repr_children_of h x t Hr) as Hcs.
      assert (Forall (λ tc, height tc ≤ fuel) (subtrees t)) as Hts.
      { apply Forall_forall. intros tc Hin.
        destruct t as [a c0 n ts]. simpl in *.
        apply height_le_list_max in Hin. lia. }
      apply Forall2_fmap_r.
      induction Hcs as [| c tc cs ts Hc _ IH]; constructor.
      * destruct (Symbol_id_ok py_hash fuel h1 c tc) as (h2 & Hidc & _);
          [by eapply lazy_ext_repr | by apply (Forall_inv Hts) | eauto].
      * apply IH, (Forall_inv_tail Hts).
  - intros y t' Hr' Hshape. exists (fingerprint py_hash t), h1.
    destruct (Symbol_id_ok py_hash fuel h1 y t') as (h2 & Hidy & _).
    + by eapply lazy_ext_repr.
    + by rewrite height_shape, Hshape, <- height_shape.
    + exists h2. split; [done |].
      by rewrite Hidy, !fingerprint_shape, Hshape.
Qed.

Lemma Symbol_id_fingerprint_witness :
  (∃ ids h1,
     Symbol_id CPython.process_hash 3 6 heap_prod
     = (Ok (CPython.process_hash CMultiplication "*" ids), h1) ∧
     Forall2 (λ c i, ∃ h2, Symbol_id CPython.process_hash 3 c h1 = (Ok i, h2))
             (children_of heap_prod 6) ids)
  ∧ (∀ y t', repr heap_prod y t' → shape_of t' = shape_of tree_prod →
       ∃ v h1 h2, Symbol_id CPython.process_hash 3 6 heap_prod = (Ok v, h1) ∧
                  Symbol_id CPython.process_hash 3 y h1 = (Ok v, h2)).
Proof.
  apply (Symbol_id_fingerprint CPython.process_hash heap_prod 6
           (Obj CMultiplication "*" None (Some 4)) tree_prod 3).
  - reflexivity.
  - apply (tree_of_sound 3). reflexivity.
  - vm_compute. lia.
Defined.

(** ** Traversal *)

(** C8.  Two successive calls of [pre_order] on the same tree both run to the
    end and yield the same nodes in the same order (the pre-order listing of
    the tree); the first call leaves behind nothing the second depends on. *)
Theorem pre_order_restartable h x t fuel :
  repr h x t → height t < fuel →
  ∃ h1 h2,
    Symbol_pre_order fuel x h = (Ok (preorder t), h1) ∧
    Symbol_pre_order fuel x h1 = (Ok (preorder t), h2).
Proof.
  intros Hr Hfuel.
  destruct (Symbol_pre_order_ok fuel h x t Hr Hfuel) as (h1 & Hrun1 & Hle1).
  destruct (Symbol_pre_order_ok fuel h1 x t) as (h2 & Hrun2 & _);
    [by eapply lazy_ext_repr | done |].
  by exists h1, h2.
Qed.

Lemma pre_order_restartable_witness :
  ∃ h1 h2,
    Symbol_pre_order 4 6 heap_prod = (Ok [6; 7; 4; 5; 8], h1) ∧
    Symbol_pre_order 4 6 h1 = (Ok [6; 7; 4; 5; 8], h2).
Proof.
  apply (pre_order_restartable heap_prod 6 tree_prod 4).
  - apply (tree_of_sound 3). reflexivity.
  - vm_compute. lia.
Defined.

(** ** Evaluation *)

Lemma append_assoc (s1 s2 s3 : string) : (s1 +:+ s2) +:+ s3 = s1 +:+ (s2 +:+ s3).
Proof.
  induction s1 as [| c s1 IH]; [done |].
  change (String c ((s1 +:+ s2) +:+ s3) = String c (s1 +:+ s2 +:+ s3)).
  by f_equal.
Qed.

(** C5.  The base [evaluate], whatever [t] and [y] are (given or omitted),
    raises [NotImplementedError] straight away, changes nothing, and its
    message contains the name of the node and the identifier of its class. *)
Theorem Symbol_evaluate_not_implemented {T Y R : Type} (type_str : Class → string)
    h self o (t : option T) (y : option Y) :
  objs h !! self = Some o →
  ∃ msg pre mid,
    Symbol_evaluate (R := R) type_str self t y h
    = (Raise (NotImplementedError msg), h) ∧
    msg = pre +:+ o_name o +:+ mid +:+ type_str (o_class o).
Proof.
  intros Hself. unfold Symbol_evaluate, Symbol__str__.
  mstep (Symbol_name_ok _ _ _ Hself). mstep (Symbol_class_ok _ _ _ Hself).
  exists (evaluate_msg (o_name o) (type_str (o_class o))),
    ("method self.evaluate() not implemented" +:+ newline +:+
     "               for symbol "), " of type ".
  split; [reflexivity |].
  unfold evaluate_msg. by rewrite !append_assoc.
Qed.

(** [str(type(self))] in a process; the module of the operator classes is
    not part of these sources, their short names stand in for it. *)
Definition type_str (c : Class) : string :=
  match c with
  | CSymbol => "<class 'pybamm.expression_tree.symbol.Symbol'>"
  | CAddition => "<class 'Addition'>"
  | CSubtraction => "<class 'Subtraction'>"
  | CMultiplication => "<class 'Multiplication'>"
  | CDivision => "<class 'Division'>"
  end.

Lemma Symbol_evaluate_not_implemented_witness :
  ∃ msg pre mid,
    Symbol_evaluate (R := Z) type_str 0 (@None Z) (@None (list Z)) heap_abc
    = (Raise (NotImplementedError msg), heap_abc) ∧
    msg = pre +:+ "a" +:+ mid +:+ "<class 'pybamm.expression_tree.symbol.Symbol'>".
Proof.
  apply (Symbol_evaluate_not_implemented (R := Z) type_str heap_abc 0
           (Obj CSymbol "a" None None) (@None Z) (@None (list Z))).
  reflexivity.
Defined.

(** ** Arithmetic constructors *)

Lemma Symbol_id_same_shape py_hash fuel h x y tx ty :
  repr h x tx → repr h y ty → shape_of tx = shape_of ty → height tx ≤ fuel →
  ∃ h1 h2,
    Symbol_id py_hash fuel x h = (Ok (fingerprint py_hash tx), h1) ∧
    Symbol_id py_hash fuel y h1 = (Ok (fingerprint py_hash tx), h2) ∧
    lazy_ext h h2.
Proof.
  intros Hx Hy Hs Hfuel.
  destruct (Symbol_id_ok py_hash fuel h x tx Hx Hfuel) as (h1 & Hid & Hle).
  destruct (Symbol_id_ok py_hash fuel h1 y ty) as (h2 & Hidy & Hle2).
  - by eapply lazy_ext_repr.
  - by rewrite height_shape, <- Hs, <- height_shape.
  - exists h1, h2. split; [done |]. split; [| by eapply lazy_ext_trans].
    by rewrite Hidy, !fingerprint_shape, Hs.
Qed.

Lemma unattached_ext h h' c oc : heap_ext h h' → unattached h c oc → unattached h' c oc.
Proof. intros Hext [Hc Hp]. split; [by eapply heap_ext_obj | done]. Qed.

(** A binary operator applied to two nodes without parents. *)
Lemma BinaryOperator_ok h cls name l r ol or tl tr :
  heap_wf h → unattached h l ol → unattached h r or →
  repr h l tl → repr h r tr →
  let self := length (objs h) in
  let h' := built (Heap (objs h) (lists h ++ [[l; r]])) cls name [ol; or] in
  BinaryOperator cls name l r h = (Ok self, h') ∧
  heap_wf h' ∧ heap_ext h h' ∧
  repr h' self (Node self cls name [recopy (S self) tl; recopy (S (S self)) tr]) ∧
  unattached h' self (Obj cls name None (Some (S (length (lists h))))) ∧
  children_of h' self = [S self; S (S self)] ∧
  objs h' !! S self = Some (copy_into self ol) ∧
  objs h' !! S (S self) = Some (copy_into self or).
Proof.
  intros Hwf Hl Hr Htl Htr self h'.
  set (h1 := Heap (objs h) (lists h ++ [[l; r]])).
  assert (heap_ext h h1) as Hext1 by apply heap_ext_alloc_list.
  assert (heap_wf h1) as Hwf1.
  { apply alloc_list_wf; [done |].
    destruct Hl as [Hl _], Hr as [Hr _].
    repeat constructor; by eapply lookup_lt_Some. }
  assert (Forall2 (unattached h1) [l; r] [ol; or]) as Hocs.
  { repeat constructor; by eapply unattached_ext. }
  assert (heap_ext h1 h') as Hext2 by apply heap_ext_built.
  repeat split.
  - rewrite BinaryOperator_unfold. fold h1.
    apply (Symbol_init_ok h1 cls name (length (lists h)) [l; r] [ol; or]); [| done].
    unfold h1. simpl. by rewrite lookup_app_r, Nat.sub_diag.
  - apply (wf_parent _ (built_wf h1 cls name [ol; or] Hwf1 (unattached_objs _ _ _ Hocs))).
  - apply (wf_children _ (built_wf h1 cls name [ol; or] Hwf1 (unattached_objs _ _ _ Hocs))).
  - apply (wf_lists _ (built_wf h1 cls name [ol; or] Hwf1 (unattached_objs _ _ _ Hocs))).
  - apply Hext2.
  - etrans; [apply Hext1 | apply Hext2].
  - pose proof (built_repr_new h1 cls name [l; r] [ol; or] [tl; tr]
                  (unattached_lookup _ _ _ Hocs)) as Hnew.
    unfold new_tree in Hnew. simpl in Hnew.
    rewrite Nat.add_0_r, Nat.add_1_r in Hnew. apply Hnew.
    repeat constructor; by eapply heap_ext_repr.
  - pose proof (built_lookup_new h1 cls name [ol; or]) as Hn.
    unfold new_obj, h1 in Hn. cbn [lists] in Hn.
    rewrite length_app, Nat.add_1_r in Hn. apply Hn.
  - apply (built_children_new h1 cls name [ol; or]).
  - pose proof (built_lookup_copy h1 cls name [ol; or] 0 ol eq_refl) as Hc.
    simpl in Hc. by rewrite Nat.add_0_r in Hc.
  - pose proof (built_lookup_copy h1 cls name [ol; or] 1 or eq_refl) as Hc.
    simpl in Hc. by rewrite Nat.add_1_r in Hc.
Qed.

Lemma repr_obj h x t : repr h x t → ∃ o, objs h !! x = Some o.
Proof. inversion 1; eauto. Qed.

Lemma height_recopy a t : height (recopy a t) = height t.
Proof. by destruct t. Qed.

Lemma init_outcome_Ok h cls name cs c h' :
  init_outcome h cls name cs (Ok c) h' →
  ∃ ocs, Forall2 (unattached h) cs ocs ∧ c = length (objs h) ∧ h' = built h cls name ocs.
Proof. inversion 1; subst. eauto. Qed.

(** The outcome of an arithmetic constructor on two existing nodes: either
    both have no parent and the composite node is built, or the first
    operand that has a parent makes the construction fail. *)
Lemma BinaryOperator_cases h cls name l r :
  heap_wf h → l < length (objs h) → r < length (objs h) →
  (∃ ol or, unattached h l ol ∧ unattached h r or)
  ∨ ((parent_of h l ≠ None ∨ parent_of h r ≠ None) ∧
     (BinaryOperator cls name l r h).1 = Raise (AssertionError NodeMixin.corrupt)).
Proof.
  intros Hwf Hl Hr.
  pose proof (BinaryOperator_outcome h cls name l r Hwf Hl Hr) as Hout.
  destruct (lookup_lt_is_Some_2 _ _ Hl) as [ol Hol].
  destruct (lookup_lt_is_Some_2 _ _ Hr) as [or Hor].
  inversion Hout as [ocs Hocs Hres Hh | pre ocs c oc p post Hcs Hpre Hc Hp Hres Hh].
  - left. apply Forall2_cons_inv_l in Hocs as (ol' & ocs' & [Hl1 Hl2] & Hocs & ->).
    apply Forall2_cons_inv_l in Hocs as (or' & ocs'' & [Hr1 Hr2] & _ & ->).
    exists ol', or'. by repeat split.
  - right. split; [| done]. simpl in Hc.
    destruct pre as [| c0 [| c1 pre]]; simplify_eq/=.
    + left. unfold parent_of. by rewrite Hol, Hp.
    + right. unfold parent_of. by rewrite Hor, Hp.
    + by destruct pre.
Qed.

(** C2.  After [c = a + b]: [c.children] is a tuple of two new objects whose
    ids equal [a.id] and [b.id], in that order; every object and every list
    that existed before the call, [a] and [b] with their parents included,
    is exactly as it was, whether the call returns or raises; and the call
    returns whenever [a] and [b] have no parent. *)
Theorem add_copy_on_attach py_hash h a b ta tb fuel r h' :
  heap_wf h → repr h a ta → repr h b tb →
  height ta ≤ fuel → height tb ≤ fuel →
  Symbol__add__ a (VSym b) h = (r, h') →
  (∀ x o, objs h !! x = Some o → objs h' !! x = Some o) ∧
  (∀ L l, lists h !! L = Some l → lists h' !! L = Some l) ∧
  (∀ c, r = Ok c →
     ∃ a' b' va vb h1 h2 h3 h4,
       NodeMixin.children c h' = (Ok [a'; b'], h') ∧
       length (objs h) < a' ∧ length (objs h) < b' ∧ a' ≠ b' ∧
       Symbol_id py_hash fuel a' h' = (Ok va, h1) ∧
       Symbol_id py_hash fuel a h1 = (Ok va, h2) ∧
       Symbol_id py_hash fuel b' h2 = (Ok vb, h3) ∧
       Symbol_id py_hash fuel b h3 = (Ok vb, h4)) ∧
  (parent_of h a = None → parent_of h b = None → ∃ c, r = Ok c).
Proof.
  intros Hwf Hta Htb Hfa Hfb Hrun.
  destruct (repr_obj _ _ _ Hta) as [oa Hoa], (repr_obj _ _ _ Htb) as [ob Hob].
  pose proof (lookup_lt_Some _ _ _ Hoa) as Ha.
  pose proof (lookup_lt_Some _ _ _ Hob) as Hb.
  change (Symbol__add__ a (VSym b) h) with (BinaryOperator CAddition "+" a b h) in Hrun.
  pose proof (BinaryOperator_outcome h CAddition "+" a b Hwf Ha Hb) as Hout.
  rewrite Hrun in Hout. simpl in Hout.
  assert (heap_ext h h') as Hext.
  { eapply heap_ext_trans; [apply (heap_ext_alloc_list h [a; b]) |].
    by eapply init_outcome_ext. }
  assert (∀ ol or, unattached h a ol → unattached h b or →
            r = Ok (length (objs h)) ∧
            h' = built (Heap (objs h) (lists h ++ [[a; b]])) CAddition "+" [ol; or])
    as Hgood.
  { intros ol or Hl Hr.
    destruct (BinaryOperator_ok h CAddition "+" a b ol or ta tb Hwf Hl Hr Hta Htb)
      as (Hrun' & _). rewrite Hrun in Hrun'. by injection Hrun' as -> ->. }
  split; [intros x o; by apply heap_ext_obj |].
  split; [intros L l; by apply heap_ext_list |].
  split.
  - intros c ->.
    destruct (BinaryOperator_cases h CAddition "+" a b Hwf Ha Hb)
      as [(ol & or & Hl & Hr) | [_ Hfail]]; [| by rewrite Hrun in Hfail].
    destruct (Hgood ol or Hl Hr) as [[= ->] Hh'].
    destruct (BinaryOperator_ok h CAddition "+" a b ol or ta tb Hwf Hl Hr Hta Htb)
      as (_ & Hwf' & _ & Hrepr & [Hself _] & Hch & _).
    rewrite <- Hh' in Hwf', Hrepr, Hself, Hch.
    set (self := length (objs h)) in *.
    pose proof (repr_children_of _ _ _ Hrepr) as Hsub.
    rewrite Hch in Hsub. simpl in Hsub.
    apply Forall2_cons_1 in Hsub as [Hra Hsub].
    apply Forall2_cons_1 in Hsub as [Hrb _].
    destruct (Symbol_id_same_shape py_hash fuel h' (S self) a (recopy (S self) ta) ta)
      as (h1 & h2 & Hid1 & Hid2 & Hle2);
      [done | by eapply heap_ext_repr | apply shape_of_recopy
       | by rewrite height_recopy |].
    destruct (Symbol_id_same_shape py_hash fuel h2 (S (S self)) b
                (recopy (S (S self)) tb) tb)
      as (h3 & h4 & Hid3 & Hid4 & _);
      [by eapply lazy_ext_repr
       | eapply lazy_ext_repr; [done | by eapply heap_ext_repr]
       | apply shape_of_recopy | by rewrite height_recopy |].
    exists (S self), (S (S self)), (fingerprint py_hash (recopy (S self) ta)),
      (fingerprint py_hash (recopy (S (S self)) tb)), h1, h2, h3, h4.
    repeat split; try done; try lia.
    unfold NodeMixin.children.
    mstep (children__some _ _ _ _ Hself eq_refl).
    apply get_list_ok. unfold children_of, children_view in Hch.
    rewrite Hself in Hch. simpl in Hch.
    by destruct (lists h' !! S (length (lists h))) as [l |]; simplify_eq/=.
  - intros Hpa Hpb. unfold parent_of in Hpa, Hpb. rewrite Hoa in Hpa. rewrite Hob in Hpb.
    destruct (Hgood oa ob) as [-> _]; [done | done | eauto].
Qed.

Lemma add_copy_on_attach_witness :
  ∃ a' b' va vb h1 h2 h3 h4,
    NodeMixin.children 3 heap_sum = (Ok [a'; b'], heap_sum) ∧
    length (objs heap_abc) < a' ∧ length (objs heap_abc) < b' ∧ a' ≠ b' ∧
    Symbol_id CPython.process_hash 1 a' heap_sum = (Ok va, h1) ∧
    Symbol_id CPython.process_hash 1 0 h1 = (Ok va, h2) ∧
    Symbol_id CPython.process_hash 1 b' h2 = (Ok vb, h3) ∧
    Symbol_id CPython.process_hash 1 1 h3 = (Ok vb, h4).
Proof.
  refine (proj1 (proj2 (proj2
    (add_copy_on_attach CPython.process_hash heap_abc 0 1
       (Node 0 CSymbol "a" []) (Node 1 CSymbol "b" []) 1 (Ok 3) heap_sum
       _ _ _ _ _ _))) 3 eq_refl).
  - apply heap_wfb_sound. reflexivity.
  - apply (tree_of_sound 1). reflexivity.
  - apply (tree_of_sound 1). reflexivity.
  - simpl. lia.
  - simpl. lia.
  - reflexivity.
Defined.

(** A leaf: a node that records no children. *)
Definition leaf (h : heap) (x : addr) (o : obj) : Prop :=
  unattached h x o ∧ children_view h o = Some [].

Lemma leaf_repr h x o : leaf h x o → repr h x (Node x (o_class o) (o_name o) []).
Proof. intros [[Hx _] Hv]. econstructor; [done | done | constructor]. Qed.

Lemma children_of_some h x o L l :
  objs h !! x = Some o → o_children o = Some L → lists h !! L = Some l →
  children_of h x = l.
Proof. intros Hx HL Hl. unfold children_of, children_view. by rewrite Hx, HL, Hl. Qed.

Lemma children_of_inv h x o L c l :
  objs h !! x = Some o → o_children o = Some L → children_of h x = c :: l →
  lists h !! L = Some (c :: l).
Proof.
  intros Hx HL. unfold children_of, children_view. rewrite Hx, HL.
  destruct (lists h !! L); simpl; [by intros -> | done].
Qed.

Definition tag_of (h : heap) (x : addr) : option (Class * string) :=
  (λ o, (o_class o, o_name o)) <$> objs h !! x.

(** The observable state of a node: its class and name, its parent and the
    tuple of its children. *)
Definition view (h : heap) (x : addr)
  : option (Class * string) * option addr * list addr :=
  (tag_of h x, parent_of h x, children_of h x).

(** C6.  For leaves [a], [b], [c], the tree [(a + b) * c] is built, and its
    [pre_order] yields exactly five nodes: the multiplication root, its first
    child the addition node, the copies of [a] and [b] under the addition,
    then the copy of [c]. *)
Theorem pre_order_product h a b c oa ob oc fuel :
  heap_wf h → leaf h a oa → leaf h b ob → leaf h c oc → 4 ≤ fuel →
  ∃ s m h1 h2 h3 s' a' b' c',
    Symbol__add__ a (VSym b) h = (Ok s, h1) ∧
    Symbol__mul__ s (VSym c) h1 = (Ok m, h2) ∧
    Symbol_pre_order fuel m h2 = (Ok [m; s'; a'; b'; c'], h3) ∧
    children_of h2 m = [s'; c'] ∧ children_of h2 s' = [a'; b'] ∧
    children_of h2 a' = [] ∧ children_of h2 b' = [] ∧ children_of h2 c' = [] ∧
    tag_of h2 m = Some (CMultiplication, "*") ∧
    tag_of h2 s' = Some (CAddition, "+") ∧
    tag_of h2 a' = Some (o_class oa, o_name oa) ∧
    tag_of h2 b' = Some (o_class ob, o_name ob) ∧
    tag_of h2 c' = Some (o_class oc, o_name oc).
Proof.
  intros Hwf Ha Hb Hc Hfuel.
  pose proof (leaf_repr _ _ _ Ha) as Hta.
  pose proof (leaf_repr _ _ _ Hb) as Htb.
  pose proof (leaf_repr _ _ _ Hc) as Htc.
  destruct Ha as [Ha Hva], Hb as [Hb Hvb], Hc as [Hc Hvc].
  destruct (BinaryOperator_ok h CAddition "+" a b oa ob _ _ Hwf Ha Hb Hta Htb)
    as (Hrun1 & Hwf1 & Hext1 & Hrs & Hs & Hchs & Hoa' & Hob').
  set (s := length (objs h)) in *.
  set (h1 := built _ CAddition "+" [oa; ob]) in *.
  assert (length (objs h1) = S (S (S s))) as Hlen1.
  { unfold h1. rewrite built_objs_length. simpl. lia. }
  destruct (BinaryOperator_ok h1 CMultiplication "*" s c _ oc _ _ Hwf1 Hs
              (unattached_ext _ _ _ _ Hext1 Hc) Hrs (heap_ext_repr _ _ _ _ Hext1 Htc))
    as (Hrun2 & Hwf2 & Hext2 & Hrm & Hm & Hchm & Hos' & Hoc').
  rewrite Hlen1 in *.
  set (m := S (S (S s))) in *.
  set (h2 := built _ CMultiplication "*" _) in *.
  destruct (Symbol_pre_order_ok fuel h2 m _ Hrm) as (h3 & Hpre & _).
  { simpl. lia. }
  exists s, m, h1, h2, h3, (S m), (S s), (S (S s)), (S (S m)).
  assert (children_of h2 (S m) = [S s; S (S s)]) as Hch'.
  { destruct Hs as [Hs _].
    pose proof (children_of_inv _ _ _ _ _ _ Hs eq_refl Hchs) as Hl.
    apply (children_of_some _ _ _ _ _ Hos' eq_refl).
    by apply (heap_ext_list _ _ _ _ Hext2). }
  assert (∀ x o o', objs h2 !! x = Some o' → o_children o' = o_children o →
            children_view h o = Some [] → children_of h2 x = []) as Hleaf.
  { intros x o o' Hx Hco Hv. unfold children_of. rewrite Hx.
    unfold children_view in *. rewrite Hco.
    destruct (o_children o) as [L |]; [| done].
    by rewrite (heap_ext_list _ _ _ _ (heap_ext_trans _ _ _ Hext1 Hext2) Hv). }
  pose proof (heap_ext_obj _ _ _ _ Hext2 Hoa') as Hoa2.
  pose proof (heap_ext_obj _ _ _ _ Hext2 Hob') as Hob2.
  unfold tag_of. destruct Hm as [Hm _]. rewrite Hm, Hos', Hoa2, Hob2, Hoc'.
  repeat split; try done.
  - by eapply (Hleaf _ oa).
  - by eapply (Hleaf _ ob).
  - by eapply (Hleaf _ oc).
Qed.

Lemma pre_order_product_witness :
  ∃ s m h1 h2 h3 s' a' b' c',
    Symbol__add__ 0 (VSym 1) heap_abc = (Ok s, h1) ∧
    Symbol__mul__ s (VSym 2) h1 = (Ok m, h2) ∧
    Symbol_pre_order 4 m h2 = (Ok [m; s'; a'; b'; c'], h3) ∧
    children_of h2 m = [s'; c'] ∧ children_of h2 s' = [a'; b'] ∧
    children_of h2 a' = [] ∧ children_of h2 b' = [] ∧ children_of h2 c' = [] ∧
    tag_of h2 m = Some (CMultiplication, "*") ∧
    tag_of h2 s' = Some (CAddition, "+") ∧
    tag_of h2 a' = Some (CSymbol, "a") ∧
    tag_of h2 b' = Some (CSymbol, "b") ∧
    tag_of h2 c' = Some (CSymbol, "c").
Proof.
  apply (pre_order_product heap_abc 0 1 2
           (Obj CSymbol "a" None None) (Obj CSymbol "b" None None)
           (Obj CSymbol "c" None None) 4).
  - apply heap_wfb_sound. reflexivity.
  - repeat split.
  - repeat split.
  - repeat split.
  - lia.
Defined.

(** ** The children argument *)

(** C10.  In any store a sequence of calls can produce, a list object passed
    as [children] has the same elements after the construction (whether it
    returns or raises) and after any further sequence of calls; the list of
    the default argument is still empty, so a node constructed without
    [children] has no children. *)
Theorem Symbol_init_keeps_children py_hash calls more cls name L l :
  let h := exec_all py_hash calls heap0 in
  lists h !! L = Some l →
  lists (Symbol__init__ cls name L h).2 !! L = Some l ∧
  lists (exec_all py_hash more h) !! L = Some l ∧
  lists h !! default_children = Some [] ∧
  ∃ h' h'',
    Symbol__init__ cls name default_children h = (Ok (length (objs h)), h') ∧
    lists h' !! default_children = Some [] ∧
    NodeMixin.children (length (objs h)) h' = (Ok [], h'').
Proof.
  intros h HL.
  assert (heap_ok h) as Hok by apply exec_all_ok, heap0_ok.
  pose proof (ok_wf _ Hok) as Hwf. pose proof (ok_default _ Hok) as Hdef.
  split; [| split; [| split]].
  - pose proof (Symbol_init_outcome h cls name L l Hwf HL) as Hout.
    eapply heap_ext_list; [by eapply init_outcome_ext | done].
  - by apply exec_all_list_kept.
  - done.
  - exists (built h cls name []).
    destruct (children_ok (built h cls name []) (length (objs h))
                (new_obj h cls name []) []) as (h'' & Hch & _);
      [apply built_lookup_new | done |].
    exists h''. split; [| split; [| done]].
    + apply (Symbol_init_ok h cls name default_children [] []); [done | constructor].
    + by apply built_lookup_list_old.
Qed.

Lemma Symbol_init_keeps_children_witness :
  let h := exec_all CPython.process_hash
             [New CSymbol "a" None; New CSymbol "b" None; MkList [0; 1]] heap0 in
  lists (Symbol__init__ CSymbol "f" 1 h).2 !! 1 = Some [0; 1] ∧
  lists (exec_all CPython.process_hash
           [New CAddition "+" (Some 1); Arith OpMul 2 (VSym 3); GetId 5 2] h) !! 1
    = Some [0; 1] ∧
  lists h !! default_children = Some [] ∧
  ∃ h' h'',
    Symbol__init__ CSymbol "f" default_children h = (Ok (length (objs h)), h') ∧
    lists h' !! default_children = Some [] ∧
    NodeMixin.children (length (objs h)) h' = (Ok [], h'').
Proof.
  apply (Symbol_init_keeps_children CPython.process_hash
           [New CSymbol "a" None; New CSymbol "b" None; MkList [0; 1]]
           [New CAddition "+" (Some 1); Arith OpMul 2 (VSym 3); GetId 5 2]
           CSymbol "f" 1 [0; 1]).
  reflexivity.
Defined.

(** ** Construction with anytree since 2.10 *)

(** The reference a node holds as its children list. *)
Definition ref_of (h : heap) (x : addr) : option lref :=
  objs h !! x ≫= o_children.

Lemma children_of_ref h x :
  children_of h x
  = match ref_of h x with Some L => default [] (lists h !! L) | None => [] end.
Proof.
  unfold children_of, ref_of, children_view.
  destruct (objs h !! x) as [o |]; simpl; [| done].
  by destruct (o_children o).
Qed.

Lemma heap_wf_obs h :
  heap_wf h ↔
  (∀ x p, parent_of h x = Some p → is_Some (ref_of h p)) ∧
  (∀ x L, ref_of h x = Some L → L < length (lists h)) ∧
  (∀ L l e, lists h !! L = Some l → e ∈ l → e < length (objs h)).
Proof.
  unfold parent_of, ref_of. split.
  - intros [Hp Hc Hl]. split; [| split; [| done]].
    + intros x p Hx. destruct (objs h !! x) as [o |] eqn:Ho; [| done].
      destruct (Hp x o p Ho Hx) as (op & L & -> & HL). simpl. by rewrite HL.
    + intros x L Hx. destruct (objs h !! x) as [o |] eqn:Ho; [| done].
      by apply (Hc x o L).
  - intros (Hp & Hc & Hl). split; [| | done].
    + intros x o p Hx Ho. specialize (Hp x p). rewrite Hx in Hp.
      destruct (Hp Ho) as [L HL].
      destruct (objs h !! p) as [op |]; [| done]. eauto.
    + intros x o L Hx Ho. apply (Hc x). by rewrite Hx.
Qed.

(** The assignments of the setter, as functions of the store. *)

(** [x.__parent = q]. *)
Definition reparent (x : addr) (q : option addr) (h : heap) : heap :=
  match objs h !! x with
  | Some o => Heap (<[x:=with_parent o q]> (objs h)) (lists h)
  | None => h
  end.

(** [x.__children = l], where [l] is a new list object with the elements
    that [x.children] has. *)
Definition rebind (x : addr) (h : heap) : heap :=
  match objs h !! x with
  | Some o => Heap (<[x:=with_children o (length (lists h))]> (objs h))
                   (lists h ++ [children_of h x])
  | None => h
  end.

(** [x.__children.append(c)]. *)
Definition push (x c : addr) (h : heap) : heap :=
  match ref_of h x with
  | Some L => Heap (objs h) (<[L:=children_of h x ++ [c]]> (lists h))
  | None => h
  end.

(** Reading [x.__children_or_empty]. *)
Definition ensure (x : addr) (h : heap) : heap :=
  match ref_of h x with
  | Some _ => h
  | None => rebind x h
  end.

Section Observers.

Variables (x : addr) (h : heap).

Lemma reparent_length q : length (objs (reparent x q h)) = length (objs h).
Proof.
  unfold reparent. destruct (objs h !! x); simpl; [| done].
  by rewrite length_insert.
Qed.

Lemma reparent_lists q : lists (reparent x q h) = lists h.
Proof. unfold reparent. by destruct (objs h !! x). Qed.

Lemma reparent_tag q y : tag_of (reparent x q h) y = tag_of h y.
Proof.
  unfold reparent, tag_of. destruct (objs h !! x) as [o |] eqn:Hx; simpl; [| done].
  destruct (decide (y = x)) as [-> |].
  - rewrite list_lookup_insert_eq by by eapply lookup_lt_Some. by rewrite Hx.
  - by rewrite list_lookup_insert_ne.
Qed.

Lemma reparent_ref q y : ref_of (reparent x q h) y = ref_of h y.
Proof.
  unfold reparent, ref_of. destruct (objs h !! x) as [o |] eqn:Hx; simpl; [| done].
  destruct (decide (y = x)) as [-> |].
  - rewrite list_lookup_insert_eq by by eapply lookup_lt_Some. by rewrite Hx.
  - by rewrite list_lookup_insert_ne.
Qed.

Lemma reparent_parent_ne q y : y ≠ x → parent_of (reparent x q h) y = parent_of h y.
Proof.
  intros Hne. unfold reparent, parent_of.
  destruct (objs h !! x) as [o |] eqn:Hx; simpl; [| done].
  by rewrite list_lookup_insert_ne.
Qed.

Lemma reparent_parent_eq q : x < length (objs h) → parent_of (reparent x q h) x = q.
Proof.
  intros Hlt. unfold reparent, parent_of.
  destruct (lookup_lt_is_Some_2 _ _ Hlt) as [o Hx]. rewrite Hx. simpl.
  by rewrite list_lookup_insert_eq.
Qed.

Lemma reparent_children q y : children_of (reparent x q h) y = children_of h y.
Proof. by rewrite !children_of_ref, reparent_ref, reparent_lists. Qed.

Lemma rebind_length : length (objs (rebind x h)) = length (objs h).
Proof.
  unfold rebind. destruct (objs h !! x); simpl; [| done].
  by rewrite length_insert.
Qed.

Lemma rebind_lists :
  x < length (objs h) → lists (rebind x h) = lists h ++ [children_of h x].
Proof.
  intros Hlt. unfold rebind.
  destruct (lookup_lt_is_Some_2 _ _ Hlt) as [o Hx]. by rewrite Hx.
Qed.

Lemma rebind_tag y : tag_of (rebind x h) y = tag_of h y.
Proof.
  unfold rebind, tag_of. destruct (objs h !! x) as [o |] eqn:Hx; simpl; [| done].
  destruct (decide (y = x)) as [-> |].
  - rewrite list_lookup_insert_eq by by eapply lookup_lt_Some. by rewrite Hx.
  - by rewrite list_lookup_insert_ne.
Qed.

Lemma rebind_parent y : parent_of (rebind x h) y = parent_of h y.
Proof.
  unfold rebind, parent_of. destruct (objs h !! x) as [o |] eqn:Hx; simpl; [| done].
  destruct (decide (y = x)) as [-> |].
  - rewrite list_lookup_insert_eq by by eapply lookup_lt_Some. by rewrite Hx.
  - by rewrite list_lookup_insert_ne.
Qed.

Lemma rebind_ref_ne y : y ≠ x → ref_of (rebind x h) y = ref_of h y.
Proof.
  intros Hne. unfold rebind, ref_of.
  destruct (objs h !! x) as [o |] eqn:Hx; simpl; [| done].
  by rewrite list_lookup_insert_ne.
Qed.

Lemma rebind_ref_eq :
  x < length (objs h) → ref_of (rebind x h) x = Some (length (lists h)).
Proof.
  intros Hlt. unfold rebind, ref_of.
  destruct (lookup_lt_is_Some_2 _ _ Hlt) as [o Hx]. rewrite Hx. simpl.
  by rewrite list_lookup_insert_eq.
Qed.

Lemma rebind_children y : heap_wf h → children_of (rebind x h) y = children_of h y.
Proof.
  intros Hwf. apply heap_wf_obs in Hwf as (_ & Hc & _).
  destruct (decide (x < length (objs h))) as [Hlt | Hge].
  - rewrite !children_of_ref, rebind_lists by done.
    destruct (decide (y = x)) as [-> | Hne].
    + rewrite rebind_ref_eq by done.
      rewrite lookup_app_r, Nat.sub_diag by done. simpl.
      by rewrite children_of_ref.
    + rewrite rebind_ref_ne by done.
      destruct (ref_of h y) as [L |] eqn:HL; [| done].
      by rewrite lookup_app_l by by eapply Hc.
  - unfold rebind. by rewrite (proj2 (lookup_ge_None _ _)) by lia.
Qed.

Lemma push_objs c : objs (push x c h) = objs h.
Proof. unfold push. by destruct (ref_of h x). Qed.

Lemma push_tag c y : tag_of (push x c h) y = tag_of h y.
Proof. unfold tag_of. by rewrite push_objs. Qed.

Lemma push_parent c y : parent_of (push x c h) y = parent_of h y.
Proof. unfold parent_of. by rewrite push_objs. Qed.

Lemma push_ref c y : ref_of (push x c h) y = ref_of h y.
Proof. unfold ref_of. by rewrite push_objs. Qed.

Lemma push_lists_length c : length (lists (push x c h)) = length (lists h).
Proof. unfold push. destruct (ref_of h x); simpl; [| done]. by rewrite length_insert. Qed.

Lemma push_children_eq c :
  heap_wf h → is_Some (ref_of h x) →
  children_of (push x c h) x = children_of h x ++ [c].
Proof.
  intros Hwf [L HL]. apply heap_wf_obs in Hwf as (_ & Hc & _).
  rewrite (children_of_ref (push x c h)), push_ref, HL.
  unfold push. rewrite HL. simpl.
  by rewrite list_lookup_insert_eq by by eapply Hc.
Qed.

Lemma push_children_ne c y :
  ref_of h y ≠ ref_of h x → children_of (push x c h) y = children_of h y.
Proof.
  intros Hne. rewrite !children_of_ref, push_ref.
  destruct (ref_of h y) as [L |] eqn:HL; [| done].
  unfold push. destruct (ref_of h x) as [Lx |]; [| done]. simpl.
  rewrite list_lookup_insert_ne; [done | congruence].
Qed.

End Observers.

(** [copy.copy(c)]. *)
Definition clone (c : addr) (h : heap) : heap :=
  match objs h !! c with
  | Some o => Heap (objs h ++ [o]) (lists h)
  | None => h
  end.

Lemma copy_copy_clone h c :
  c < length (objs h) → copy_copy c h = (Ok (length (objs h)), clone c h).
Proof.
  intros Hlt. destruct (lookup_lt_is_Some_2 _ _ Hlt) as [o Hc].
  unfold copy_copy, clone. mstep (get_obj_ok _ _ _ Hc). by rewrite Hc.
Qed.

Section Clone.

Variables (c : addr) (h : heap).
Hypothesis Hc : c < length (objs h).

Lemma clone_length : length (objs (clone c h)) = S (length (objs h)).
Proof.
  unfold clone. destruct (lookup_lt_is_Some_2 _ _ Hc) as [o ->]. simpl.
  rewrite length_app. simpl. lia.
Qed.

Lemma clone_lists : lists (clone c h) = lists h.
Proof. unfold clone. by destruct (objs h !! c). Qed.

Lemma clone_lookup_old y : y < length (objs h) → objs (clone c h) !! y = objs h !! y.
Proof.
  intros Hy. unfold clone. destruct (objs h !! c); simpl; [| done].
  by rewrite lookup_app_l.
Qed.

Lemma clone_lookup_new : objs (clone c h) !! length (objs h) = objs h !! c.
Proof.
  unfold clone. destruct (lookup_lt_is_Some_2 _ _ Hc) as [o Ho]. rewrite Ho. simpl.
  by rewrite lookup_app_r, Nat.sub_diag.
Qed.

Lemma clone_tag_old y : y < length (objs h) → tag_of (clone c h) y = tag_of h y.
Proof. intros Hy. unfold tag_of. by rewrite clone_lookup_old. Qed.

Lemma clone_parent_old y : y < length (objs h) → parent_of (clone c h) y = parent_of h y.
Proof. intros Hy. unfold parent_of. by rewrite clone_lookup_old. Qed.

Lemma clone_ref_old y : y < length (objs h) → ref_of (clone c h) y = ref_of h y.
Proof. intros Hy. unfold ref_of. by rewrite clone_lookup_old. Qed.

Lemma clone_children_old y :
  y < length (objs h) → children_of (clone c h) y = children_of h y.
Proof. intros Hy. by rewrite !children_of_ref, clone_ref_old, clone_lists. Qed.

Lemma clone_tag_new : tag_of (clone c h) (length (objs h)) = tag_of h c.
Proof. unfold tag_of. by rewrite clone_lookup_new. Qed.

Lemma clone_parent_new : parent_of (clone c h) (length (objs h)) = parent_of h c.
Proof. unfold parent_of. by rewrite clone_lookup_new. Qed.

Lemma clone_ref_new : ref_of (clone c h) (length (objs h)) = ref_of h c.
Proof. unfold ref_of. by rewrite clone_lookup_new. Qed.

Lemma clone_children_new : children_of (clone c h) (length (objs h)) = children_of h c.
Proof. by rewrite !children_of_ref, clone_ref_new, clone_lists. Qed.

End Clone.

Lemma ref_of_valid h x L : ref_of h x = Some L → x < length (objs h).
Proof.
  unfold ref_of. destruct (objs h !! x) eqn:Hx; [| done].
  intros _. by eapply lookup_lt_Some.
Qed.

Lemma parent_of_valid h x p : parent_of h x = Some p → x < length (objs h).
Proof.
  unfold parent_of. destruct (objs h !! x) eqn:Hx; [| done].
  intros _. by eapply lookup_lt_Some.
Qed.

Lemma wf_parent_valid h x p :
  heap_wf h → parent_of h x = Some p → p < length (objs h).
Proof.
  intros Hwf Hp. apply heap_wf_obs in Hwf as (Hpar & _ & _).
  destruct (Hpar x p Hp) as [L HL]. by eapply ref_of_valid.
Qed.

Lemma children_of_valid h x e :
  heap_wf h → e ∈ children_of h x → e < length (objs h).
Proof.
  intros Hwf. apply heap_wf_obs in Hwf as (_ & _ & Hl).
  rewrite children_of_ref. destruct (ref_of h x) as [L |]; [| by intros ?%elem_of_nil].
  destruct (lists h !! L) as [l |] eqn:HL; simpl; [| by intros ?%elem_of_nil].
  by apply (Hl L l).
Qed.

(** *** The setter keeps stores well formed *)

Lemma clone_wf c h : heap_wf h → heap_wf (clone c h).
Proof.
  intros Hwf. destruct (decide (c < length (objs h))) as [Hc | Hc]; cycle 1.
  { unfold clone. by rewrite (proj2 (lookup_ge_None _ _)) by lia. }
  pose proof Hwf as (Hpar & Hch & Hl)%heap_wf_obs. apply heap_wf_obs.
  assert (∀ y, y < S (length (objs h)) →
            ∃ z, z < length (objs h) ∧ parent_of (clone c h) y = parent_of h z
                 ∧ ref_of (clone c h) y = ref_of h z) as Hsrc.
  { intros y Hy. destruct (decide (y < length (objs h))) as [Hlt | Hge].
    - exists y. by rewrite clone_parent_old, clone_ref_old.
    - assert (y = length (objs h)) as -> by lia.
      exists c. by rewrite clone_parent_new, clone_ref_new. }
  split; [| split].
  - intros y p Hp.
    destruct (Hsrc y) as (z & Hz & Hpz & _).
    { rewrite <- (clone_length c h Hc). by eapply parent_of_valid. }
    rewrite Hpz in Hp. pose proof (Hpar z p Hp) as [L HL].
    rewrite clone_ref_old; [by rewrite HL | by eapply ref_of_valid].
  - intros y L HL. rewrite clone_lists.
    destruct (Hsrc y) as (z & Hz & _ & Hrz).
    { rewrite <- (clone_length c h Hc). by eapply ref_of_valid. }
    rewrite Hrz in HL. by eapply Hch.
  - intros L l e. rewrite clone_lists, clone_length by done.
    intros HL He. specialize (Hl L l e HL He). lia.
Qed.

Lemma reparent_wf x q h :
  heap_wf h → (∀ s, q = Some s → is_Some (ref_of h s)) → heap_wf (reparent x q h).
Proof.
  intros (Hpar & Hch & Hl)%heap_wf_obs Hq. apply heap_wf_obs. split; [| split].
  - intros y p Hp. rewrite reparent_ref.
    destruct (decide (y = x)) as [-> | Hne].
    + rewrite reparent_parent_eq in Hp.
      * by apply Hq.
      * rewrite <- (reparent_length x h q). by eapply parent_of_valid.
    + rewrite reparent_parent_ne in Hp by done. by eapply Hpar.
  - intros y L. rewrite reparent_ref, reparent_lists. apply Hch.
  - intros L l e. rewrite reparent_lists, reparent_length. apply Hl.
Qed.

Lemma rebind_wf x h : heap_wf h → heap_wf (rebind x h).
Proof.
  intros Hwf. destruct (decide (x < length (objs h))) as [Hx | Hx]; cycle 1.
  { unfold rebind. by rewrite (proj2 (lookup_ge_None _ _)) by lia. }
  pose proof Hwf as (Hpar & Hch & Hl)%heap_wf_obs. apply heap_wf_obs.
  split; [| split].
  - intros y p. rewrite rebind_parent. intros Hp.
    destruct (decide (p = x)) as [-> | Hne].
    + by rewrite rebind_ref_eq.
    + rewrite rebind_ref_ne by done. by eapply Hpar.
  - intros y L. rewrite rebind_lists, length_app by done. simpl.
    destruct (decide (y = x)) as [-> | Hne].
    + rewrite rebind_ref_eq by done. intros [= <-]. lia.
    + rewrite rebind_ref_ne by done. intros HL. specialize (Hch y L HL). lia.
  - intros L l e. rewrite rebind_lists, rebind_length by done.
    intros HL He. apply lookup_app_Some in HL as [HL | [_ HL]].
    + by eapply Hl.
    + apply list_lookup_singleton_Some in HL as [_ <-].
      by eapply children_of_valid.
Qed.

Lemma ensure_wf x h : heap_wf h → heap_wf (ensure x h).
Proof. intros Hwf. unfold ensure. destruct (ref_of h x); [done | by apply rebind_wf]. Qed.

Lemma push_wf x c h : heap_wf h → c < length (objs h) → heap_wf (push x c h).
Proof.
  intros Hwf Hc. pose proof Hwf as (Hpar & Hch & Hl)%heap_wf_obs. apply heap_wf_obs.
  split; [| split].
  - intros y p. rewrite push_parent, push_ref. apply Hpar.
  - intros y L. rewrite push_ref, push_lists_length. apply Hch.
  - intros L l e. rewrite push_objs. unfold push.
    destruct (ref_of h x) as [Lx |] eqn:Hx; [| apply Hl]. simpl.
    destruct (decide (L = Lx)) as [-> | Hne].
    + rewrite list_lookup_insert_eq by by eapply Hch.
      intros [= <-] [He | ->%list_elem_of_singleton]%elem_of_app; [| done].
      by eapply children_of_valid.
    + rewrite list_lookup_insert_ne by done. apply Hl.
Qed.

(** *** What the setter does, with the assertions off *)

(** No list object holds [c]. *)
Definition unlisted (h : heap) (c : addr) : Prop :=
  ∀ L l, lists h !! L = Some l → c ∉ l.

(** The children list of [s], if it has one, is held by [s] alone. *)
Definition unshared (h : heap) (s : addr) : Prop :=
  ∀ y, is_Some (ref_of h s) → ref_of h y = ref_of h s → y = s.

Lemma fresh_unlisted h c : heap_wf h → length (objs h) ≤ c → unlisted h c.
Proof.
  intros Hwf Hc L l HL Hin. pose proof (wf_lists _ Hwf L l c HL Hin). lia.
Qed.

Lemma unlisted_children h c x : unlisted h c → c ∉ children_of h x.
Proof.
  intros Hun. rewrite children_of_ref.
  destruct (ref_of h x) as [L |]; [| apply not_elem_of_nil].
  destruct (lists h !! L) as [l |] eqn:HL; simpl; [by eapply Hun | apply not_elem_of_nil].
Qed.

Lemma filter_other c l :
  c ∉ l → List.filter (λ child, negb (Nat.eqb child c)) l = l.
Proof.
  induction l as [| e l IH]; [done |].
  intros [Hne Hnin]%not_elem_of_cons. simpl.
  destruct (Nat.eqb_spec e c) as [-> | _]; [done |]. simpl. by rewrite IH.
Qed.

Lemma ref_of_lookup h x L :
  ref_of h x = Some L → ∃ o, objs h !! x = Some o ∧ o_children o = Some L.
Proof. unfold ref_of. destruct (objs h !! x) as [o |]; [eauto | done]. Qed.

Lemma children_of_lookup h x L :
  heap_wf h → ref_of h x = Some L → lists h !! L = Some (children_of h x).
Proof.
  intros Hwf HL. rewrite children_of_ref, HL.
  apply heap_wf_obs in Hwf as (_ & Hch & _).
  destruct (lookup_lt_is_Some_2 (lists h) L) as [l Hl]; [by eapply Hch |].
  by rewrite Hl.
Qed.

Lemma set_children_attr_ok h x o L :
  objs h !! x = Some o →
  NodeMixin.set_children_attr x L h
  = (Ok (), Heap (<[x:=with_children o L]> (objs h)) (lists h)).
Proof.
  intros Hx. unfold NodeMixin.set_children_attr. by mstep (get_obj_ok _ _ _ Hx).
Qed.

(** [__detach] of a node that its recorded parent does not list: the
    parent gets a new list with the elements it had, and the node loses
    its parent. *)
Lemma detach_since_2_10 h c p :
  heap_wf h → c < length (objs h) → is_Some (ref_of h p) → c ≠ p → unlisted h c →
  NodeMixin.detach (anytree := anytree_since_2_10) c (Some p) h
  = (Ok (), reparent c None (rebind p h)).
Proof.
  intros Hwf Hc [L HL] Hne Hun.
  destruct (ref_of_lookup _ _ _ HL) as (op & Hp & HLp).
  destruct (lookup_lt_is_Some_2 _ _ Hc) as [oc Hoc].
  pose proof (children_of_lookup _ _ _ Hwf HL) as Hl.
  unfold NodeMixin.detach.
  mstep (children__some _ _ _ _ Hp HLp). mstep (get_list_ok _ _ _ Hl).
  cbn [anytree_since_2_10 andb].
  rewrite filter_other by by apply unlisted_children.
  unfold reparent, rebind. rewrite Hp. simpl.
  rewrite list_lookup_insert_ne, Hoc by done.
  erewrite bind_ok; cycle 1.
  { rewrite (bind_ok (alloc_list _) _ h (length (lists h))
               (Heap (objs h) (lists h ++ [children_of h p])) eq_refl).
    by apply set_children_attr_ok. }
  by rewrite set_parent_attr_ok with (o := oc)
    by (simpl; by rewrite list_lookup_insert_ne).
Qed.

(** [__attach] to a node that does not list the new child. *)
Lemma attach_push {anytree : Anytree} h c s :
  heap_wf h → c < length (objs h) → s < length (objs h) → c ≠ s →
  c ∉ children_of h s →
  NodeMixin.attach c (Some s) h
  = (Ok (), reparent c (Some s) (push s c (ensure s h))).
Proof.
  intros Hwf Hc Hs Hne Hnin.
  destruct (lookup_lt_is_Some_2 _ _ Hc) as [oc Hoc].
  destruct (lookup_lt_is_Some_2 _ _ Hs) as [os Hos].
  destruct (o_children os) as [L |] eqn:HL.
  - assert (ref_of h s = Some L) as Href by (unfold ref_of; by rewrite Hos).
    pose proof (children_of_lookup _ _ _ Hwf Href) as Hl.
    rewrite (attach_some h c oc s os L (children_of h s)) by done.
    unfold ensure. rewrite Href. unfold push. rewrite Href.
    unfold reparent. simpl. by rewrite Hoc.
  - assert (ref_of h s = None) as Href by (unfold ref_of; by rewrite Hos).
    rewrite (attach_none h c oc s os) by done.
    assert (children_of h s = []) as Hnil by (by rewrite children_of_ref, Href).
    unfold ensure. rewrite Href. unfold push.
    rewrite (children_of_ref (rebind s h)), rebind_ref_eq by done.
    rewrite rebind_lists, Hnil by done.
    rewrite lookup_app_r, Nat.sub_diag by done. simpl.
    unfold reparent, rebind. rewrite Hos. simpl.
    rewrite list_lookup_insert_ne, Hoc by done.
    by rewrite insert_app_r_alt, Nat.sub_diag by done.
Qed.

(** One round of the loop of [__init__]: the copy, what [__detach] does when
    the copied node has a parent, and [__attach]. *)
Definition attach_copy (self c : addr) (h : heap) : heap :=
  let c' := length (objs h) in
  let h1 := clone c h in
  let h2 := match parent_of h c with
            | Some p => reparent c' None (rebind p h1)
            | None => h1
            end in
  reparent c' (Some self) (push self c' (ensure self h2)).

Lemma parent_lookup h x :
  x < length (objs h) → NodeMixin.parent x h = (Ok (parent_of h x), h).
Proof.
  intros Hx. destruct (lookup_lt_is_Some_2 _ _ Hx) as [o Ho].
  unfold parent_of. rewrite Ho. by apply parent_ok.
Qed.

Lemma path_of_root h x :
  x < length (objs h) → parent_of h x = None → NodeMixin.path x h = (Ok [x], h).
Proof.
  intros Hx. destruct (lookup_lt_is_Some_2 _ _ Hx) as [o Ho].
  unfold parent_of. rewrite Ho. by apply path_root.
Qed.

Lemma attach_copy_since_2_10 h self c :
  heap_wf h → c < length (objs h) → self < length (objs h) →
  parent_of h self = None → parent_of h c ≠ Some self →
  (do c' <- copy_copy c;
   NodeMixin.set_parent (anytree := anytree_since_2_10) c' (Some self)) h
  = (Ok (), attach_copy self c h).
Proof.
  intros Hwf Hc Hself Hroot Hpc.
  mstep (copy_copy_clone h c Hc).
  pose proof (clone_wf c h Hwf) as Hwf1.
  pose proof (clone_length c h Hc) as Hlen1.
  assert (unlisted (clone c h) (length (objs h))) as Hun1.
  { intros L l. rewrite clone_lists. by apply fresh_unlisted. }
  unfold NodeMixin.set_parent.
  mstep (parent_lookup (clone c h) (length (objs h)) ltac:(lia)).
  rewrite clone_parent_new by done.
  case_decide as Hdec; [done |].
  assert (NodeMixin.check_loop (length (objs h)) (Some self) (clone c h)
          = (Ok (), clone c h)) as Hloop.
  { unfold NodeMixin.check_loop.
    destruct (Nat.eqb_spec self (length (objs h))) as [-> | _]; [lia |].
    rewrite (bind_ok _ _ _ _ _ (path_of_root (clone c h) self ltac:(lia)
               ltac:(by rewrite clone_parent_old))).
    simpl. destruct (Nat.eqb_spec (length (objs h)) self) as [<- | _]; [lia | done]. }
  mstep Hloop. unfold attach_copy.
  destruct (parent_of h c) as [p |] eqn:Hp.
  - pose proof (wf_parent_valid _ _ _ Hwf Hp) as Hpv.
    assert (is_Some (ref_of (clone c h) p)) as Hrp.
    { rewrite clone_ref_old by done.
      apply heap_wf_obs in Hwf as (Hpar & _). by eapply Hpar. }
    rewrite (bind_ok _ _ _ _ _
               (detach_since_2_10 (clone c h) (length (objs h)) p Hwf1
                  ltac:(lia) Hrp ltac:(lia) Hun1)).
    apply attach_push.
    + apply reparent_wf; [by apply rebind_wf | done].
    + rewrite reparent_length, rebind_length. lia.
    + rewrite reparent_length, rebind_length. lia.
    + lia.
    + rewrite reparent_children, rebind_children by done.
      by apply unlisted_children.
  - cbn [NodeMixin.detach]. unfold bind at 1, ret at 1.
    apply attach_push; [done | lia | lia | lia |]. by apply unlisted_children.
Qed.

Lemma ensure_length x h : length (objs (ensure x h)) = length (objs h).
Proof. unfold ensure. destruct (ref_of h x); [done | apply rebind_length]. Qed.

Lemma ensure_tag x h y : tag_of (ensure x h) y = tag_of h y.
Proof. unfold ensure. destruct (ref_of h x); [done | apply rebind_tag]. Qed.

Lemma ensure_parent x h y : parent_of (ensure x h) y = parent_of h y.
Proof. unfold ensure. destruct (ref_of h x); [done | apply rebind_parent]. Qed.

Lemma ensure_children x h y :
  heap_wf h → children_of (ensure x h) y = children_of h y.
Proof.
  intros Hwf. unfold ensure. destruct (ref_of h x); [done | by apply rebind_children].
Qed.

Lemma ensure_has x h : x < length (objs h) → is_Some (ref_of (ensure x h) x).
Proof.
  intros Hx. unfold ensure. destruct (ref_of h x) as [L |] eqn:HL.
  - by rewrite HL.
  - by rewrite rebind_ref_eq.
Qed.

Lemma clone_unshared c s h :
  c < length (objs h) → s < length (objs h) → c ≠ s →
  unshared h s → unshared (clone c h) s.
Proof.
  intros Hc Hs Hne Hun y. rewrite (clone_ref_old c h s Hs). intros Hsome Hy.
  destruct (decide (y < length (objs h))) as [Hlt | Hge].
  - rewrite clone_ref_old in Hy by done. by apply Hun.
  - destruct Hsome as [L HL]. rewrite HL in Hy.
    pose proof (ref_of_valid _ _ _ Hy) as Hv. rewrite clone_length in Hv by done.
    assert (y = length (objs h)) as -> by lia.
    rewrite clone_ref_new in Hy by done. destruct Hne.
    apply Hun; [by rewrite HL | congruence].
Qed.

Lemma rebind_unshared p s h :
  heap_wf h → unshared h s → unshared (rebind p h) s.
Proof.
  intros Hwf Hun y.
  destruct (decide (p < length (objs h))) as [Hp | Hp]; cycle 1.
  { unfold rebind. rewrite (proj2 (lookup_ge_None _ _)) by lia. apply Hun. }
  pose proof Hwf as (_ & Hch & _)%heap_wf_obs.
  destruct (decide (s = p)) as [-> | Hsp].
  - rewrite rebind_ref_eq by done. intros _ Hy.
    destruct (decide (y = p)) as [| Hne]; [done |].
    rewrite rebind_ref_ne in Hy by done. apply Hch in Hy. lia.
  - rewrite (rebind_ref_ne p h s Hsp). intros Hsome Hy.
    destruct (decide (y = p)) as [-> | Hne].
    + rewrite rebind_ref_eq in Hy by done.
      symmetry in Hy. apply Hch in Hy. lia.
    + rewrite rebind_ref_ne in Hy by done. by apply Hun.
Qed.

Lemma reparent_unshared x q s h : unshared h s → unshared (reparent x q h) s.
Proof. intros Hun y. rewrite !reparent_ref. apply Hun. Qed.

Lemma push_unshared x c s h : unshared h s → unshared (push x c h) s.
Proof. intros Hun y. rewrite !push_ref. apply Hun. Qed.

Lemma ensure_unshared x s h : heap_wf h → unshared h s → unshared (ensure x h) s.
Proof.
  intros Hwf Hun. unfold ensure. destruct (ref_of h x); [done | by apply rebind_unshared].
Qed.

Lemma push_length x c h : length (objs (push x c h)) = length (objs h).
Proof. by rewrite push_objs. Qed.

Lemma rebind_lists_le x h : length (lists h) ≤ length (lists (rebind x h)).
Proof.
  unfold rebind. destruct (objs h !! x); simpl; [| done].
  rewrite length_app. lia.
Qed.

Lemma ensure_lists_le x h : length (lists h) ≤ length (lists (ensure x h)).
Proof. unfold ensure. destruct (ref_of h x); [done | apply rebind_lists_le]. Qed.

(** *** The store while [__init__] runs *)

(** After the rounds for [done], in terms of the store [h] at the call:
    the nodes of [h] look as they did, the new node lists one copy for
    each element of [done], and each copy looks like the node it copies
    but for its parent. *)
Record constructing (h : heap) (cls : Class) (name : string)
    (done : list addr) (H : heap) : Prop := {
  uc_wf : heap_wf H;
  uc_length : length (objs H) = S (length (objs h) + length done);
  uc_lists : length (lists h) ≤ length (lists H);
  uc_unshared : unshared H (length (objs h));
  uc_old : ∀ x, x < length (objs h) → view H x = view h x;
  uc_self : view H (length (objs h))
            = (Some (cls, name), None, seq (S (length (objs h))) (length done));
  uc_copies : ∀ i c, done !! i = Some c →
    view H (S (length (objs h) + i))
    = (tag_of h c, Some (length (objs h)), children_of h c)
}.

Lemma view_eq h h' x y :
  tag_of h' x = tag_of h y → parent_of h' x = parent_of h y →
  children_of h' x = children_of h y → view h' x = view h y.
Proof. unfold view. by intros -> -> ->. Qed.

Lemma constructing_start h cls name :
  heap_wf h →
  constructing h cls name [] (Heap (objs h ++ [Obj cls name None None]) (lists h)).
Proof.
  intros Hwf. pose proof Hwf as (Hpar & Hch & Hl)%heap_wf_obs.
  set (H := Heap (objs h ++ [Obj cls name None None]) (lists h)).
  assert (∀ x, x < length (objs h) → objs H !! x = objs h !! x) as Hold.
  { intros x Hx. unfold H. simpl. by rewrite lookup_app_l. }
  assert (objs H !! length (objs h) = Some (Obj cls name None None)) as Hnew.
  { unfold H. simpl. by rewrite lookup_app_r, Nat.sub_diag. }
  assert (length (objs H) = S (length (objs h))) as Hlen.
  { unfold H. simpl. rewrite length_app. simpl. lia. }
  split.
  - apply heap_wf_obs. split; [| split].
    + intros x p Hp. pose proof (parent_of_valid _ _ _ Hp) as Hx.
      destruct (decide (x < length (objs h))) as [Hlt | Hge].
      * unfold parent_of in Hp. rewrite Hold in Hp by done.
        destruct (Hpar x p Hp) as [L HL].
        assert (p < length (objs h)) as Hpv by by eapply ref_of_valid.
        unfold ref_of in *. rewrite Hold by done. by rewrite HL.
      * assert (x = length (objs h)) as -> by lia.
        unfold parent_of in Hp. by rewrite Hnew in Hp.
    + intros x L HL. pose proof (ref_of_valid _ _ _ HL) as Hx.
      destruct (decide (x < length (objs h))) as [Hlt | Hge].
      * unfold ref_of in HL. rewrite Hold in HL by done. by eapply Hch.
      * assert (x = length (objs h)) as -> by lia.
        unfold ref_of in HL. by rewrite Hnew in HL.
    + intros L l e HL He. specialize (Hl L l e HL He). lia.
  - rewrite Hlen. simpl. lia.
  - done.
  - intros y [L HL]. unfold ref_of in HL. by rewrite Hnew in HL.
  - intros x Hx. unfold view, tag_of, parent_of, children_of. by rewrite Hold.
  - unfold view, tag_of, parent_of, children_of. by rewrite Hnew.
  - intros i c. by rewrite lookup_nil.
Qed.

Lemma view_inv h x t q l :
  view h x = (t, q, l) → tag_of h x = t ∧ parent_of h x = q ∧ children_of h x = l.
Proof. unfold view. by intros [= -> -> ->]. Qed.

Lemma constructing_step h cls name done H c :
  heap_wf h → c < length (objs h) →
  constructing h cls name done H →
  constructing h cls name (done ++ [c]) (attach_copy (length (objs h)) c H).
Proof.
  intros Hwf Hc [HwfH Hlen Hlists Hun Hold Hself Hcopies].
  set (self := length (objs h)) in *.
  apply view_inv in Hself as (Htag_s & Hpar_s & Hch_s).
  destruct (view_inv _ _ _ _ _ (Hold c Hc)) as (Htag_c & Hpar_c & Hch_c).
  assert (c < length (objs H)) as HcH by lia.
  assert (self < length (objs H)) as HsH by lia.
  unfold attach_copy.
  set (c' := length (objs H)).
  set (h1 := clone c H).
  pose proof (clone_wf c H HwfH) as Hwf1. fold h1 in Hwf1.
  pose proof (clone_length c H HcH) as Hlen1. fold h1 c' in Hlen1.
  assert (unshared h1 self) as Hun1.
  { apply clone_unshared; [done | done | lia | done]. }
  set (h2 := match parent_of H c with
             | Some p => reparent c' None (rebind p h1)
             | None => h1
             end).
  assert (heap_wf h2 ∧ length (objs h2) = S c' ∧ unshared h2 self ∧
          length (lists h) ≤ length (lists h2) ∧
          (∀ y, tag_of h2 y = tag_of h1 y) ∧
          (∀ y, y ≠ c' → parent_of h2 y = parent_of h1 y) ∧
          (∀ y, children_of h2 y = children_of h1 y)) as
    (Hwf2 & Hlen2 & Hun2 & Hlists2 & Htag2 & Hpar2 & Hch2).
  { assert (lists h1 = lists H) as Hl1 by apply clone_lists.
    unfold h2. destruct (parent_of H c) as [p |]; [| by rewrite Hl1].
    split; [apply reparent_wf; [by apply rebind_wf | done] |].
    split; [by rewrite reparent_length, rebind_length |].
    split; [by apply reparent_unshared, rebind_unshared |].
    split; [rewrite reparent_lists; pose proof (rebind_lists_le p h1);
            rewrite Hl1 in *; lia |].
    split; [intros y; by rewrite reparent_tag, rebind_tag |].
    split; [intros y Hy; by rewrite reparent_parent_ne, rebind_parent |].
    intros y. by rewrite reparent_children, rebind_children. }
  clearbody h2.
  set (h3 := ensure self h2).
  pose proof (ensure_wf self h2 Hwf2) as Hwf3. fold h3 in Hwf3.
  pose proof (ensure_unshared self self h2 Hwf2 Hun2) as Hun3. fold h3 in Hun3.
  pose proof (ensure_has self h2 ltac:(lia)) as Hhas3. fold h3 in Hhas3.
  assert (∀ y, y ≠ self → ref_of h3 y ≠ ref_of h3 self) as Hother.
  { intros y Hne Heq. by apply Hne, Hun3. }
  assert (heap_wf (push self c' h3)) as Hwf4.
  { apply push_wf; [done |]. unfold h3. rewrite ensure_length. lia. }
  (* the observers of the final store *)
  assert (∀ y, tag_of (reparent c' (Some self) (push self c' h3)) y = tag_of h1 y)
    as Htag.
  { intros y. unfold h3. by rewrite reparent_tag, push_tag, ensure_tag, Htag2. }
  assert (∀ y, y ≠ c' →
            parent_of (reparent c' (Some self) (push self c' h3)) y = parent_of h1 y)
    as Hpar.
  { intros y Hy. unfold h3.
    by rewrite reparent_parent_ne, push_parent, ensure_parent, Hpar2. }
  assert (∀ y, y ≠ self →
            children_of (reparent c' (Some self) (push self c' h3)) y
            = children_of h1 y) as Hch.
  { intros y Hy. rewrite reparent_children, push_children_ne by by apply Hother.
    unfold h3. by rewrite ensure_children, Hch2. }
  assert (∀ y, y < c' → view h1 y = view H y) as Hv1.
  { intros y Hy. unfold h1. apply view_eq.
    - by apply clone_tag_old.
    - by apply clone_parent_old.
    - by apply clone_children_old. }
  split.
  - apply reparent_wf; [done |]. intros s [= <-]. by rewrite push_ref.
  - rewrite reparent_length, push_length. unfold h3.
    rewrite ensure_length, Hlen2. unfold c'. rewrite Hlen, length_app. simpl. lia.
  - rewrite reparent_lists, push_lists_length.
    pose proof (ensure_lists_le self h2) as Hle3. fold h3 in Hle3. lia.
  - by apply reparent_unshared, push_unshared.
  - intros x Hx. rewrite <- (Hold x Hx), <- (Hv1 x) by lia.
    apply view_eq; [apply Htag | apply Hpar; lia | apply Hch; lia].
  - rewrite length_app. simpl. fold self. unfold view.
    rewrite Htag, (Hpar self) by lia.
    rewrite reparent_children, push_children_eq by done.
    unfold h3. rewrite ensure_children, Hch2 by done.
    destruct (view_inv _ _ _ _ _ (Hv1 self ltac:(lia))) as (-> & -> & ->).
    rewrite Htag_s, Hpar_s, Hch_s. do 2 f_equal.
    rewrite Nat.add_1_r, seq_S. do 2 f_equal. unfold c'. lia.
  - fold self. intros i d Hi. apply lookup_app_Some in Hi as [Hi | [Hge Hi]].
    + pose proof (lookup_lt_Some _ _ _ Hi) as Hilt.
      rewrite <- (Hcopies i d Hi), <- (Hv1 (S (self + i))) by lia.
      apply view_eq; [apply Htag | apply Hpar; lia | apply Hch; lia].
    + apply list_lookup_singleton_Some in Hi as [Hi <-].
      assert (S (self + i) = c') as -> by (unfold c'; lia).
      unfold view. rewrite Htag, Hch by lia.
      rewrite reparent_parent_eq by (rewrite push_length; unfold h3;
                                     rewrite ensure_length; lia).
      unfold h1, c'.
      by rewrite clone_tag_new, clone_children_new, Htag_c, Hch_c.
Qed.

Lemma constructing_loop h cls name cs : ∀ done H,
  heap_wf h → Forall (λ c, c < length (objs h)) cs →
  constructing h cls name done H →
  ∃ H', forM (λ child,
               do c <- copy_copy child;
               NodeMixin.set_parent (anytree := anytree_since_2_10) c
                 (Some (length (objs h)))) cs H
        = (Ok (map (λ _, ()) cs), H')
        ∧ constructing h cls name (done ++ cs) H'.
Proof.
  induction cs as [| c cs IH]; intros done H Hwf Hcs Hinv.
  - exists H. by rewrite app_nil_r.
  - apply Forall_cons in Hcs as [Hc Hcs].
    pose proof (constructing_step h cls name done H c Hwf Hc Hinv) as Hstep.
    destruct (IH (done ++ [c]) _ Hwf Hcs Hstep) as (H' & Hrun & Hinv').
    exists H'. rewrite <- app_assoc in Hinv'. split; [| done].
    destruct Hinv as [HwfH Hlen _ _ Hold Hself _].
    apply view_inv in Hself as (_ & Hpar_s & _).
    destruct (view_inv _ _ _ _ _ (Hold c Hc)) as (_ & Hpar_c & _).
    cbn [forM].
    rewrite (bind_ok _ _ _ _ _
               (attach_copy_since_2_10 H (length (objs h)) c HwfH
                  ltac:(lia) ltac:(lia) Hpar_s
                  ltac:(rewrite Hpar_c; intros Hp;
                        pose proof (wf_parent_valid _ _ _ Hwf Hp); lia))).
    by mstep Hrun.
Qed.

(** With anytree since 2.10, [cls(name, children)] returns whatever parents
    the children have. *)
Lemma Symbol_init_since_2_10 h cls name L cs :
  heap_wf h → lists h !! L = Some cs →
  ∃ h', Symbol__init__ (anytree := anytree_since_2_10) cls name L h
        = (Ok (length (objs h)), h')
        ∧ constructing h cls name cs h'.
Proof.
  intros Hwf HL. unfold Symbol__init__.
  rewrite (bind_ok (alloc_obj _) _ h (length (objs h))
             (Heap (objs h ++ [Obj cls name None None]) (lists h)) eq_refl).
  rewrite (bind_ok _ _ _ _ _
             (get_list_ok (Heap (objs h ++ [Obj cls name None None]) (lists h))
                L cs HL)).
  destruct (constructing_loop h cls name cs []
              (Heap (objs h ++ [Obj cls name None None]) (lists h)) Hwf)
    as (h' & Hrun & Hinv).
  - apply Forall_forall. intros c Hc. by eapply wf_lists.
  - by apply constructing_start.
  - exists h'. by mstep Hrun.
Qed.

Lemma alloc_list_view h l x :
  heap_wf h → view (Heap (objs h) (lists h ++ [l])) x = view h x.
Proof.
  intros (_ & Hch & _)%heap_wf_obs. apply view_eq; [done | done |].
  rewrite !children_of_ref.
  change (ref_of (Heap (objs h) (lists h ++ [l])) x) with (ref_of h x).
  destruct (ref_of h x) as [L |] eqn:HL; [| done]. simpl.
  by rewrite lookup_app_l by by eapply Hch.
Qed.

(** With anytree since 2.10, a binary operator returns whatever parents its
    operands have. *)
Lemma BinaryOperator_since_2_10 h cls name l r :
  heap_wf h → l < length (objs h) → r < length (objs h) →
  let c := length (objs h) in
  ∃ h', BinaryOperator (anytree := anytree_since_2_10) cls name l r h = (Ok c, h') ∧
    heap_wf h' ∧
    length (objs h') = c + 3 ∧
    view h' c = (Some (cls, name), None, [S c; S (S c)]) ∧
    view h' (S c) = (tag_of h l, Some c, children_of h l) ∧
    view h' (S (S c)) = (tag_of h r, Some c, children_of h r) ∧
    (∀ x, x < c → view h' x = view h x).
Proof.
  intros Hwf Hl Hr c. rewrite BinaryOperator_unfold.
  set (h1 := Heap (objs h) (lists h ++ [[l; r]])).
  assert (heap_wf h1) as Hwf1 by (apply alloc_list_wf; [done | by repeat constructor]).
  assert (∀ x, view h1 x = view h x) as Hv1 by (intros x; by apply alloc_list_view).
  destruct (Symbol_init_since_2_10 h1 cls name (length (lists h)) [l; r] Hwf1)
    as (h' & Hrun & [Hwf' Hlen _ _ Hold Hself Hcopies]).
  { unfold h1. simpl. by rewrite lookup_app_r, Nat.sub_diag. }
  change (length (objs h1)) with c in *.
  exists h'. split; [done |]. split; [done |].
  split; [rewrite Hlen; simpl; lia |]. split; [done |].
  pose proof (Hcopies 0 l eq_refl) as H0. pose proof (Hcopies 1 r eq_refl) as H1.
  rewrite Nat.add_0_r in H0. rewrite Nat.add_1_r in H1.
  destruct (view_inv _ _ _ _ _ (Hv1 l)) as (Htl & _ & Hcl).
  destruct (view_inv _ _ _ _ _ (Hv1 r)) as (Htr & _ & Hcr).
  rewrite Htl, Hcl in H0. rewrite Htr, Hcr in H1.
  split; [done |]. split; [done |].
  intros x Hx. by rewrite Hold, Hv1.
Qed.

(** *** Trees under anytree since 2.10 *)

Lemma tag_of_lookup h x c n :
  tag_of h x = Some (c, n) →
  ∃ o, objs h !! x = Some o ∧ o_class o = c ∧ o_name o = n.
Proof.
  unfold tag_of. destruct (objs h !! x) as [o |]; [| done].
  intros [= <- <-]. eauto.
Qed.

Lemma children_view_of h x o :
  heap_wf h → objs h !! x = Some o → children_view h o = Some (children_of h x).
Proof.
  intros Hwf Hx. unfold children_of. rewrite Hx. unfold children_view.
  destruct (o_children o) as [L |] eqn:HL; [| done].
  destruct (lookup_lt_is_Some_2 (lists h) L) as [l Hl]; [by eapply wf_children |].
  by rewrite Hl.
Qed.

Lemma repr_view_intro h x c n ts :
  heap_wf h → tag_of h x = Some (c, n) →
  Forall2 (repr h) (children_of h x) ts → repr h x (Node x c n ts).
Proof.
  intros Hwf (o & Hx & <- & <-)%tag_of_lookup Hts.
  econstructor; [done | by apply children_view_of | done].
Qed.

Lemma repr_view_inv h x t :
  heap_wf h → repr h x t →
  ∃ c n ts, t = Node x c n ts ∧ tag_of h x = Some (c, n)
            ∧ Forall2 (repr h) (children_of h x) ts.
Proof.
  intros Hwf Hr. inversion Hr as [x' o cs ts Hx Hv Hts]; subst.
  exists (o_class o), (o_name o), ts. split; [done |].
  unfold tag_of. rewrite Hx. split; [done |].
  rewrite (children_view_of h x o Hwf Hx) in Hv. by injection Hv as <-.
Qed.

(** A tree of nodes that look the same in two stores is a tree in both. *)
Lemma repr_transfer h h' :
  heap_wf h → heap_wf h' →
  (∀ x, x < length (objs h) → view h' x = view h x) →
  ∀ t x, repr h x t → repr h' x t.
Proof.
  intros Hwf Hwf' Hview.
  induction t as [a c n ts IH] using tree_rect'. intros x Hr.
  destruct (repr_view_inv h x _ Hwf Hr) as (c' & n' & ts' & [= -> <- <- <-] & Htag & Hts).
  assert (x < length (objs h)) as Hx.
  { apply tag_of_lookup in Htag as (o & Ho & _). by eapply lookup_lt_Some. }
  destruct (view_inv _ _ _ _ _ (Hview x Hx)) as (Htag' & _ & Hch').
  apply repr_view_intro; [done | congruence |].
  rewrite Hch'. clear Hch' Htag' Hr.
  induction Hts as [| d t ds ts Hd Hds IHds]; [constructor |].
  apply Forall_cons in IH as [IHt IHts].
  constructor; [by apply IHt | by apply IHds].
Qed.

Lemma seq_trees h n : ∀ start,
  (∀ i, i < n → ∃ t, repr h (start + i) t) →
  ∃ ts, Forall2 (repr h) (seq start n) ts.
Proof.
  induction n as [| n IH]; intros start Hall; [exists []; constructor |].
  destruct (Hall 0) as [t Ht]; [lia |]. rewrite Nat.add_0_r in Ht.
  destruct (IH (S start)) as [ts Hts].
  { intros i Hi. destruct (Hall (S i)) as [t' Ht']; [lia |].
    exists t'. by replace (S start + i) with (start + S i) by lia. }
  exists (t :: ts). by constructor.
Qed.

Lemma constructing_all_repr h cls name cs h' :
  heap_wf h → all_repr h → Forall (λ c, c < length (objs h)) cs →
  constructing h cls name cs h' → all_repr h'.
Proof.
  intros Hwf Hall Hcs [Hwf' Hlen _ _ Hold Hself Hcopies].
  set (self := length (objs h)) in *.
  assert (∀ t x, repr h x t → repr h' x t) as Hmove by by apply repr_transfer.
  assert (∀ i c, cs !! i = Some c → ∃ t, repr h' (S (self + i)) t) as Hcopy.
  { intros i c Hi.
    destruct (Hall c) as [t Ht]; [by eapply Forall_lookup_1 in Hcs |].
    destruct (repr_view_inv h c t Hwf Ht) as (cl & nm & ts & -> & Htag & Hts).
    destruct (view_inv _ _ _ _ _ (Hcopies i c Hi)) as (Htag' & _ & Hch').
    exists (Node (S (self + i)) cl nm ts).
    apply repr_view_intro; [done | congruence |]. rewrite Hch'.
    eapply Forall2_impl; [exact Hts |]. intros d t'. apply Hmove. }
  intros x Hx. rewrite Hlen in Hx.
  destruct (decide (x < self)) as [Hlt | Hge].
  - destruct (Hall x Hlt) as [t Ht]. exists t. by apply Hmove.
  - destruct (decide (x = self)) as [-> | Hne].
    + destruct (view_inv _ _ _ _ _ Hself) as (Htag & _ & Hch).
      destruct (seq_trees h' (length cs) (S self)) as [ts Hts].
      { intros i Hi. destruct (lookup_lt_is_Some_2 cs i Hi) as [c Hc].
        by apply (Hcopy i c). }
      exists (Node self cls name ts). apply repr_view_intro; [done | done |].
      by rewrite Hch.
    + destruct (lookup_lt_is_Some_2 cs (x - S self)) as [c Hc]; [lia |].
      destruct (Hcopy _ c Hc) as [t Ht]. exists t.
      by replace (S (self + (x - S self))) with x in Ht by lia.
Qed.

(** The invariant of the stores a sequence of calls produces under anytree
    since 2.10. *)
Record heap_ok_since (h : heap) : Prop := {
  oks_wf : heap_wf h;
  oks_default : default_children < length (lists h);
  oks_repr : all_repr h
}.

Lemma heap0_ok_since : heap_ok_since heap0.
Proof.
  split; [apply heap0_wf | cbv; lia |]. intros x Hx. simpl in Hx. lia.
Qed.

Lemma Symbol_init_ok_since h cls name L :
  heap_ok_since h → L < length (lists h) →
  heap_ok_since (Symbol__init__ (anytree := anytree_since_2_10) cls name L h).2.
Proof.
  intros [Hwf Hdef Hall] HL.
  destruct (lookup_lt_is_Some_2 _ _ HL) as [cs Hcs].
  destruct (Symbol_init_since_2_10 h cls name L cs Hwf Hcs) as (h' & -> & Hinv).
  simpl. split.
  - apply (uc_wf _ _ _ _ _ Hinv).
  - pose proof (uc_lists _ _ _ _ _ Hinv). lia.
  - eapply constructing_all_repr; [done | done | | done].
    apply Forall_forall. intros c Hc. by eapply wf_lists.
Qed.

Lemma lazy_ext_ok_since h h' : lazy_ext h h' → heap_ok_since h → heap_ok_since h'.
Proof.
  intros Hle [Hwf Hdef Hall]. split.
  - by eapply lazy_ext_wf.
  - pose proof (lazy_ext_lists_len _ _ Hle). lia.
  - by eapply lazy_ext_all_repr.
Qed.

Lemma exec_ok_since py_hash c h :
  heap_ok_since h → heap_ok_since (exec py_hash (anytree := anytree_since_2_10) c h).
Proof.
  intros Hok. pose proof Hok as [Hwf Hdef Hall].
  destruct c as [cls name [L |] | l | op a v | x | fuel x | fuel x]; simpl.
  - case_bool_decide as HL; [by apply Symbol_init_ok_since | done].
  - by apply Symbol_init_ok_since.
  - destruct (forallb _ l) eqn:Hl; [| done]. simpl.
    assert (Forall (λ c, c < length (objs h)) l) as Hl'.
    { apply Forall_forall. intros c Hc. rewrite forallb_forall in Hl.
      specialize (Hl c (proj1 (list_elem_of_In _ _) Hc)).
      by apply bool_decide_eq_true in Hl. }
    split; [by apply alloc_list_wf | | by apply heap_ext_all_repr_lists].
    simpl. rewrite length_app. lia.
  - destruct (bool_decide (a < length (objs h)) && value_ok h v) eqn:Hg; [| done].
    apply andb_true_iff in Hg as [Ha Hv]. apply bool_decide_eq_true in Ha.
    destruct v as [b | n | s |]; try (by rewrite arith_other).
    simpl in Hv. apply bool_decide_eq_true in Hv.
    rewrite arith_sym, BinaryOperator_unfold.
    apply Symbol_init_ok_since; [| simpl; rewrite length_app; simpl; lia].
    split; [apply alloc_list_wf; [done | by repeat constructor] | |
            by apply heap_ext_all_repr_lists].
    simpl. rewrite length_app. lia.
  - eapply lazy_ext_ok_since; [| done]. apply reads_snd, reads_children.
  - eapply lazy_ext_ok_since; [| done]. apply reads_snd, reads_Symbol_id.
  - eapply lazy_ext_ok_since; [| done]. apply reads_snd, reads_PreOrderIter_iter.
Qed.

Lemma exec_all_ok_since py_hash cs : ∀ h,
  heap_ok_since h →
  heap_ok_since (exec_all py_hash (anytree := anytree_since_2_10) cs h).
Proof.
  induction cs as [| c cs IH]; intros h Hok; [done |].
  simpl. by apply IH, exec_ok_since.
Qed.

(** ** Shallow copies *)

(** [a = Symbol("a"); b = Symbol("b"); c = Symbol("c"); s = a + b;
    m = s * c], returning [m]. *)
Definition build_product {anytree : Anytree} : M addr :=
  do a <- Symbol__init__ CSymbol "a" default_children;
  do b <- Symbol__init__ CSymbol "b" default_children;
  do c <- Symbol__init__ CSymbol "c" default_children;
  do s <- Symbol__add__ a (VSym b);
  Symbol__mul__ s (VSym c).

(** C3, on [(a + b) * c].  The root [m] (node 6) records the child 7, a copy
    of the addition [s] (node 3); 7 records the children 4 and 5, but their
    parent is 3, the original, not 7; and 7 and 3 hold the same list object
    as their children, so the copy shares its whole subtree with the
    original. *)
Theorem shallow_copy_shares_subtree :
  build_product heap0 = (Ok 6, heap_prod) ∧
  children_of heap_prod 6 = [7; 8] ∧
  children_of heap_prod 7 = [4; 5] ∧
  parent_of heap_prod 4 = Some 3 ∧
  parent_of heap_prod 5 = Some 3 ∧
  parent_of heap_prod 7 = Some 6 ∧
  children_of heap_prod 3 = [4; 5] ∧
  (o_children <$> objs heap_prod !! 7) = Some (Some 2) ∧
  (o_children <$> objs heap_prod !! 3) = Some (Some 2).
Proof. repeat split. Qed.

(** The operands of [(a + b) * c] have no parent when they are used, so the
    version of anytree makes no difference to it. *)
Lemma build_product_any_anytree :
  ∀ anytree : Anytree, build_product (anytree := anytree) heap0 = (Ok 6, heap_prod).
Proof. by intros [| []]. Qed.

(** [a = Symbol("a"); b = Symbol("b"); s = a + b; a1 = s.children[0]],
    then [op a1 b] and [op a a1]. *)
Definition reuse_child {anytree : Anytree} (op : binop) (left : bool)
  : M addr :=
  do a <- Symbol__init__ CSymbol "a" default_children;
  do b <- Symbol__init__ CSymbol "b" default_children;
  do s <- Symbol__add__ a (VSym b);
  do cs <- NodeMixin.children s;
  match cs with
  | a1 :: _ => if left then arith op a1 (VSym b) else arith op a (VSym a1)
  | [] => raise InvalidRef
  end.

(** With anytree before 2.10 an operand taken out of a tree is refused:
    with [a1 = (a + b).children[0]], each of the four constructors raises
    [AssertionError] ("Tree internal data is corrupt."), whether [a1] is
    [self] or [other].  The copy of [a1] keeps the parent of [a1], which
    does not list the copy, and [__detach] asserts that it does. *)
Lemma reuse_child_before_2_10 :
  ∀ op left, (reuse_child (anytree := anytree_before_2_10) op left heap0).1
             = Raise (AssertionError "Tree internal data is corrupt.").
Proof. by intros [] []. Qed.

(** With anytree since 2.10 the same calls return the composite node. *)
Lemma reuse_child_since_2_10 :
  ∀ op left, (reuse_child (anytree := anytree_since_2_10) op left heap0).1 = Ok 5.
Proof. by intros [] []. Qed.

(** With anytree before 2.10, what holds of the four constructors: an
    operand that is not a Symbol is refused before anything is created, and
    operands without a parent give the composite node. *)
Lemma arith_rejects_iff h op a v :
  heap_wf h → a < length (objs h) → value_ok h v = true →
  (∃ msg, (arith op a v h).1 = Raise (NotImplementedError msg)) ↔ (∀ b, v ≠ VSym b).
Proof.
  intros Hwf Ha Hv. split.
  - intros [msg Hres] b ->. simpl in Hv. apply bool_decide_eq_true in Hv.
    rewrite arith_sym in Hres.
    pose proof (BinaryOperator_outcome h (op_class op) (op_name op) a b Hwf Ha Hv) as Hout.
    rewrite Hres in Hout. inversion Hout.
  - intros Hns. exists "". by rewrite arith_other.
Qed.

Lemma arith_rejects_unchanged h op a v :
  (∀ b, v ≠ VSym b) → (arith op a v h).2 = h.
Proof. intros Hns. by rewrite arith_other. Qed.

Lemma arith_unattached_ok h op a b oa ob :
  heap_wf h → unattached h a oa → unattached h b ob →
  (arith op a (VSym b) h).1 = Ok (length (objs h)) ∧
  tag_of (arith op a (VSym b) h).2 (length (objs h)) = Some (op_class op, op_name op).
Proof.
  intros Hwf Ha Hb. rewrite arith_sym, BinaryOperator_unfold.
  set (h1 := Heap (objs h) (lists h ++ [[a; b]])).
  assert (heap_ext h h1) as Hext by apply heap_ext_alloc_list.
  rewrite (Symbol_init_ok h1 (op_class op) (op_name op) (length (lists h)) [a; b] [oa; ob]).
  - split; [done |]. unfold tag_of.
    change (length (objs h)) with (length (objs h1)).
    cbn [snd]. by rewrite (built_lookup_new h1 (op_class op) (op_name op) [oa; ob]).
  - unfold h1. simpl. by rewrite lookup_app_r, Nat.sub_diag.
  - repeat constructor; by eapply unattached_ext.
Qed.



(** ** Order of children *)

(** [a = Symbol(na); b = Symbol(nb)], then the ids of [a], [b], [a + b] and
    [b + a]. *)
Definition order_ids (py_hash : Class → string → list Z → Z) (na nb : string)
  : M (Z * Z * Z * Z) :=
  do a <- Symbol__init__ CSymbol na default_children;
  do b <- Symbol__init__ CSymbol nb default_children;
  do ab <- Symbol__add__ a (VSym b);
  do ba <- Symbol__add__ b (VSym a);
  do ia <- Symbol_id py_hash 2 a;
  do ib <- Symbol_id py_hash 2 b;
  do iab <- Symbol_id py_hash 2 ab;
  do iba <- Symbol_id py_hash 2 ba;
  ret (ia, ib, iab, iba).

(** C7 as stated fails: in the process [CPython.process_hash] the leaves
    ["a"] and ["b"] have the ids [0] and [2^61 - 1], which differ, while
    [a + b] and [b + a] have the same id (the hash of a tuple starts by
    reducing each integer item modulo [2^61 - 1]). *)
Lemma order_sensitivity_collision :
  ∃ i h,
    order_ids CPython.process_hash "a" "b" heap0
    = (Ok (0%Z, (2 ^ 61 - 1)%Z, i, i), h) ∧
    (0 ≠ 2 ^ 61 - 1)%Z.
Proof. eexists _, _. split; [vm_compute; reflexivity | done]. Qed.

(** C7, amended.  For leaves [a] and [b] without parents, [(a + b).id] is
    the hash of [(Addition, "+", a.id, b.id)] and [(b + a).id] the hash of
    [(Addition, "+", b.id, a.id)]; the two ids differ whenever the hash does
    not collide on these two tuples. *)
Theorem order_sensitivity py_hash h a b oa ob fuel :
  heap_wf h → leaf h a oa → leaf h b ob → 2 ≤ fuel →
  let ia := py_hash (o_class oa) (o_name oa) [] in
  let ib := py_hash (o_class ob) (o_name ob) [] in
  py_hash CAddition "+" [ia; ib] ≠ py_hash CAddition "+" [ib; ia] →
  ∃ ab ba iab iba h1 h2 h3 h4 h5 h6,
    Symbol__add__ a (VSym b) h = (Ok ab, h1) ∧
    Symbol__add__ b (VSym a) h1 = (Ok ba, h2) ∧
    Symbol_id py_hash fuel a h2 = (Ok ia, h3) ∧
    Symbol_id py_hash fuel b h3 = (Ok ib, h4) ∧
    Symbol_id py_hash fuel ab h4 = (Ok iab, h5) ∧
    Symbol_id py_hash fuel ba h5 = (Ok iba, h6) ∧
    iab = py_hash CAddition "+" [ia; ib] ∧
    iba = py_hash CAddition "+" [ib; ia] ∧
    iab ≠ iba.
Proof.
  intros Hwf Ha Hb Hfuel ia ib Hne.
  pose proof (leaf_repr _ _ _ Ha) as Hta.
  pose proof (leaf_repr _ _ _ Hb) as Htb.
  destruct Ha as [Ha _], Hb as [Hb _].
  destruct (BinaryOperator_ok h CAddition "+" a b oa ob _ _ Hwf Ha Hb Hta Htb)
    as (Hrun1 & Hwf1 & Hext1 & Hrab & _).
  set (ab := length (objs h)) in *.
  set (h1 := built _ CAddition "+" [oa; ob]) in *.
  destruct (BinaryOperator_ok h1 CAddition "+" b a ob oa _ _ Hwf1
              (unattached_ext _ _ _ _ Hext1 Hb) (unattached_ext _ _ _ _ Hext1 Ha)
              (heap_ext_repr _ _ _ _ Hext1 Htb) (heap_ext_repr _ _ _ _ Hext1 Hta))
    as (Hrun2 & Hwf2 & Hext2 & Hrba & _).
  set (ba := length (objs h1)) in *.
  set (h2 := built _ CAddition "+" [ob; oa]) in *.
  assert (heap_ext h h2) as Hext by (by eapply heap_ext_trans).
  destruct (Symbol_id_ok py_hash fuel h2 a _ (heap_ext_repr _ _ _ _ Hext Hta))
    as (h3 & Hid3 & Hle3); [simpl; lia |].
  destruct (Symbol_id_ok py_hash fuel h3 b _
              (lazy_ext_repr _ _ _ _ Hle3 (heap_ext_repr _ _ _ _ Hext Htb)))
    as (h4 & Hid4 & Hle4); [simpl; lia |].
  pose proof (lazy_ext_trans _ _ _ Hle3 Hle4) as Hle24.
  destruct (Symbol_id_ok py_hash fuel h4 ab _
              (lazy_ext_repr _ _ _ _ Hle24 (heap_ext_repr _ _ _ _ Hext2 Hrab)))
    as (h5 & Hid5 & Hle5); [simpl; lia |].
  pose proof (lazy_ext_trans _ _ _ Hle24 Hle5) as Hle25.
  destruct (Symbol_id_ok py_hash fuel h5 ba _ (lazy_ext_repr _ _ _ _ Hle25 Hrba))
    as (h6 & Hid6 & _); [simpl; lia |].
  exists ab, ba, (py_hash CAddition "+" [ia; ib]), (py_hash CAddition "+" [ib; ia]),
    h1, h2, h3, h4, h5, h6.
  repeat split; [done | done | done | done | apply Hid5 | apply Hid6 | done].
Qed.

Lemma order_sensitivity_witness :
  ∃ ab ba iab iba h1 h2 h3 h4 h5 h6,
    Symbol__add__ 0 (VSym 2) heap_abc = (Ok ab, h1) ∧
    Symbol__add__ 2 (VSym 0) h1 = (Ok ba, h2) ∧
    Symbol_id CPython.process_hash 2 0 h2 = (Ok 0%Z, h3) ∧
    Symbol_id CPython.process_hash 2 2 h3
      = (Ok (CPython.process_hash CSymbol "c" []), h4) ∧
    Symbol_id CPython.process_hash 2 ab h4 = (Ok iab, h5) ∧
    Symbol_id CPython.process_hash 2 ba h5 = (Ok iba, h6) ∧
    iab = CPython.process_hash CAddition "+"
            [0%Z; CPython.process_hash CSymbol "c" []] ∧
    iba = CPython.process_hash CAddition "+"
            [CPython.process_hash CSymbol "c" []; 0%Z] ∧
    iab ≠ iba.
Proof.
  apply (order_sensitivity CPython.process_hash heap_abc 0 2
           (Obj CSymbol "a" None None) (Obj CSymbol "c" None None) 2).
  - apply heap_wfb_sound. reflexivity.
  - repeat split.
  - repeat split.
  - lia.
  - vm_compute. discriminate.
Defined.

(** * The constructor of [ScikitChebyshev2DSubMesh] *)

Module Chebyshev.

(** A spatial variable as the constructor reads it: [name], [coord_sys]
    and [id]. *)
Record SpatialVariable := {
  sv_name : string;
  sv_coord_sys : string;
  sv_id : Z
}.

Inductive exn :=
| GeometryError (msg : string)
| DomainError (msg : string)
| KeyError
| IndexError.

Inductive res (A : Type) :=
| Ok (a : A)
| Raise (e : exn).
Arguments Ok {A} a.
Arguments Raise {A} e.

Section Init.

(** Numbers are floating point and the arrays are numpy's: the values are
    kept abstract.  The checks of the constructor do not look at the array
    of edges computed from the number of Chebyshev nodes and the two
    limits, so what is proved of them here holds for any such computation;
    the one of the source is [ChebyshevFacts.edges_entry]. *)
Context {num array Tabs Self : Type}.
Variable chebyshev_edges : Z → num → num → array.
(** The initializer of the base class [ScikitSubMesh2D], which is in
    another file: it receives the edges, the coordinate system and the
    tabs, and sets up the object. *)
Variable ScikitSubMesh2D_init :
  gmap string array → string → Tabs → Self → res () * Self.

(** [lims]: a dict from spatial variables to dicts with keys ["min"] and
    ["max"], in insertion order; [npts]: a dict from variable ids to
    numbers of points. *)
Definition Lims : Type := list (SpatialVariable * gmap string num).
Definition Npts : Type := gmap Z Z.

Definition msg_count (n : nat) : string :=
  "lims should contain exactly two variables, not " +:+ pretty n.

Definition newline : string := String (Ascii.ascii_of_nat 10) "".

Definition msg_coord (c0 c1 : string) : string :=
  "spatial variables should have the same coordinate system," +:+ newline +:+
  "                but have coordinate systems " +:+ c0 +:+ " and " +:+ c1.

Definition msg_name (n : string) : string :=
  "spatial variable must be y or z not " +:+ n.

Definition is_y_or_z (n : string) : bool :=
  String.eqb n "y" || String.eqb n "z".

(** The loop [for var in spatial_vars], with [edges] as accumulator. *)
Fixpoint compute_edges (npts : Npts) (vars : Lims) (edges : gmap string array)
  : res (gmap string array) :=
  match vars with
  | [] => Ok edges
  | (var, lim) :: vars' =>
      if negb (is_y_or_z (sv_name var)) then
        Raise (DomainError (msg_name (sv_name var)))
      else
        match npts !! sv_id var with
        | None => Raise KeyError
        | Some n =>
            let N := (n - 2)%Z in
            match lim !! "min" with
            | None => Raise KeyError
            | Some a =>
                match lim !! "max" with
                | None => Raise KeyError
                | Some b =>
                    compute_edges npts vars'
                      (<[sv_name var := chebyshev_edges N a b]> edges)
                end
            end
        end
  end.

Definition init (lims : Lims) (npts : Npts) (tabs : Tabs) (self : Self)
  : res () * Self :=
  if negb (Nat.eqb (length lims) 2) then
    (Raise (GeometryError (msg_count (length lims))), self)
  else
    match lims with
    | (v0, _) :: (v1, _) :: _ =>
        if String.eqb (sv_coord_sys v0) (sv_coord_sys v1) then
          let coord_sys := sv_coord_sys v0 in
          match compute_edges npts lims ∅ with
          | Ok edges => ScikitSubMesh2D_init edges coord_sys tabs self
          | Raise e => (Raise e, self)
          end
        else
          (Raise (DomainError (msg_coord (sv_coord_sys v0) (sv_coord_sys v1))),
           self)
    | _ => (Raise IndexError, self)
    end.

(** The inputs of the edge computation of one variable are there. *)
Definition edges_computable (npts : Npts) (v : SpatialVariable)
    (lim : gmap string num) : Prop :=
  is_Some (npts !! sv_id v) ∧ is_Some (lim !! "min") ∧ is_Some (lim !! "max").

(** The inputs the constructor rejects by its own checks. *)
Definition invalid (lims : Lims) (npts : Npts) : Prop :=
  length lims ≠ 2 ∨
  ∃ v0 l0 v1 l1, lims = [(v0, l0); (v1, l1)] ∧
    (sv_coord_sys v0 ≠ sv_coord_sys v1 ∨
     is_y_or_z (sv_name v0) = false ∨
     (edges_computable npts v0 l0 ∧ is_y_or_z (sv_name v1) = false)).

(** C9, amended.  When [lims] does not hold exactly two variables the
    constructor raises [GeometryError]; when it holds two and their
    coordinate systems differ, or the first one's name is not [y] or [z],
    or the second one's name is not [y] or [z] and the edges of the
    first can be computed, it raises [DomainError]; in each case the
    base initializer has not run and the object is untouched. *)
Theorem init_validates lims npts tabs self :
  invalid lims npts →
  ∃ e, init lims npts tabs self = (Raise e, self) ∧
       (length lims ≠ 2 → e = GeometryError (msg_count (length lims))) ∧
       (length lims = 2 → ∃ msg, e = DomainError msg).
Proof.
  intros [Hlen | (v0 & l0 & v1 & l1 & -> & Hbad)]; unfold init.
  - destruct (Nat.eqb_spec (length lims) 2) as [? | _]; [done |]. simpl.
    eexists. split; [done |]. split; [done | by intros ?].
  - simpl. destruct (String.eqb_spec (sv_coord_sys v0) (sv_coord_sys v1)) as [Hc | Hc].
    + destruct Hbad as [? | [Hn0 | [(Hn & Hmin & Hmax) Hn1]]]; [done | |].
      * rewrite Hn0. simpl. eexists. split; [done |]. split; [done | eauto].
      * destruct (is_y_or_z (sv_name v0)); simpl.
        -- destruct Hn as [n ->], Hmin as [a ->], Hmax as [b ->].
           rewrite Hn1. simpl. eexists. split; [done |]. split; [done | eauto].
        -- eexists. split; [done |]. split; [done | eauto].
    + eexists. split; [done |]. split; [done | eauto].
Qed.

End Init.

Definition var_y : SpatialVariable := Build_SpatialVariable "y" "cartesian" 11.
Definition var_z : SpatialVariable := Build_SpatialVariable "z" "cartesian" 12.
Definition var_x : SpatialVariable := Build_SpatialVariable "x" "cartesian" 13.

Definition unit_interval : gmap string Z := {["min" := 0%Z; "max" := 1%Z]}.

(** Stand-ins for the numerical parts, for running the constructor. *)
Definition edges_stub (N a b : Z) : list Z := [a; b].
Definition base_stub (edges : gmap string (list Z)) (coord_sys : string)
    (tabs : ()) (self : option string) : res () * option string :=
  (Ok (), Some coord_sys).

(** C9 as stated fails: with [lims = {y: .., x: ..}] and an [npts] that has
    no entry for [y], the name [x] is outside {y, z}, yet the constructor
    raises [KeyError] (from [npts[var.id]] on the first variable), not
    [DomainError]. *)
Lemma init_KeyError_before_name_check :
  is_y_or_z (sv_name var_x) = false ∧
  init edges_stub base_stub [(var_y, unit_interval); (var_x, unit_interval)]
       ∅ () None
  = (Raise KeyError, None).
Proof. split; reflexivity. Qed.

Lemma init_validates_witness :
  ∃ e, init edges_stub base_stub [(var_y, unit_interval); (var_x, unit_interval)]
            {[11%Z := 10%Z]} () None = (Raise e, None) ∧
       (length [(var_y, unit_interval); (var_x, unit_interval)] ≠ 2 →
        e = GeometryError (msg_count 2)) ∧
       (length [(var_y, unit_interval); (var_x, unit_interval)] = 2 →
        ∃ msg, e = DomainError msg).
Proof.
  apply (init_validates edges_stub base_stub
           [(var_y, unit_interval); (var_x, unit_interval)] {[11%Z := 10%Z]} () None).
  right. exists var_y, unit_interval, var_x, unit_interval.
  split; [reflexivity |]. right. right.
  split; [| reflexivity].
  repeat split; vm_compute; eauto.
Defined.

End Chebyshev.

(** * Further properties of the expression tree *)

(** ** What a node looks like from outside *)

Lemma lazy_ext_view h h' x : lazy_ext h h' → view h' x = view h x.
Proof.
  intros Hle. unfold view, tag_of, parent_of, children_of.
  destruct (objs h !! x) as [o |] eqn:Hx.
  - destruct (le_obj _ _ Hle x o Hx) as (o' & Hx' & Hc & Hn & Hp & Hch).
    rewrite Hx'. simpl. rewrite Hc, Hn, Hp. f_equal.
    unfold children_view.
    destruct Hch as [-> | (Hnone & L & -> & _ & Hnil)].
    + destruct (o_children o) as [L |]; [| done].
      destruct (le_lists _ _ Hle) as [k Hk]. rewrite Hk.
      destruct (lists h !! L) as [l |] eqn:HL.
      * by rewrite (lookup_app_l_Some _ _ _ _ HL).
      * apply lookup_ge_None in HL. rewrite lookup_app_r by done.
        destruct (replicate k [] !! (L - length (lists h))) as [l |] eqn:Hr; [| done].
        by apply lookup_replicate in Hr as [-> _].
    + by rewrite Hnone, Hnil.
  - assert (objs h' !! x = None) as ->; [| done].
    apply lookup_ge_None. rewrite (le_len _ _ Hle). by apply lookup_ge_None.
Qed.

Lemma heap_ext_view h h' x :
  heap_ext h h' → heap_wf h → x < length (objs h) → view h' x = view h x.
Proof.
  intros Hext Hwf Hx. unfold view.
  rewrite (heap_ext_children_of _ _ _ Hext Hwf Hx).
  unfold tag_of, parent_of.
  destruct (lookup_lt_is_Some_2 _ _ Hx) as [o Ho].
  by rewrite Ho, (heap_ext_obj _ _ _ _ Hext Ho).
Qed.

(** X1.  [id] and [pre_order], whatever they return and whatever the store,
    create no object and leave the class, name, parent and children of
    every node as they were. *)
Theorem id_and_pre_order_only_read py_hash fuel x h :
  let h1 := (Symbol_id py_hash fuel x h).2 in
  let h2 := (Symbol_pre_order fuel x h).2 in
  (length (objs h1) = length (objs h) ∧ ∀ y, view h1 y = view h y) ∧
  (length (objs h2) = length (objs h) ∧ ∀ y, view h2 y = view h y).
Proof.
  intros h1 h2.
  pose proof (reads_snd _ h (reads_Symbol_id py_hash fuel x)) as Hle1.
  pose proof (reads_snd _ h (reads_PreOrderIter_iter fuel [x])) as Hle2.
  split; (split; [by apply le_len | intros y; by apply lazy_ext_view]).
Qed.

(** X2.  The tree is immutable: in a store produced by any sequence of calls,
    no further call (construction, arithmetic, [id], [pre_order],
    [children]) changes the class, name, parent or children of a node that
    exists. *)
Theorem calls_keep_existing_nodes py_hash calls c x :
  let h := exec_all py_hash calls heap0 in
  x < length (objs h) →
  view (exec py_hash c h) x = view h x.
Proof.
  intros h Hx.
  assert (heap_ok h) as Hok by apply exec_all_ok, heap0_ok.
  destruct (exec_step py_hash c h Hok) as [_ [Hext | Hle]].
  - apply heap_ext_view; [done | apply (ok_wf _ Hok) | done].
  - by apply lazy_ext_view.
Qed.

Lemma calls_keep_existing_nodes_witness :
  view (exec CPython.process_hash (Arith OpMul 3 (VSym 2)) heap_sum) 3
  = view heap_sum 3.
Proof.
  apply (calls_keep_existing_nodes CPython.process_hash
           [New CSymbol "a" None; New CSymbol "b" None; New CSymbol "c" None;
            Arith OpAdd 0 (VSym 1)] (Arith OpMul 3 (VSym 2)) 3).
  vm_compute. lia.
Defined.

Lemma head_preorder t : head (preorder t) = Some (root t).
Proof. by destruct t. Qed.

Lemma repr_root h x t : repr h x t → root t = x.
Proof. by inversion 1. Qed.

(** X3.  No sequence of calls builds a cycle or leaves a child that does
    not exist, with anytree before 2.10 and with anytree since 2.10: in
    every store such a sequence produces, every node is the root of a finite
    tree, made of the node's class and name and, in stored order, the trees
    of its children. *)
Theorem reachable_nodes_are_trees py_hash (anytree : Anytree) calls x :
  anytree = anytree_before_2_10 ∨ anytree = anytree_since_2_10 →
  let h := exec_all py_hash (anytree := anytree) calls heap0 in
  x < length (objs h) → ∃ t, repr h x t ∧ root t = x.
Proof.
  intros Hv h Hx.
  assert (all_repr h) as Hall.
  { destruct Hv as [-> | ->].
    - apply ok_repr, exec_all_ok, heap0_ok.
    - apply oks_repr, exec_all_ok_since, heap0_ok_since. }
  destruct (Hall x Hx) as [t Ht]. exists t. split; [done | by eapply repr_root].
Qed.

Lemma reachable_nodes_are_trees_witness :
  let h := exec_all CPython.process_hash (anytree := anytree_since_2_10)
             [New CSymbol "a" None; New CSymbol "b" None;
              Arith OpAdd 0 (VSym 1); Arith OpMul 3 (VSym 2)] heap0 in
  ∃ t, repr h 6 t ∧ root t = 6.
Proof.
  apply (reachable_nodes_are_trees CPython.process_hash anytree_since_2_10
           [New CSymbol "a" None; New CSymbol "b" None;
            Arith OpAdd 0 (VSym 1); Arith OpMul 3 (VSym 2)] 6).
  - by right.
  - vm_compute. lia.
Defined.

(** ** Construction *)

Lemma built_view_new h cls name ocs :
  view (built h cls name ocs) (length (objs h))
  = (Some (cls, name), None, seq (S (length (objs h))) (length ocs)).
Proof.
  unfold view. rewrite built_children_new. unfold tag_of, parent_of.
  by rewrite built_lookup_new.
Qed.

Lemma built_view_copy h cls name ocs i c oc :
  heap_wf h → ocs !! i = Some oc → objs h !! c = Some oc →
  view (built h cls name ocs) (S (length (objs h) + i))
  = (tag_of h c, Some (length (objs h)), children_of h c).
Proof.
  intros Hwf Hi Hc. unfold view, tag_of, parent_of, children_of.
  rewrite (built_lookup_copy h cls name ocs i oc Hi), Hc. simpl. do 2 f_equal.
  unfold children_view. simpl. destruct (o_children oc) as [L |] eqn:HL; [| done].
  destruct (lookup_lt_is_Some_2 _ _ (wf_children _ Hwf _ _ _ Hc HL)) as [l Hl].
  by rewrite Hl, (built_lookup_list_old h cls name ocs L l Hl).
Qed.

Lemma built_view_old h cls name ocs x :
  heap_wf h → x < length (objs h) → view (built h cls name ocs) x = view h x.
Proof. intros Hwf Hx. apply heap_ext_view; [apply heap_ext_built | done | done]. Qed.

Lemma parent_of_None_unattached h cs :
  Forall (λ c, c < length (objs h) ∧ parent_of h c = None) cs →
  ∃ ocs, Forall2 (unattached h) cs ocs.
Proof.
  induction 1 as [| c cs [Hc Hp] _ [ocs IH]].
  - exists []. constructor.
  - destruct (lookup_lt_is_Some_2 _ _ Hc) as [oc Hoc].
    exists (oc :: ocs). constructor; [| done].
    split; [done |]. unfold parent_of in Hp. by rewrite Hoc in Hp.
Qed.

Lemma unattached_parent_of h c oc : unattached h c oc → parent_of h c = None.
Proof. intros [Hc Hp]. unfold parent_of. by rewrite Hc. Qed.

(** X4.  [cls(name, children)] on children that have no parent returns a
    new node without parent whose children are new objects, one for each
    element of [children] in order (an element listed twice gives two
    objects); each has the class, the name and the children of the element
    it was copied from and the new node as parent; the nodes that existed
    are as they were. *)
Theorem Symbol_init_attaches_copies h cls name L cs :
  heap_wf h → lists h !! L = Some cs →
  Forall (λ c, parent_of h c = None) cs →
  let self := length (objs h) in
  ∃ h', Symbol__init__ cls name L h = (Ok self, h') ∧
    length (objs h') = S (self + length cs) ∧
    view h' self = (Some (cls, name), None, seq (S self) (length cs)) ∧
    (∀ i c, cs !! i = Some c →
       view h' (S (self + i)) = (tag_of h c, Some self, children_of h c)) ∧
    (∀ x, x < self → view h' x = view h x).
Proof.
  intros Hwf HL Hcs self.
  destruct (parent_of_None_unattached h cs) as [ocs Hocs].
  { apply Forall_forall. intros c Hc. split.
    - by eapply wf_lists.
    - rewrite Forall_forall in Hcs. by apply Hcs. }
  exists (built h cls name ocs).
  split; [apply (Symbol_init_ok h cls name L cs ocs HL Hocs) |].
  split; [by rewrite built_objs_length, (Forall2_length _ _ _ Hocs) |].
  split; [by rewrite built_view_new, (Forall2_length _ _ _ Hocs) |].
  split; [| intros x Hx; by apply built_view_old].
  intros i c Hi.
  destruct (Forall2_lookup_l _ _ _ _ _ Hocs Hi) as (oc & Hoci & [Hc _]).
  by eapply built_view_copy.
Qed.

Lemma Symbol_init_attaches_copies_witness :
  let h := exec CPython.process_hash (MkList [3; 0; 3]) heap_sum in
  ∃ h', Symbol__init__ CSymbol "f" 3 h = (Ok 6, h') ∧
    length (objs h') = S (6 + 3) ∧
    view h' 6 = (Some (CSymbol, "f"), None, seq 7 3) ∧
    (∀ i c, [3; 0; 3] !! i = Some c →
       view h' (S (6 + i)) = (tag_of h c, Some 6, children_of h c)) ∧
    (∀ x, x < 6 → view h' x = view h x).
Proof.
  apply (Symbol_init_attaches_copies
           (exec CPython.process_hash (MkList [3; 0; 3]) heap_sum)
           CSymbol "f" 3 [3; 0; 3]).
  - apply heap_wfb_sound. reflexivity.
  - reflexivity.
  - repeat constructor.
Defined.

Lemma failed_view_old h cls name ocs oc x :
  heap_wf h → x < length (objs h) → view (failed h cls name ocs oc) x = view h x.
Proof. intros Hwf Hx. apply heap_ext_view; [apply heap_ext_failed | done | done]. Qed.

Lemma init_outcome_view h cls name cs r h' x :
  heap_wf h → init_outcome h cls name cs r h' → x < length (objs h) →
  view h' x = view h x.
Proof.
  intros Hwf Hout Hx. apply heap_ext_view; [by eapply init_outcome_ext | done | done].
Qed.

Lemma init_outcome_result h cls name cs r h' :
  init_outcome h cls name cs r h' →
  (r = Ok (length (objs h)) ∧ Forall (λ c, parent_of h c = None) cs)
  ∨ (r = Raise (AssertionError NodeMixin.corrupt)
     ∧ Exists (λ c, parent_of h c ≠ None) cs).
Proof.
  intros [ocs Hocs | pre ocs c oc p post -> Hpre Hc Hp].
  - left. split; [done |].
    induction Hocs as [| c oc cs ocs Hc _ IH]; constructor; [| done].
    by eapply unattached_parent_of.
  - right. split; [done |]. apply Exists_app. right. apply Exists_cons. left.
    unfold parent_of. by rewrite Hc, Hp.
Qed.

Lemma Forall_not_Exists_parent h cs :
  Forall (λ c, parent_of h c = None) cs →
  Exists (λ c, parent_of h c ≠ None) cs → False.
Proof.
  intros Hall Hex. apply Exists_exists in Hex as (c & Hc & Hne).
  rewrite Forall_forall in Hall. by apply Hne, Hall.
Qed.

(** With anytree before 2.10, [cls(name, children)] returns exactly when no
    element of [children] has a parent, and raises [AssertionError]
    otherwise. *)
Lemma Symbol_init_before_2_10 h cls name L cs :
  heap_wf h → lists h !! L = Some cs →
  let r := (Symbol__init__ (anytree := anytree_before_2_10) cls name L h).1 in
  let h' := (Symbol__init__ (anytree := anytree_before_2_10) cls name L h).2 in
  (r = Ok (length (objs h)) ↔ Forall (λ c, parent_of h c = None) cs) ∧
  (r = Raise (AssertionError "Tree internal data is corrupt.")
   ↔ Exists (λ c, parent_of h c ≠ None) cs) ∧
  (∀ x, x < length (objs h) → view h' x = view h x).
Proof.
  intros Hwf HL r h'.
  pose proof (Symbol_init_outcome h cls name L cs Hwf HL) as Hout.
  fold r h' in Hout.
  destruct (init_outcome_result _ _ _ _ _ _ Hout) as [[Hr Hall] | [Hr Hex]].
  - repeat split; try done.
    + rewrite Hr. discriminate.
    + intros Hex. destruct (Forall_not_Exists_parent _ _ Hall Hex).
    + intros x Hx. by eapply init_outcome_view.
  - repeat split; try done.
    + rewrite Hr. discriminate.
    + intros Hall. destruct (Forall_not_Exists_parent _ _ Hall Hex).
    + intros x Hx. by eapply init_outcome_view.
Qed.

(** X5.  What [cls(name, children)] does with a child that has a parent
    depends on the installed anytree.  Since 2.10 it returns, whatever
    parents the children have: the new node has no parent and lists one new
    object for each element of [children], in order, and each has the
    class, the name and the children of the element it copies and the new
    node as parent.  Before 2.10 it returns exactly when no element has a
    parent, and raises [AssertionError] ("Tree internal data is corrupt.")
    exactly when one has.  Either way the nodes that existed look as they
    did. *)
Theorem Symbol_init_by_anytree_version h cls name L cs :
  heap_wf h → lists h !! L = Some cs →
  let self := length (objs h) in
  (∃ h', Symbol__init__ (anytree := anytree_since_2_10) cls name L h = (Ok self, h') ∧
     view h' self = (Some (cls, name), None, seq (S self) (length cs)) ∧
     (∀ i c, cs !! i = Some c →
        view h' (S (self + i)) = (tag_of h c, Some self, children_of h c)) ∧
     (∀ x, x < self → view h' x = view h x)) ∧
  (let r := (Symbol__init__ (anytree := anytree_before_2_10) cls name L h).1 in
   let h' := (Symbol__init__ (anytree := anytree_before_2_10) cls name L h).2 in
   (r = Ok self ↔ Forall (λ c, parent_of h c = None) cs) ∧
   (r = Raise (AssertionError "Tree internal data is corrupt.")
    ↔ Exists (λ c, parent_of h c ≠ None) cs) ∧
   (∀ x, x < self → view h' x = view h x)).
Proof.
  intros Hwf HL self. split; [| by apply Symbol_init_before_2_10].
  destruct (Symbol_init_since_2_10 h cls name L cs Hwf HL)
    as (h' & Hrun & [_ _ _ _ Hold Hself Hcopies]).
  by exists h'.
Qed.

Lemma Symbol_init_by_anytree_version_witness :
  let h := exec CPython.process_hash (MkList [0; 4]) heap_sum in
  let self := length (objs h) in
  (∃ h', Symbol__init__ (anytree := anytree_since_2_10) CSymbol "f" 3 h = (Ok self, h') ∧
     view h' self = (Some (CSymbol, "f"), None, seq (S self) (length [0; 4])) ∧
     (∀ i c, [0; 4] !! i = Some c →
        view h' (S (self + i)) = (tag_of h c, Some self, children_of h c)) ∧
     (∀ x, x < self → view h' x = view h x)) ∧
  (let r := (Symbol__init__ (anytree := anytree_before_2_10) CSymbol "f" 3 h).1 in
   let h' := (Symbol__init__ (anytree := anytree_before_2_10) CSymbol "f" 3 h).2 in
   (r = Ok self ↔ Forall (λ c, parent_of h c = None) [0; 4]) ∧
   (r = Raise (AssertionError "Tree internal data is corrupt.")
    ↔ Exists (λ c, parent_of h c ≠ None) [0; 4]) ∧
   (∀ x, x < self → view h' x = view h x)).
Proof.
  apply (Symbol_init_by_anytree_version
           (exec CPython.process_hash (MkList [0; 4]) heap_sum) CSymbol "f" 3 [0; 4]).
  - apply heap_wfb_sound. reflexivity.
  - reflexivity.
Defined.

Lemma Symbol_init_parentless (A B : Anytree) h cls name L cs :
  lists h !! L = Some cs →
  Forall (λ c, c < length (objs h) ∧ parent_of h c = None) cs →
  Symbol__init__ (anytree := A) cls name L h
  = Symbol__init__ (anytree := B) cls name L h.
Proof.
  intros HL Hcs. destruct (parent_of_None_unattached h cs Hcs) as [ocs Hocs].
  by rewrite !(Symbol_init_ok h cls name L cs ocs HL Hocs).
Qed.

(** X20.  On children that have no parent the installed anytree makes no
    difference: [cls(name, children)] returns the same node and leaves the
    same store with anytree before 2.10 and with anytree since 2.10,
    assertions on or off. *)
Theorem Symbol_init_any_anytree (anytree : Anytree) h cls name L cs :
  lists h !! L = Some cs →
  Forall (λ c, c < length (objs h) ∧ parent_of h c = None) cs →
  Symbol__init__ (anytree := anytree) cls name L h
  = Symbol__init__ (anytree := anytree_before_2_10) cls name L h.
Proof.
  apply Symbol_init_parentless.
Qed.

Lemma Symbol_init_any_anytree_witness :
  Symbol__init__ (anytree := Since_2_10 true) CAddition "+" 1
    (exec CPython.process_hash (MkList [0; 1]) heap_abc)
  = Symbol__init__ (anytree := anytree_before_2_10) CAddition "+" 1
      (exec CPython.process_hash (MkList [0; 1]) heap_abc).
Proof.
  apply (Symbol_init_any_anytree (Since_2_10 true)
           (exec CPython.process_hash (MkList [0; 1]) heap_abc)
           CAddition "+" 1 [0; 1]).
  - reflexivity.
  - repeat constructor.
Defined.

(** ** The four arithmetic constructors *)

(** X6.  Each of [+], [-], [*], [/] raises [NotImplementedError] exactly when
    [other] is not a Symbol (a number, a string, [None]), and then the store
    is unchanged: nothing has been created. *)
Theorem arith_rejects_non_symbol h op a v :
  heap_wf h → a < length (objs h) → value_ok h v = true →
  ((∃ msg, (arith op a v h).1 = Raise (NotImplementedError msg))
   ↔ ∀ b, v ≠ VSym b) ∧
  ((∀ b, v ≠ VSym b) → (arith op a v h).2 = h).
Proof.
  intros Hwf Ha Hv. split; [by apply arith_rejects_iff | apply arith_rejects_unchanged].
Qed.

Lemma arith_rejects_non_symbol_witness :
  ((∃ msg, (arith OpDiv 0 (VInt 5) heap_abc).1 = Raise (NotImplementedError msg))
   ↔ ∀ b, VInt 5 ≠ VSym b) ∧
  ((∀ b, VInt 5 ≠ VSym b) → (arith OpDiv 0 (VInt 5) heap_abc).2 = heap_abc).
Proof.
  apply (arith_rejects_non_symbol heap_abc OpDiv 0 (VInt 5)).
  - apply heap_wfb_sound. reflexivity.
  - vm_compute. lia.
  - reflexivity.
Defined.

Lemma alloc_list_parent_of h l x :
  parent_of (Heap (objs h) (lists h ++ [l])) x = parent_of h x.
Proof. done. Qed.

(** With anytree before 2.10, on two Symbols each of [+], [-], [*], [/]
    returns exactly when neither operand has a parent, and raises
    [AssertionError] otherwise. *)
Lemma arith_before_2_10 h op a b :
  heap_wf h → a < length (objs h) → b < length (objs h) →
  let r := (arith (anytree := anytree_before_2_10) op a (VSym b) h).1 in
  let h' := (arith (anytree := anytree_before_2_10) op a (VSym b) h).2 in
  (r = Ok (length (objs h)) ↔ parent_of h a = None ∧ parent_of h b = None) ∧
  (r = Raise (AssertionError "Tree internal data is corrupt.")
   ↔ parent_of h a ≠ None ∨ parent_of h b ≠ None) ∧
  (∀ x, x < length (objs h) → view h' x = view h x).
Proof.
  intros Hwf Ha Hb. rewrite arith_sym. intros r h'.
  pose proof (BinaryOperator_outcome h (op_class op) (op_name op) a b Hwf Ha Hb) as Hout.
  fold r h' in Hout.
  set (h1 := Heap (objs h) (lists h ++ [[a; b]])) in *.
  assert (heap_ext h h') as Hext.
  { eapply heap_ext_trans; [apply (heap_ext_alloc_list h [a; b]) |].
    by eapply init_outcome_ext. }
  assert (∀ x, x < length (objs h) → view h' x = view h x) as Hview.
  { intros x Hx. by apply heap_ext_view. }
  destruct (init_outcome_result _ _ _ _ _ _ Hout) as [[Hr Hall] | [Hr Hex]].
  - apply Forall_cons in Hall as [Hpa Hall]. apply Forall_cons in Hall as [Hpb _].
    change (parent_of h a = None) in Hpa. change (parent_of h b = None) in Hpb.
    split; [| split; [| done]].
    + split; [done | done].
    + split; [rewrite Hr; discriminate | intros [Hne | Hne]; by destruct Hne].
  - assert (parent_of h a ≠ None ∨ parent_of h b ≠ None) as Hor.
    { apply Exists_cons in Hex as [Hpa | Hex]; [by left |].
      apply Exists_cons in Hex as [Hpb | Hex]; [by right | by apply Exists_nil in Hex]. }
    split; [| split; [| done]].
    + split; [rewrite Hr; discriminate |].
      intros [Hpa Hpb]. destruct Hor as [Hne | Hne]; by destruct Hne.
    + split; [done | done].
Qed.

(** X7.  On two Symbols, what [+], [-], [*], [/] do with an operand that has
    a parent depends on the installed anytree.  Since 2.10 each returns the
    new node, whatever parents the operands have.  Before 2.10 each returns
    the new node exactly when neither operand has a parent, and raises
    [AssertionError] ("Tree internal data is corrupt.") exactly when one of
    them has.  Either way the nodes that existed look as they did. *)
Theorem arith_by_anytree_version h op a b :
  heap_wf h → a < length (objs h) → b < length (objs h) →
  let c := length (objs h) in
  let new := arith (anytree := anytree_since_2_10) op a (VSym b) h in
  let old := arith (anytree := anytree_before_2_10) op a (VSym b) h in
  new.1 = Ok c ∧
  (old.1 = Ok c ↔ parent_of h a = None ∧ parent_of h b = None) ∧
  (old.1 = Raise (AssertionError "Tree internal data is corrupt.")
   ↔ parent_of h a ≠ None ∨ parent_of h b ≠ None) ∧
  (∀ x, x < c → view new.2 x = view h x ∧ view old.2 x = view h x).
Proof.
  intros Hwf Ha Hb c new old.
  destruct (arith_before_2_10 h op a b Hwf Ha Hb) as (Hok & Hraise & Hview).
  destruct (BinaryOperator_since_2_10 h (op_class op) (op_name op) a b Hwf Ha Hb)
    as (h' & Hrun & _ & _ & _ & _ & _ & Hold).
  assert (new = (Ok c, h')) as Hnew by (unfold new; by rewrite arith_sym).
  rewrite Hnew. split; [done |]. split; [done |]. split; [done |].
  intros x Hx. split; [by apply Hold | by apply Hview].
Qed.

Lemma arith_by_anytree_version_witness :
  let c := length (objs heap_sum) in
  let new := arith (anytree := anytree_since_2_10) OpSub 0 (VSym 4) heap_sum in
  let old := arith (anytree := anytree_before_2_10) OpSub 0 (VSym 4) heap_sum in
  new.1 = Ok c ∧
  (old.1 = Ok c ↔ parent_of heap_sum 0 = None ∧ parent_of heap_sum 4 = None) ∧
  (old.1 = Raise (AssertionError "Tree internal data is corrupt.")
   ↔ parent_of heap_sum 0 ≠ None ∨ parent_of heap_sum 4 ≠ None) ∧
  (∀ x, x < c → view new.2 x = view heap_sum x ∧ view old.2 x = view heap_sum x).
Proof.
  apply (arith_by_anytree_version heap_sum OpSub 0 4).
  - apply heap_wfb_sound. reflexivity.
  - vm_compute. lia.
  - vm_compute. lia.
Defined.

(** X21.  On operands that have no parent the installed anytree makes no
    difference to [+], [-], [*], [/]: each returns the same node, or raises
    the same [NotImplementedError], and leaves the same store with anytree
    before 2.10 and with anytree since 2.10, assertions on or off. *)
Theorem arith_any_anytree (anytree : Anytree) h op a other :
  a < length (objs h) → parent_of h a = None →
  (∀ b, other = VSym b → b < length (objs h) ∧ parent_of h b = None) →
  arith (anytree := anytree) op a other h
  = arith (anytree := anytree_before_2_10) op a other h.
Proof.
  intros Ha Hpa Hother. destruct other as [b | n | s |];
    try (by rewrite !arith_other).
  destruct (Hother b eq_refl) as [Hb Hpb].
  rewrite !arith_sym, !BinaryOperator_unfold.
  apply (Symbol_init_parentless _ _ _ _ _ _ [a; b]).
  - simpl. by rewrite lookup_app_r, Nat.sub_diag.
  - by repeat constructor.
Qed.

Lemma arith_any_anytree_witness :
  arith (anytree := anytree_since_2_10) OpDiv 0 (VSym 1) heap_abc
  = arith (anytree := anytree_before_2_10) OpDiv 0 (VSym 1) heap_abc.
Proof.
  apply (arith_any_anytree anytree_since_2_10 heap_abc OpDiv 0 (VSym 1)).
  - vm_compute. lia.
  - reflexivity.
  - intros b [= <-]. split; [vm_compute; lia | reflexivity].
Defined.

(** X8.  For operands without parent, each of [+], [-], [*], [/] returns a
    new node of the operator's class, named by the operator's symbol,
    without parent, whose two children are new objects: the first has the
    class, name and children of [self], the second those of [other], and
    both have the new node as parent. *)
Theorem arith_builds_composite h op a b :
  heap_wf h → a < length (objs h) → b < length (objs h) →
  parent_of h a = None → parent_of h b = None →
  let c := length (objs h) in
  ∃ h', arith op a (VSym b) h = (Ok c, h') ∧
    length (objs h') = c + 3 ∧
    view h' c = (Some (op_class op, op_name op), None, [S c; S (S c)]) ∧
    view h' (S c) = (tag_of h a, Some c, children_of h a) ∧
    view h' (S (S c)) = (tag_of h b, Some c, children_of h b).
Proof.
  intros Hwf Ha Hb Hpa Hpb c. rewrite arith_sym, BinaryOperator_unfold.
  set (h1 := Heap (objs h) (lists h ++ [[a; b]])).
  assert (heap_ext h h1) as Hext1 by apply heap_ext_alloc_list.
  assert (heap_wf h1) as Hwf1.
  { apply alloc_list_wf; [done | by repeat constructor]. }
  destruct (parent_of_None_unattached h1 [a; b]) as [ocs Hocs].
  { by repeat constructor. }
  pose proof (Forall2_length _ _ _ Hocs) as Hlen.
  exists (built h1 (op_class op) (op_name op) ocs).
  split.
  { apply (Symbol_init_ok h1 (op_class op) (op_name op) (length (lists h)) [a; b] ocs);
      [| done].
    unfold h1. simpl. by rewrite lookup_app_r, Nat.sub_diag. }
  split; [rewrite built_objs_length, <- Hlen; simpl; unfold c; lia |].
  split; [by rewrite (built_view_new h1), <- Hlen |].
  assert (∀ i x, [a; b] !! i = Some x →
            view (built h1 (op_class op) (op_name op) ocs) (S (c + i))
            = (tag_of h x, Some c, children_of h x)) as Hcopy.
  { intros i x Hi.
    destruct (Forall2_lookup_l _ _ _ _ _ Hocs Hi) as (oc & Hoci & [Hc _]).
    rewrite (built_view_copy h1 _ _ ocs i x oc Hwf1 Hoci Hc).
    pose proof (heap_ext_view h h1 x Hext1 Hwf (lookup_lt_Some _ _ _ Hc)) as Hv.
    apply (f_equal snd) in Hv. simpl in Hv. by rewrite Hv. }
  split.
  - specialize (Hcopy 0 a eq_refl). by rewrite Nat.add_0_r in Hcopy.
  - specialize (Hcopy 1 b eq_refl). by rewrite Nat.add_1_r in Hcopy.
Qed.

Lemma arith_builds_composite_witness :
  ∃ h', arith OpDiv 3 (VSym 2) heap_sum = (Ok 6, h') ∧
    length (objs h') = 6 + 3 ∧
    view h' 6 = (Some (CDivision, "/"), None, [7; 8]) ∧
    view h' 7 = (tag_of heap_sum 3, Some 6, children_of heap_sum 3) ∧
    view h' 8 = (tag_of heap_sum 2, Some 6, children_of heap_sum 2).
Proof.
  apply (arith_builds_composite heap_sum OpDiv 3 2).
  - apply heap_wfb_sound. reflexivity.
  - vm_compute. lia.
  - vm_compute. lia.
  - reflexivity.
  - reflexivity.
Defined.

(** ** Ids and traversals of composite nodes *)

Lemma fingerprint_recopy py_hash a t :
  fingerprint py_hash (recopy a t) = fingerprint py_hash t.
Proof. by destruct t. Qed.

Lemma repr_unattached h x t :
  repr h x t → parent_of h x = None → ∃ o, unattached h x o.
Proof.
  intros [o Ho]%repr_obj Hp. exists o. split; [done |].
  unfold parent_of in Hp. by rewrite Ho in Hp.
Qed.

(** The composite node of two operands without parent, with its tree. *)
Lemma arith_ok h op a b ta tb :
  heap_wf h → repr h a ta → repr h b tb →
  parent_of h a = None → parent_of h b = None →
  let c := length (objs h) in
  ∃ h', arith op a (VSym b) h = (Ok c, h') ∧ heap_wf h' ∧ heap_ext h h' ∧
        length (objs h') = c + 3 ∧ parent_of h' c = None ∧
        repr h' c (Node c (op_class op) (op_name op)
                     [recopy (S c) ta; recopy (S (S c)) tb]).
Proof.
  intros Hwf Hta Htb Hpa Hpb c.
  destruct (repr_unattached _ _ _ Hta Hpa) as [oa Hoa].
  destruct (repr_unattached _ _ _ Htb Hpb) as [ob Hob].
  destruct (BinaryOperator_ok h (op_class op) (op_name op) a b oa ob ta tb
              Hwf Hoa Hob Hta Htb) as (Hrun & Hwf' & Hext & Hrepr & Hself & _).
  eexists. rewrite arith_sym. split; [apply Hrun |].
  split; [done |]. split; [done |].
  split; [rewrite built_objs_length; simpl; unfold c; lia |].
  split; [by eapply unattached_parent_of | done].
Qed.

(** X9.  The id of a composite node is the hash of the operator's class, the
    operator's symbol and the ids of the two operands: for operands without
    parent, [(a op b).id == hash((cls, sym, a.id, b.id))]. *)
Theorem composite_id py_hash h op a b ta tb fuel :
  heap_wf h → repr h a ta → repr h b tb →
  height ta ≤ fuel → height tb ≤ fuel →
  parent_of h a = None → parent_of h b = None →
  ∃ c ia ib h1 h2 h3 h4,
    arith op a (VSym b) h = (Ok c, h1) ∧
    Symbol_id py_hash fuel a h1 = (Ok ia, h2) ∧
    Symbol_id py_hash fuel b h2 = (Ok ib, h3) ∧
    Symbol_id py_hash (S fuel) c h3
    = (Ok (py_hash (op_class op) (op_name op) [ia; ib]), h4).
Proof.
  intros Hwf Hta Htb Hfa Hfb Hpa Hpb.
  destruct (arith_ok h op a b ta tb Hwf Hta Htb Hpa Hpb)
    as (h1 & Hrun & _ & Hext & _ & _ & Hrc).
  destruct (Symbol_id_ok py_hash fuel h1 a ta (heap_ext_repr _ _ _ _ Hext Hta) Hfa)
    as (h2 & Hida & Hle2).
  destruct (Symbol_id_ok py_hash fuel h2 b tb
              (lazy_ext_repr _ _ _ _ Hle2 (heap_ext_repr _ _ _ _ Hext Htb)) Hfb)
    as (h3 & Hidb & Hle3).
  destruct (Symbol_id_ok py_hash (S fuel) h3 _ _
              (lazy_ext_repr _ _ _ _ (lazy_ext_trans _ _ _ Hle2 Hle3) Hrc))
    as (h4 & Hidc & _).
  { simpl. rewrite !height_recopy. lia. }
  eexists _, _, _, h1, h2, h3, h4.
  split; [done |]. split; [done |]. split; [done |].
  rewrite Hidc. cbn [fingerprint map]. by rewrite !fingerprint_recopy.
Qed.

Lemma composite_id_witness :
  ∃ c ia ib h1 h2 h3 h4,
    arith OpMul 3 (VSym 2) heap_sum = (Ok c, h1) ∧
    Symbol_id CPython.process_hash 2 3 h1 = (Ok ia, h2) ∧
    Symbol_id CPython.process_hash 2 2 h2 = (Ok ib, h3) ∧
    Symbol_id CPython.process_hash 3 c h3
    = (Ok (CPython.process_hash CMultiplication "*" [ia; ib]), h4).
Proof.
  apply (composite_id CPython.process_hash heap_sum OpMul 3 2
           (Node 3 CAddition "+" [Node 4 CSymbol "a" []; Node 5 CSymbol "b" []])
           (Node 2 CSymbol "c" []) 2).
  - apply heap_wfb_sound. reflexivity.
  - apply (tree_of_sound 2). reflexivity.
  - apply (tree_of_sound 1). reflexivity.
  - simpl. lia.
  - simpl. lia.
  - reflexivity.
  - reflexivity.
Defined.

(** X10.  Building the same expression twice gives two different objects with
    the same id: composite nodes built by the same operator from operands
    of the same shape (the same operands, or structurally identical ones)
    have equal ids. *)
Theorem same_construction_same_id py_hash h op a b a2 b2 ta tb ta2 tb2 fuel :
  heap_wf h →
  repr h a ta → repr h b tb → repr h a2 ta2 → repr h b2 tb2 →
  shape_of ta2 = shape_of ta → shape_of tb2 = shape_of tb →
  height ta ≤ fuel → height tb ≤ fuel →
  parent_of h a = None → parent_of h b = None →
  parent_of h a2 = None → parent_of h b2 = None →
  ∃ c1 c2 v h1 h2 h3 h4,
    arith op a (VSym b) h = (Ok c1, h1) ∧
    arith op a2 (VSym b2) h1 = (Ok c2, h2) ∧
    c1 ≠ c2 ∧
    Symbol_id py_hash (S fuel) c1 h2 = (Ok v, h3) ∧
    Symbol_id py_hash (S fuel) c2 h3 = (Ok v, h4).
Proof.
  intros Hwf Hta Htb Hta2 Htb2 Hsa Hsb Hfa Hfb Hpa Hpb Hpa2 Hpb2.
  destruct (arith_ok h op a b ta tb Hwf Hta Htb Hpa Hpb)
    as (h1 & Hrun1 & Hwf1 & Hext1 & Hlen1 & _ & Hrc1).
  assert (∀ x, x < length (objs h) → parent_of h1 x = parent_of h x) as Hpar.
  { intros x Hx. pose proof (heap_ext_view h h1 x Hext1 Hwf Hx) as Hv.
    apply (f_equal fst) in Hv. by apply (f_equal snd) in Hv. }
  assert (∀ x t, repr h x t → x < length (objs h)) as Hvalid.
  { intros x t [o Ho]%repr_obj. by eapply lookup_lt_Some. }
  destruct (arith_ok h1 op a2 b2 ta2 tb2 Hwf1
              (heap_ext_repr _ _ _ _ Hext1 Hta2) (heap_ext_repr _ _ _ _ Hext1 Htb2))
    as (h2 & Hrun2 & _ & Hext2 & _ & _ & Hrc2).
  { rewrite Hpar; [done | by eapply Hvalid]. }
  { rewrite Hpar; [done | by eapply Hvalid]. }
  destruct (Symbol_id_same_shape py_hash (S fuel) h2 _ _ _ _
              (heap_ext_repr _ _ _ _ Hext2 Hrc1) Hrc2)
    as (h3 & h4 & Hid1 & Hid2 & _).
  { simpl. by rewrite !shape_of_recopy, Hsa, Hsb. }
  { simpl. rewrite !height_recopy. lia. }
  eexists _, _, _, h1, h2, h3, h4.
  split; [done |]. split; [done |]. split; [lia |]. by split.
Qed.

Lemma same_construction_same_id_witness :
  ∃ c1 c2 v h1 h2 h3 h4,
    arith OpAdd 0 (VSym 1) heap_abc = (Ok c1, h1) ∧
    arith OpAdd 0 (VSym 1) h1 = (Ok c2, h2) ∧
    c1 ≠ c2 ∧
    Symbol_id CPython.process_hash 2 c1 h2 = (Ok v, h3) ∧
    Symbol_id CPython.process_hash 2 c2 h3 = (Ok v, h4).
Proof.
  apply (same_construction_same_id CPython.process_hash heap_abc OpAdd 0 1 0 1
           (Node 0 CSymbol "a" []) (Node 1 CSymbol "b" [])
           (Node 0 CSymbol "a" []) (Node 1 CSymbol "b" []) 1);
    try reflexivity; try (simpl; lia).
  - apply heap_wfb_sound. reflexivity.
  - apply (tree_of_sound 1). reflexivity.
  - apply (tree_of_sound 1). reflexivity.
  - apply (tree_of_sound 1). reflexivity.
  - apply (tree_of_sound 1). reflexivity.
Defined.

(** X11.  [pre_order] lists a node, then the [pre_order] of each of its
    children in stored order: the node comes before its descendants, and a
    node without children is listed alone. *)
Theorem pre_order_unfolds h x t fuel :
  repr h x t → height t < fuel →
  ∃ ls h1,
    Symbol_pre_order fuel x h = (Ok (x :: concat ls), h1) ∧
    Forall2 (λ c l, ∃ h2, Symbol_pre_order fuel c h1 = (Ok l, h2))
            (children_of h x) ls ∧
    (children_of h x = [] → concat ls = []).
Proof.
  intros Hr Hfuel.
  destruct (Symbol_pre_order_ok fuel h x t Hr Hfuel) as (h1 & Hpre & Hle).
  pose proof (repr_children_of h x t Hr) as Hcs.
  pose proof (repr_root _ _ _ Hr) as Hroot.
  exists (map preorder (subtrees t)), h1. split; [| split].
  - rewrite Hpre. destruct t as [a c n ts]. simpl in *. by subst a.
  - assert (Forall (λ tc, height tc < fuel) (subtrees t)) as Hts.
    { apply Forall_forall. intros tc Hin.
      destruct t as [a c0 n ts]. simpl in *.
      apply height_le_list_max in Hin. lia. }
    apply Forall2_fmap_r.
    induction Hcs as [| c tc cs ts Hc _ IH]; constructor.
    + destruct (Symbol_pre_order_ok fuel h1 c tc) as (h2 & Hprec & _);
        [by eapply lazy_ext_repr | by apply (Forall_inv Hts) | eauto].
    + apply IH, (Forall_inv_tail Hts).
  - intros Hnil. rewrite Hnil in Hcs. by apply Forall2_nil_inv_l in Hcs as ->.
Qed.

Lemma pre_order_unfolds_witness :
  ∃ ls h1,
    Symbol_pre_order 4 6 heap_prod = (Ok (6 :: concat ls), h1) ∧
    Forall2 (λ c l, ∃ h2, Symbol_pre_order 4 c h1 = (Ok l, h2))
            (children_of heap_prod 6) ls ∧
    (children_of heap_prod 6 = [] → concat ls = []).
Proof.
  apply (pre_order_unfolds heap_prod 6 tree_prod 4).
  - apply (tree_of_sound 3). reflexivity.
  - vm_compute. lia.
Defined.

(** X12.  The traversal of a composite node: for operands [a] and [b] without
    parent whose traversals are [a :: la] and [b :: lb], the traversal of
    [a op b] is the new node, the copy of [a], [la], the copy of [b], [lb]:
    the operands themselves are replaced by their copies, their descendants
    are listed as the same objects. *)
Theorem pre_order_of_composite h op a b ta tb fuel :
  heap_wf h → repr h a ta → repr h b tb →
  height ta < fuel → height tb < fuel →
  parent_of h a = None → parent_of h b = None →
  ∃ c la lb h1 h2 h3 h4,
    arith op a (VSym b) h = (Ok c, h1) ∧
    Symbol_pre_order fuel a h1 = (Ok (a :: la), h2) ∧
    Symbol_pre_order fuel b h2 = (Ok (b :: lb), h3) ∧
    Symbol_pre_order (S fuel) c h3
    = (Ok (c :: S c :: la ++ S (S c) :: lb), h4).
Proof.
  intros Hwf Hta Htb Hfa Hfb Hpa Hpb.
  destruct (arith_ok h op a b ta tb Hwf Hta Htb Hpa Hpb)
    as (h1 & Hrun & _ & Hext & _ & _ & Hrc).
  destruct (Symbol_pre_order_ok fuel h1 a ta (heap_ext_repr _ _ _ _ Hext Hta) Hfa)
    as (h2 & Hprea & Hle2).
  destruct (Symbol_pre_order_ok fuel h2 b tb
              (lazy_ext_repr _ _ _ _ Hle2 (heap_ext_repr _ _ _ _ Hext Htb)) Hfb)
    as (h3 & Hpreb & Hle3).
  destruct (Symbol_pre_order_ok (S fuel) h3 _ _
              (lazy_ext_repr _ _ _ _ (lazy_ext_trans _ _ _ Hle2 Hle3) Hrc))
    as (h4 & Hprec & _).
  { simpl. rewrite !height_recopy. lia. }
  pose proof (repr_root _ _ _ Hta) as Hroota.
  pose proof (repr_root _ _ _ Htb) as Hrootb.
  destruct ta as [a' ca na tsa], tb as [b' cb nb tsb]. simpl in *. subst a' b'.
  eexists _, _, _, h1, h2, h3, h4.
  split; [done |]. split; [done |]. split; [done |].
  rewrite Hprec. by rewrite app_nil_r.
Qed.

Lemma pre_order_of_composite_witness :
  ∃ c la lb h1 h2 h3 h4,
    arith OpMul 3 (VSym 3) heap_sum = (Ok c, h1) ∧
    Symbol_pre_order 3 3 h1 = (Ok (3 :: la), h2) ∧
    Symbol_pre_order 3 3 h2 = (Ok (3 :: lb), h3) ∧
    Symbol_pre_order 4 c h3 = (Ok (c :: S c :: la ++ S (S c) :: lb), h4).
Proof.
  apply (pre_order_of_composite heap_sum OpMul 3 3
           (Node 3 CAddition "+" [Node 4 CSymbol "a" []; Node 5 CSymbol "b" []])
           (Node 3 CAddition "+" [Node 4 CSymbol "a" []; Node 5 CSymbol "b" []]) 3).
  - apply heap_wfb_sound. reflexivity.
  - apply (tree_of_sound 2). reflexivity.
  - apply (tree_of_sound 2). reflexivity.
  - simpl. lia.
  - simpl. lia.
  - reflexivity.
  - reflexivity.
Defined.

(** ** [__repr__] and [render] *)

(** [__repr__]: ["Symbol({!s}, {!s})".format(self._name, self.parent)];
    the parent is formatted by its [__str__], and [None] as ["None"]. *)
Definition Symbol__repr__ (self : addr) : M string :=
  do n <- Symbol_name self;
  do p <- NodeMixin.parent self;
  do ps <- match p with
           | None => ret "None"
           | Some q => Symbol__str__ q
           end;
  ret ("Symbol(" +:+ n +:+ ", " +:+ ps +:+ ")").

(** [anytree.RenderTree]: the rows [(pre, fill, node)] of the diagram of a
    tree.  [continues] tells, for each ancestor level, whether a later
    sibling follows. *)
Record Style := {
  vertical : string;
  cont : string;
  end_ : string;
  empty : string
}.

(** [ContStyle()], the default style. *)
Definition ContStyle : Style :=
  {| vertical := "│   "; cont := "├── "; end_ := "└── "; empty := "    " |}.

Definition Row : Type := string * string * addr.

Definition join (l : list string) : string := foldr String.append "" l.

(** [RenderTree.__item]. *)
Definition RenderTree_item (style : Style) (node : addr) (continues : list bool)
  : Row :=
  match continues with
  | [] => ("", "", node)
  | _ :: _ =>
      let items := map (λ c : bool, if c then vertical style else empty style)
                       continues in
      let indent := join (removelast items) in
      let branch := if List.last continues false then cont style else end_ style in
      (indent +:+ branch, join items, node)
  end.

(** [RenderTree.__next]: the row of the node, then the rows of each child,
    the last child being marked as such. *)
Fixpoint RenderTree_next (fuel : nat) (style : Style) (node : addr)
    (continues : list bool) : M (list Row) :=
  match fuel with
  | 0 => raise Diverges
  | S fuel' =>
      let row := RenderTree_item style node continues in
      do children <- NodeMixin.children node;
      let lastidx := length children - 1 in
      do rest <- forM (λ ic : nat * addr,
                    RenderTree_next fuel' style ic.2
                      (continues ++ [negb (Nat.eqb ic.1 lastidx)]))
                 (imap pair children);
      ret (row :: concat rest)
  end.

Definition RenderTree (fuel : nat) (node : addr) : M (list Row) :=
  RenderTree_next fuel ContStyle node [].

(** [render]: the lines printed, one for each row: [pre] followed by
    [str(node)]. *)
Definition Symbol_render (fuel : nat) (self : addr) : M (list string) :=
  do rows <- RenderTree fuel self;
  forM (λ row : Row, do s <- Symbol__str__ row.2; ret (row.1.1 +:+ s)) rows.

(** The rows of a tree, each with the name of its node. *)
Definition rows_of_children (rec : list bool → tree → list (Row * string))
    (continues : list bool) (lastidx : nat)
  : nat → list tree → list (Row * string) :=
  fix go i l :=
    match l with
    | [] => []
    | t :: l' => rec (continues ++ [negb (Nat.eqb i lastidx)]) t ++ go (S i) l'
    end.

Fixpoint render_rows (style : Style) (continues : list bool) (t : tree)
  : list (Row * string) :=
  match t with
  | Node a _ n ts =>
      (RenderTree_item style a continues, n)
      :: rows_of_children (render_rows style) continues (length ts - 1) 0 ts
  end.

Definition render_lines (t : tree) : list string :=
  map (λ r : Row * string, r.1.1.1 +:+ r.2) (render_rows ContStyle [] t).

Example render_lines_sum :
  render_lines (Node 3 CAddition "+" [Node 4 CSymbol "a" []; Node 5 CSymbol "b" []])
  = ["+"; "├── a"; "└── b"].
Proof. reflexivity. Qed.

Lemma RenderTree_children_ok fuel style h0 continues lastidx :
  (∀ h x t continues, repr h x t → height t ≤ fuel →
     ∃ h', RenderTree_next fuel style x continues h
           = (Ok (map fst (render_rows style continues t)), h') ∧ lazy_ext h h') →
  ∀ cs ts, Forall2 (λ c t, repr h0 c t ∧ height t ≤ fuel) cs ts →
  ∀ k h, lazy_ext h0 h →
    ∃ chunks h',
      forM (λ ic : nat * addr,
              RenderTree_next fuel style ic.2
                (continues ++ [negb (Nat.eqb ic.1 lastidx)]))
           (imap (λ i c, (k + i, c)) cs) h = (Ok chunks, h') ∧
      lazy_ext h h' ∧
      concat chunks
      = map fst (rows_of_children (render_rows style) continues lastidx k ts).
Proof.
  intros IH cs ts Hcs.
  induction Hcs as [| c t cs ts [Hc Hh] _ IHcs]; intros k h Hle.
  - exists [], h. split; [done |]. split; [apply lazy_ext_refl | done].
  - destruct (IH h c t (continues ++ [negb (Nat.eqb k lastidx)])
                (lazy_ext_repr _ _ _ _ Hle Hc) Hh) as (h1 & Hrun & Hle1).
    destruct (IHcs (S k) h1 (lazy_ext_trans _ _ _ Hle Hle1))
      as (chunks & h2 & Hrun2 & Hle2 & Hconcat).
    exists (map fst (render_rows style (continues ++ [negb (Nat.eqb k lastidx)]) t)
            :: chunks), h2.
    split; [| split; [by eapply lazy_ext_trans |]].
    + cbn [imap forM]. rewrite Nat.add_0_r. cbn [fst snd]. mstep Hrun.
      rewrite (imap_ext _ (λ i c0, (S k + i, c0))); [by mstep Hrun2 |].
      intros i y _. simpl. f_equal. lia.
    + cbn [concat rows_of_children]. by rewrite Hconcat, map_app.
Qed.

Lemma RenderTree_next_ok style fuel : ∀ h x t continues,
  repr h x t → height t ≤ fuel →
  ∃ h', RenderTree_next fuel style x continues h
        = (Ok (map fst (render_rows style continues t)), h') ∧ lazy_ext h h'.
Proof.
  induction fuel as [| fuel IH]; intros h x t continues Hr Hh.
  { destruct t; simpl in Hh; lia. }
  inversion Hr as [x' o cs ts Hx Hv Hcs]; subst. simpl in Hh.
  destruct (children_ok h x o cs Hx Hv) as (h1 & Hch & Hle1).
  destruct (RenderTree_children_ok fuel style h continues (length cs - 1) IH cs ts)
    with (k := 0) (h := h1) as (chunks & h2 & Hrun & Hle2 & Hconcat); [| done |].
  { assert (Forall (λ t, height t ≤ fuel) ts) as Hts.
    { apply Forall_forall. intros t Ht. apply height_le_list_max in Ht. lia. }
    clear Hv Hch Hr Hh. induction Hcs as [| c t cs ts Hct _ IHcs]; constructor.
    - split; [done | by apply (Forall_inv Hts)].
    - apply IHcs, (Forall_inv_tail Hts). }
  exists h2. split; [| by eapply lazy_ext_trans].
  cbn [RenderTree_next]. mstep Hch.
  change (imap pair cs) with (imap (λ i c, (0 + i, c)) cs).
  mstep Hrun. cbn [render_rows map fst]. unfold ret.
  by rewrite Hconcat, (Forall2_length _ _ _ Hcs).
Qed.

Lemma rows_of_children_Forall (P : Row * string → Prop) rec continues lastidx :
  ∀ ts k, Forall (λ t, ∀ cont', Forall P (rec cont' t)) ts →
  Forall P (rows_of_children rec continues lastidx k ts).
Proof.
  induction ts as [| t ts IH]; intros k Hts; simpl; [constructor |].
  apply Forall_app. split; [apply (Forall_inv Hts) | apply IH, (Forall_inv_tail Hts)].
Qed.

Lemma render_rows_names style h : ∀ t continues x,
  repr h x t →
  Forall (λ r : Row * string, ∃ o, objs h !! r.1.2 = Some o ∧ o_name o = r.2)
         (render_rows style continues t).
Proof.
  induction t as [a c n ts IH] using tree_rect'. intros continues x Hr.
  inversion Hr as [x' o cs ts' Hx Hv Hcs]; subst. simpl. constructor.
  - destruct continues; simpl; eauto.
  - apply rows_of_children_Forall.
    clear Hv Hr. induction Hcs as [| c t cs ts Hct _ IHcs]; constructor.
    + intros cont'. by apply (Forall_inv IH cont' c).
    + apply IHcs, (Forall_inv_tail IH).
Qed.

Lemma RenderTree_item_node style x continues :
  (RenderTree_item style x continues).2 = x.
Proof. by destruct continues. Qed.

Lemma rows_of_children_nodes rec continues lastidx :
  ∀ ts k,
    Forall (λ t, ∀ cont', map (λ r : Row * string, r.1.2) (rec cont' t) = preorder t) ts →
    map (λ r : Row * string, r.1.2) (rows_of_children rec continues lastidx k ts)
    = concat (map preorder ts).
Proof.
  induction ts as [| t ts IH]; intros k Hts; simpl; [done |].
  rewrite map_app, (Forall_inv Hts). f_equal. apply IH, (Forall_inv_tail Hts).
Qed.

Lemma render_rows_nodes style : ∀ t continues,
  map (λ r : Row * string, r.1.2) (render_rows style continues t) = preorder t.
Proof.
  induction t as [a c n ts IH] using tree_rect'. intros continues. simpl.
  rewrite RenderTree_item_node. f_equal. by apply rows_of_children_nodes.
Qed.

Lemma render_print_ok h (rs : list (Row * string)) :
  Forall (λ r : Row * string, ∃ o, objs h !! r.1.2 = Some o ∧ o_name o = r.2) rs →
  forM (λ row : Row, do s <- Symbol__str__ row.2; ret (row.1.1 +:+ s)) (map fst rs) h
  = (Ok (map (λ r : Row * string, r.1.1.1 +:+ r.2) rs), h).
Proof.
  induction 1 as [| r rs (o & Ho & Hn) _ IH]; [done |].
  cbn [map forM].
  assert ((do s <- Symbol__str__ r.1.2; ret (r.1.1.1 +:+ s)) h
          = (Ok (r.1.1.1 +:+ r.2), h)) as Hrow.
  { unfold Symbol__str__. mstep (Symbol_name_ok _ _ _ Ho). by rewrite Hn. }
  mstep Hrow. by mstep IH.
Qed.

Lemma Symbol_render_ok h x t fuel :
  repr h x t → height t ≤ fuel →
  ∃ h', Symbol_render fuel x h = (Ok (render_lines t), h') ∧ lazy_ext h h'.
Proof.
  intros Hr Hh.
  destruct (RenderTree_next_ok ContStyle fuel h x t [] Hr Hh) as (h' & Hrun & Hle).
  exists h'. split; [| done].
  unfold Symbol_render, RenderTree. mstep Hrun.
  apply render_print_ok, (render_rows_names ContStyle h' t [] x).
  by eapply lazy_ext_repr.
Qed.

Lemma repr_tag h x t : repr h x t → tag_of h x = Some (class_of t, name_of t).
Proof. inversion 1 as [x' o cs ts Hx Hv Hcs]; subst. unfold tag_of. by rewrite Hx. Qed.

(** X13.  [render] prints one line for each node that [pre_order] lists, in
    the same order; each line ends with the name of its node and the first
    line is the name of the root alone; rendering again prints the same
    lines. *)
Theorem render_follows_pre_order h x t fuel :
  repr h x t → height t ≤ fuel →
  ∃ lines l h1 h2 h3,
    Symbol_render fuel x h = (Ok lines, h1) ∧
    Symbol_render fuel x h1 = (Ok lines, h2) ∧
    Symbol_pre_order (S fuel) x h2 = (Ok l, h3) ∧
    Forall2 (λ line y, ∃ pre c n, tag_of h y = Some (c, n) ∧ line = pre +:+ n)
            lines l ∧
    head lines = (snd <$> tag_of h x).
Proof.
  intros Hr Hh.
  destruct (Symbol_render_ok h x t fuel Hr Hh) as (h1 & Hrun1 & Hle1).
  destruct (Symbol_render_ok h1 x t fuel (lazy_ext_repr _ _ _ _ Hle1 Hr) Hh)
    as (h2 & Hrun2 & Hle2).
  destruct (Symbol_pre_order_ok (S fuel) h2 x t) as (h3 & Hpre & _);
    [apply (lazy_ext_repr _ _ _ _ (lazy_ext_trans _ _ _ Hle1 Hle2) Hr) | lia |].
  exists (render_lines t), (preorder t), h1, h2, h3.
  split; [done |]. split; [done |]. split; [done |]. split.
  - unfold render_lines. rewrite <- (render_rows_nodes ContStyle t []).
    apply Forall2_fmap, Forall_Forall2_diag.
    eapply Forall_impl; [apply (render_rows_names ContStyle h t [] x Hr) |].
    intros r (o & Ho & Hn). exists r.1.1.1, (o_class o), (o_name o).
    split; [unfold tag_of; by rewrite Ho | by rewrite Hn].
  - rewrite (repr_tag _ _ _ Hr). by destruct t.
Qed.

Lemma render_follows_pre_order_witness :
  ∃ lines l h1 h2 h3,
    Symbol_render 3 6 heap_prod = (Ok lines, h1) ∧
    Symbol_render 3 6 h1 = (Ok lines, h2) ∧
    Symbol_pre_order 4 6 h2 = (Ok l, h3) ∧
    Forall2 (λ line y, ∃ pre c n, tag_of heap_prod y = Some (c, n) ∧ line = pre +:+ n)
            lines l ∧
    head lines = (snd <$> tag_of heap_prod 6).
Proof.
  apply (render_follows_pre_order heap_prod 6 tree_prod 3).
  - apply (tree_of_sound 3). reflexivity.
  - vm_compute. lia.
Defined.

(** The objects of a composite node and of its two children. *)
Lemma arith_objects h op a b oa ob :
  heap_wf h → unattached h a oa → unattached h b ob →
  let c := length (objs h) in
  ∃ h', arith op a (VSym b) h = (Ok c, h') ∧ heap_ext h h' ∧
    objs h' !! c
    = Some (Obj (op_class op) (op_name op) None (Some (S (length (lists h))))) ∧
    objs h' !! S c = Some (copy_into c oa) ∧
    objs h' !! S (S c) = Some (copy_into c ob).
Proof.
  intros Hwf Ha Hb c. rewrite arith_sym, BinaryOperator_unfold.
  set (h1 := Heap (objs h) (lists h ++ [[a; b]])).
  assert (heap_ext h h1) as Hext1 by apply heap_ext_alloc_list.
  exists (built h1 (op_class op) (op_name op) [oa; ob]).
  split.
  { apply (Symbol_init_ok h1 (op_class op) (op_name op) (length (lists h))
             [a; b] [oa; ob]).
    - unfold h1. simpl. by rewrite lookup_app_r, Nat.sub_diag.
    - repeat constructor; by eapply unattached_ext. }
  split; [eapply heap_ext_trans; [done | apply heap_ext_built] |].
  split; [| split].
  - pose proof (built_lookup_new h1 (op_class op) (op_name op) [oa; ob]) as Hn.
    unfold new_obj, h1 in Hn. cbn [lists] in Hn.
    rewrite length_app, Nat.add_1_r in Hn. apply Hn.
  - pose proof (built_lookup_copy h1 (op_class op) (op_name op) [oa; ob] 0 oa eq_refl) as Hc.
    simpl in Hc. by rewrite Nat.add_0_r in Hc.
  - pose proof (built_lookup_copy h1 (op_class op) (op_name op) [oa; ob] 1 ob eq_refl) as Hc.
    simpl in Hc. by rewrite Nat.add_1_r in Hc.
Qed.

(** X14.  The diagram of [a op b] for leaves [a] and [b] without parent has
    three lines: the operator's symbol, then the names of [a] and [b] behind
    the branch marks of a first and of a last child. *)
Theorem render_of_composite h op a b oa ob :
  heap_wf h → leaf h a oa → leaf h b ob →
  ∃ c h1 h2,
    arith op a (VSym b) h = (Ok c, h1) ∧
    Symbol_render 2 c h1
    = (Ok [op_name op; "├── " +:+ o_name oa; "└── " +:+ o_name ob], h2).
Proof.
  intros Hwf Ha Hb.
  pose proof (leaf_repr _ _ _ Ha) as Hta.
  pose proof (leaf_repr _ _ _ Hb) as Htb.
  destruct Ha as [Ha _], Hb as [Hb _].
  destruct (arith_ok h op a b _ _ Hwf Hta Htb
              (unattached_parent_of _ _ _ Ha) (unattached_parent_of _ _ _ Hb))
    as (h1 & Hrun & _ & _ & _ & _ & Hrc).
  destruct (Symbol_render_ok h1 _ _ 2 Hrc) as (h2 & Hrender & _); [simpl; lia |].
  exists (length (objs h)), h1, h2. split; [done |]. apply Hrender.
Qed.

Lemma render_of_composite_witness :
  ∃ c h1 h2,
    arith OpSub 0 (VSym 1) heap_abc = (Ok c, h1) ∧
    Symbol_render 2 c h1 = (Ok ["-"; "├── a"; "└── b"], h2).
Proof.
  apply (render_of_composite heap_abc OpSub 0 1
           (Obj CSymbol "a" None None) (Obj CSymbol "b" None None)).
  - apply heap_wfb_sound. reflexivity.
  - repeat split.
  - repeat split.
Defined.

Lemma Symbol__repr__root h x o :
  objs h !! x = Some o → o_parent o = None →
  Symbol__repr__ x h = (Ok ("Symbol(" +:+ o_name o +:+ ", None)"), h).
Proof.
  intros Hx Hp. unfold Symbol__repr__.
  mstep (Symbol_name_ok _ _ _ Hx). mstep (parent_ok _ _ _ Hx). by rewrite Hp.
Qed.

Lemma Symbol__repr__child h x o p op :
  objs h !! x = Some o → o_parent o = Some p → objs h !! p = Some op →
  Symbol__repr__ x h
  = (Ok ("Symbol(" +:+ o_name o +:+ ", " +:+ o_name op +:+ ")"), h).
Proof.
  intros Hx Hp Hop. unfold Symbol__repr__.
  mstep (Symbol_name_ok _ _ _ Hx). mstep (parent_ok _ _ _ Hx). rewrite Hp.
  unfold Symbol__str__. by mstep (Symbol_name_ok _ _ _ Hop).
Qed.

(** X15.  [repr] shows copy-on-attach: after [c = a op b] on operands without
    parent, [repr(c)] is ["Symbol(sym, None)"], the [repr] of the children
    of [c] name the operator as parent, and [repr(a)] and [repr(b)] still
    show no parent; [repr] changes nothing. *)
Theorem repr_after_arith h op a b oa ob :
  heap_wf h → unattached h a oa → unattached h b ob →
  ∃ c h1,
    arith op a (VSym b) h = (Ok c, h1) ∧
    Symbol__repr__ c h1 = (Ok ("Symbol(" +:+ op_name op +:+ ", None)"), h1) ∧
    Symbol__repr__ (S c) h1
    = (Ok ("Symbol(" +:+ o_name oa +:+ ", " +:+ op_name op +:+ ")"), h1) ∧
    Symbol__repr__ (S (S c)) h1
    = (Ok ("Symbol(" +:+ o_name ob +:+ ", " +:+ op_name op +:+ ")"), h1) ∧
    Symbol__repr__ a h1 = (Ok ("Symbol(" +:+ o_name oa +:+ ", None)"), h1) ∧
    Symbol__repr__ b h1 = (Ok ("Symbol(" +:+ o_name ob +:+ ", None)"), h1).
Proof.
  intros Hwf Ha Hb.
  destruct (arith_objects h op a b oa ob Hwf Ha Hb)
    as (h1 & Hrun & Hext & Hc & Hca & Hcb).
  destruct Ha as [Ha Hpa], Hb as [Hb Hpb].
  exists (length (objs h)), h1. split; [done |].
  split; [by apply (Symbol__repr__root _ _ _ Hc) |].
  split; [by apply (Symbol__repr__child _ _ _ _ _ Hca eq_refl Hc) |].
  split; [by apply (Symbol__repr__child _ _ _ _ _ Hcb eq_refl Hc) |].
  split.
  - by apply (Symbol__repr__root _ _ _ (heap_ext_obj _ _ _ _ Hext Ha)).
  - by apply (Symbol__repr__root _ _ _ (heap_ext_obj _ _ _ _ Hext Hb)).
Qed.

Lemma repr_after_arith_witness :
  ∃ c h1,
    arith OpAdd 0 (VSym 1) heap_abc = (Ok c, h1) ∧
    Symbol__repr__ c h1 = (Ok "Symbol(+, None)", h1) ∧
    Symbol__repr__ (S c) h1 = (Ok "Symbol(a, +)", h1) ∧
    Symbol__repr__ (S (S c)) h1 = (Ok "Symbol(b, +)", h1) ∧
    Symbol__repr__ 0 h1 = (Ok "Symbol(a, None)", h1) ∧
    Symbol__repr__ 1 h1 = (Ok "Symbol(b, None)", h1).
Proof.
  apply (repr_after_arith heap_abc OpAdd 0 1
           (Obj CSymbol "a" None None) (Obj CSymbol "b" None None)).
  - apply heap_wfb_sound. reflexivity.
  - repeat split.
  - repeat split.
Defined.

(** * Further properties of the [ScikitChebyshev2DSubMesh] constructor *)

Module ChebyshevFacts.

Import Chebyshev.

Section Init.

Context {num array Tabs Self : Type}.
Variable chebyshev_edges : Z → num → num → array.
Variable ScikitSubMesh2D_init :
  gmap string array → string → Tabs → Self → res () * Self.

(** The array of edges of one variable, computed from [npts[var.id] - 2],
    [lims[var]["min"]] and [lims[var]["max"]]. *)
Definition edges_of (npts : Npts) (v : SpatialVariable) (lim : gmap string num)
  : option array :=
  n ← npts !! sv_id v;
  a ← lim !! "min";
  b ← lim !! "max";
  Some (chebyshev_edges (n - 2) a b).

(** X17.  Two variables with the same name are accepted: no check tells them
    apart, and the dict of edges handed to the base initializer has a single
    entry, the array of the second variable. *)
Theorem init_same_name_overwrites v0 l0 v1 l1 npts tabs self e0 e1 :
  sv_coord_sys v0 = sv_coord_sys v1 →
  sv_name v0 = sv_name v1 → is_y_or_z (sv_name v1) = true →
  edges_of npts v0 l0 = Some e0 → edges_of npts v1 l1 = Some e1 →
  init chebyshev_edges ScikitSubMesh2D_init [(v0, l0); (v1, l1)] npts tabs self
  = ScikitSubMesh2D_init {[sv_name v1 := e1]} (sv_coord_sys v1) tabs self.
Proof.
  intros Hc Hn Hn1 He0 He1. unfold edges_of in *.
  destruct (npts !! sv_id v0) as [n0 |] eqn:Hp0; [| done].
  destruct (l0 !! "min") as [a0 |] eqn:Ha0; [| done].
  destruct (l0 !! "max") as [b0 |] eqn:Hb0; [| done].
  destruct (npts !! sv_id v1) as [n1 |] eqn:Hp1; [| done].
  destruct (l1 !! "min") as [a1 |] eqn:Ha1; [| done].
  destruct (l1 !! "max") as [b1 |] eqn:Hb1; [| done].
  simpl in He0, He1. injection He0 as <-. injection He1 as <-.
  unfold init. simpl. rewrite Hc, String.eqb_refl. simpl.
  rewrite Hn, Hn1, Hp0, Ha0, Hb0, Hp1, Ha1, Hb1. simpl.
  by rewrite insert_insert_eq.
Qed.

(** X18.  A missing entry raises [KeyError] and the base initializer does not
    run: for two variables of one coordinate system, when the first is named
    [y] or [z] and [npts] has no entry for its id, or its limits lack
    ["min"] or ["max"], whatever the second variable is; and likewise for
    the second variable when the first one is in order. *)
Theorem init_KeyError_on_missing_entry v0 l0 v1 l1 npts tabs self :
  sv_coord_sys v0 = sv_coord_sys v1 →
  is_y_or_z (sv_name v0) = true →
  edges_of npts v0 l0 = None
  ∨ (is_Some (edges_of npts v0 l0) ∧ is_y_or_z (sv_name v1) = true ∧
     edges_of npts v1 l1 = None) →
  init chebyshev_edges ScikitSubMesh2D_init [(v0, l0); (v1, l1)] npts tabs self = (Raise KeyError, self).
Proof.
  intros Hc Hn0 Hmiss. unfold init. simpl. rewrite Hc, String.eqb_refl. simpl.
  rewrite Hn0. simpl. unfold edges_of in Hmiss.
  destruct Hmiss as [Hmiss | ([e0 He0] & Hn1 & Hmiss)].
  - destruct (npts !! sv_id v0) as [n0 |]; [| done].
    destruct (l0 !! "min") as [a0 |]; [| done].
    by destruct (l0 !! "max") as [b0 |].
  - destruct (npts !! sv_id v0) as [n0 |]; [| done].
    destruct (l0 !! "min") as [a0 |]; [| done].
    destruct (l0 !! "max") as [b0 |]; [| done].
    rewrite Hn1. simpl.
    destruct (npts !! sv_id v1) as [n1 |]; [| done].
    destruct (l1 !! "min") as [a1 |]; [| done].
    by destruct (l1 !! "max") as [b1 |].
Qed.

(** X19.  The checks come in a fixed order and each names what it found: a
    difference of coordinate systems is reported before any name is looked
    at, with both coordinate systems in the message, whatever the names and
    [npts] are; with equal coordinate systems a first variable not named
    [y] or [z] is reported by its name, before [npts] is read. *)
Theorem init_error_precedence v0 l0 v1 l1 npts tabs self :
  (sv_coord_sys v0 ≠ sv_coord_sys v1 →
   init chebyshev_edges ScikitSubMesh2D_init [(v0, l0); (v1, l1)] npts tabs self
   = (Raise (DomainError (msg_coord (sv_coord_sys v0) (sv_coord_sys v1))), self)) ∧
  (sv_coord_sys v0 = sv_coord_sys v1 → is_y_or_z (sv_name v0) = false →
   init chebyshev_edges ScikitSubMesh2D_init [(v0, l0); (v1, l1)] npts tabs self
   = (Raise (DomainError (msg_name (sv_name v0))), self)) ∧
  (∃ pre mid, msg_coord (sv_coord_sys v0) (sv_coord_sys v1)
              = pre +:+ sv_coord_sys v0 +:+ mid +:+ sv_coord_sys v1) ∧
  (∃ pre, msg_name (sv_name v0) = pre +:+ sv_name v0).
Proof.
  split; [| split; [| split]].
  - intros Hc. unfold init. simpl.
    by destruct (String.eqb_spec (sv_coord_sys v0) (sv_coord_sys v1)).
  - intros Hc Hn0. unfold init. simpl. rewrite Hc, String.eqb_refl. simpl.
    by rewrite Hn0.
  - exists ("spatial variables should have the same coordinate system," +:+ newline +:+
            "                but have coordinate systems "), " and ".
    unfold msg_coord. by rewrite !append_assoc.
  - by eexists.
Qed.

End Init.

(** ** The array of edges *)

Section Edges.

(** Floating-point numbers and their operations are kept abstract:
    conversion from an integer, the four operations, [np.cos] and [np.pi].
    An array is the list of its entries. *)
Context {num Tabs Self : Type}.
Variable of_int : Z → num.
Variables add sub mul div : num → num → num.
Variable cos : num → num.
Variable pi : num.
Variable ScikitSubMesh2D_init :
  gmap string (list num) → string → Tabs → Self → res () * Self.

(** [ii = np.array(range(1, N + 1))]. *)
Definition ii (N : Z) : list Z := Z.of_nat <$> seq 1 (Z.to_nat N).

(** One entry of
    [(a + b) / 2 + (b - a) / 2 * np.cos((2 * ii - 1) * np.pi / 2 / N)]. *)
Definition node (N : Z) (a b : num) (i : Z) : num :=
  add (div (add a b) (of_int 2))
      (mul (div (sub b a) (of_int 2))
           (cos (div (div (mul (of_int (2 * i - 1)) pi) (of_int 2)) (of_int N)))).

Definition x_cheb (N : Z) (a b : num) : list num := node N a b <$> ii N.

(** [edges[var.name] = np.concatenate(([a], np.flip(x_cheb), [b]))]. *)
Definition edges_entry (N : Z) (a b : num) : list num :=
  [a] ++ reverse (x_cheb N a b) ++ [b].

(** What the array of a variable with [n] points between [a] and [b] is:
    [n] entries when [n] is at least 2 (two otherwise), [a] first, [b]
    last, and between them the nodes for [i = N], ..., [1], where
    [N = n - 2]. *)
Definition edges_of_points (n : Z) (a b : num) (e : list num) : Prop :=
  length e = Z.to_nat (n - 2) + 2 ∧
  e !! 0 = Some a ∧
  e !! S (Z.to_nat (n - 2)) = Some b ∧
  ∀ k : nat, 1 ≤ k ≤ Z.to_nat (n - 2) →
    e !! k = Some (node (n - 2) a b (n - 2 - Z.of_nat k + 1)).

Lemma x_cheb_length N a b : length (x_cheb N a b) = Z.to_nat N.
Proof. unfold x_cheb, ii. by rewrite !length_fmap, length_seq. Qed.

Lemma x_cheb_lookup N a b j :
  j < Z.to_nat N → x_cheb N a b !! j = Some (node N a b (Z.of_nat (S j))).
Proof.
  intros Hj. unfold x_cheb, ii. rewrite !list_lookup_fmap.
  by rewrite lookup_seq_lt.
Qed.

Lemma edges_entry_points n a b : edges_of_points n a b (edges_entry (n - 2) a b).
Proof.
  unfold edges_of_points, edges_entry. set (N := (n - 2)%Z).
  pose proof (x_cheb_length N a b) as Hlen.
  split; [| split; [done | split]].
  - simpl. rewrite length_app, length_reverse, Hlen. simpl. lia.
  - simpl. rewrite lookup_app_r by (rewrite length_reverse; lia).
    by rewrite length_reverse, Hlen, Nat.sub_diag.
  - intros k Hk. destruct k as [| k]; [lia |]. simpl.
    rewrite lookup_app_l by (rewrite length_reverse; lia).
    rewrite reverse_lookup by lia. rewrite Hlen, x_cheb_lookup by lia.
    do 2 f_equal. lia.
Qed.

(** X16.  On two variables of one coordinate system, both named [y] or [z],
    with an entry in [npts] and limits ["min"] and ["max"], the constructor
    runs the base initializer on the dict that maps each variable's name to
    its array of edges, with the coordinate system of the variables and the
    given tabs, and its result is the base initializer's.  The array of a
    variable with [n] points between [a] and [b] has [n] entries when [n]
    is at least 2 (two otherwise): [a], then the values
    [(a + b) / 2 + (b - a) / 2 * cos((2 i - 1) pi / 2 / N)] for
    [i = N], ..., [1] with [N = n - 2], then [b]. *)
Theorem init_passes_edges v0 l0 v1 l1 npts tabs self n0 a0 b0 n1 a1 b1 :
  sv_coord_sys v0 = sv_coord_sys v1 →
  is_y_or_z (sv_name v0) = true → is_y_or_z (sv_name v1) = true →
  npts !! sv_id v0 = Some n0 → l0 !! "min" = Some a0 → l0 !! "max" = Some b0 →
  npts !! sv_id v1 = Some n1 → l1 !! "min" = Some a1 → l1 !! "max" = Some b1 →
  ∃ edges e0 e1,
    init edges_entry ScikitSubMesh2D_init [(v0, l0); (v1, l1)] npts tabs self
    = ScikitSubMesh2D_init edges (sv_coord_sys v1) tabs self ∧
    edges !! sv_name v1 = Some e1 ∧
    (sv_name v0 ≠ sv_name v1 → edges !! sv_name v0 = Some e0) ∧
    (∀ n, n ≠ sv_name v0 → n ≠ sv_name v1 → edges !! n = None) ∧
    edges_of_points n0 a0 b0 e0 ∧
    edges_of_points n1 a1 b1 e1.
Proof.
  intros Hc Hn0 Hn1 Hp0 Ha0 Hb0 Hp1 Ha1 Hb1.
  exists (<[sv_name v1 := edges_entry (n1 - 2) a1 b1]>
            (<[sv_name v0 := edges_entry (n0 - 2) a0 b0]> ∅)),
         (edges_entry (n0 - 2) a0 b0), (edges_entry (n1 - 2) a1 b1).
  split.
  { unfold init. simpl. rewrite Hc, String.eqb_refl. simpl.
    by rewrite Hn0, Hp0, Ha0, Hb0, Hn1, Hp1, Ha1, Hb1. }
  split; [apply lookup_insert_eq |]. split.
  { intros Hne. rewrite lookup_insert_ne by done. apply lookup_insert_eq. }
  split; [intros n Hne0 Hne1; by rewrite !lookup_insert_ne |].
  split; apply edges_entry_points.
Qed.

End Edges.

Definition var_y2 : SpatialVariable := Build_SpatialVariable "y" "cartesian" 14.
Definition npts_yz : gmap Z Z := {[11%Z := 10%Z; 12%Z := 6%Z; 14%Z := 4%Z]}.

(** Integer stand-ins for the floating-point operations, for running the
    computation of the edges. *)
Definition cos_stub (x : Z) : Z := 0%Z.
Definition pi_stub : Z := 3%Z.

Lemma init_passes_edges_witness :
  ∃ edges e0 e1,
    init (edges_entry id Z.add Z.sub Z.mul Z.div cos_stub pi_stub) base_stub
         [(var_y, unit_interval); (var_z, unit_interval)] npts_yz () None
    = base_stub edges (sv_coord_sys var_z) () None ∧
    edges !! sv_name var_z = Some e1 ∧
    (sv_name var_y ≠ sv_name var_z → edges !! sv_name var_y = Some e0) ∧
    (∀ n, n ≠ sv_name var_y → n ≠ sv_name var_z → edges !! n = None) ∧
    edges_of_points id Z.add Z.sub Z.mul Z.div cos_stub pi_stub 10 0%Z 1%Z e0 ∧
    edges_of_points id Z.add Z.sub Z.mul Z.div cos_stub pi_stub 6 0%Z 1%Z e1.
Proof.
  apply (init_passes_edges id Z.add Z.sub Z.mul Z.div cos_stub pi_stub base_stub
           var_y unit_interval var_z unit_interval npts_yz () None
           10%Z 0%Z 1%Z 6%Z 0%Z 1%Z); reflexivity.
Defined.

Lemma init_same_name_overwrites_witness :
  init edges_stub base_stub [(var_y, unit_interval); (var_y2, unit_interval)]
       npts_yz () None
  = base_stub {["y" := [0%Z; 1%Z]]} "cartesian" () None.
Proof.
  apply (init_same_name_overwrites edges_stub base_stub var_y unit_interval var_y2
           unit_interval npts_yz () None [0%Z; 1%Z] [0%Z; 1%Z]); reflexivity.
Defined.

Lemma init_KeyError_on_missing_entry_witness :
  init edges_stub base_stub [(var_y, unit_interval); (var_z, ∅)] npts_yz () None
  = (Raise KeyError, None).
Proof.
  apply (init_KeyError_on_missing_entry edges_stub base_stub var_y unit_interval
           var_z ∅ npts_yz () None); [reflexivity | reflexivity |].
  right. split; [by eexists | split; reflexivity].
Defined.

End ChebyshevFacts.
